(** * The hermes relayer adapter and the Docker test fixture

    A shallow embedding of [relayer/hermes/hermes_relayer.go] (package
    [hermes]) and of the Docker fixture of package [dockerutil], with the
    properties of their specification.

    Go strings are byte strings: they are [string] values whose characters
    are the bytes.  A slice [[]string] is a [list string]; a Go [map] is a
    [gmap]. *)

From Stdlib Require Import ZArith String Ascii List SpecFloat.
From stdpp Require Import base option list gmap strings sorting.

Local Open Scope string_scope.
Local Open Scope list_scope.

Set Warnings "-register-all".

(** ** The Go standard library, as far as the source uses it *)

(** A Go [error] value; [nil] is [None] in an [option error]. *)
Inductive error : Type :=
| errorString (msg : string).

(** Fields of a structured log entry ([zap.String], [zap.Error]). *)
Inductive Field : Type :=
| zap_String (key val : string)
| zap_Error (err : error).

(** One call of the logger's [Error] method. *)
Record LogEntry : Type := mkLogEntry {
  log_msg : string;
  log_fields : list Field
}.

(** Code that logs returns its value together with the entries it wrote,
    oldest first. *)
Definition Logged (A : Type) : Type := A * list LogEntry.

Definition log_Error (msg : string) (fields : list Field) : list LogEntry :=
  [mkLogEntry msg fields].

Module filepath.

(** [path/filepath] on Unix: the separator is a slash and there are no
    volume names. *)
Definition Separator : ascii := "/"%char.

Definition IsPathSeparator (c : ascii) : bool := Ascii.eqb c Separator.

Definition is_dot (c : ascii) : bool := Ascii.eqb c "."%char.

(** [r == n || IsPathSeparator(path[r])] for the rest of the path at [r]. *)
Definition at_end_or_separator (rest : list ascii) : bool :=
  match rest with
  | [] => true
  | c :: _ => IsPathSeparator c
  end.

(** The output buffer of [Clean] is kept as the bytes written so far, the
    most recent first; [out.w] is its length.

    [backtrack last out dotdot] is the loop
    [for out.w > dotdot && !IsPathSeparator(out.index(out.w)) { out.w-- }]
    where [last] is the byte at index [out.w]. *)
Fixpoint backtrack (last : ascii) (out : list ascii) (dotdot : nat)
  : list ascii :=
  match out with
  | [] => []
  | c :: out' =>
      if (dotdot <? length out)%nat && negb (IsPathSeparator last)
      then backtrack c out' dotdot
      else out
  end.

(** The main loop of [Clean], on the unread rest of the path, and its
    inner loop [copy_element], which copies a real path element up to the
    next separator. *)
Fixpoint clean_loop (rooted : bool) (path : list ascii)
    (out : list ascii) (dotdot : nat) {struct path} : list ascii :=
  match path with
  | [] => out
  | c :: rest =>
      let element :=
        (* real path element: add slash if needed, copy element *)
        let out1 :=
          if (rooted && negb (length out =? 1)%nat)
             || (negb rooted && negb (length out =? 0)%nat)
          then Separator :: out else out in
        copy_element rooted rest (c :: out1) dotdot in
      if IsPathSeparator c then
        (* empty path element *)
        clean_loop rooted rest out dotdot
      else if is_dot c && at_end_or_separator rest then
        (* . element *)
        clean_loop rooted rest out dotdot
      else
        match rest with
        | c2 :: rest2 =>
            if is_dot c && is_dot c2 && at_end_or_separator rest2 then
              (* .. element: remove to last separator *)
              if (dotdot <? length out)%nat then
                match out with
                | last :: out' =>
                    clean_loop rooted rest2 (backtrack last out' dotdot)
                      dotdot
                | [] => clean_loop rooted rest2 out dotdot
                end
              else if negb rooted then
                let out1 :=
                  if (0 <? length out)%nat then Separator :: out
                  else out in
                let out2 := "."%char :: "."%char :: out1 in
                clean_loop rooted rest2 out2 (length out2)
              else clean_loop rooted rest2 out dotdot
            else element
        | [] => element
        end
  end
with copy_element (rooted : bool) (path : list ascii)
    (out : list ascii) (dotdot : nat) {struct path} : list ascii :=
  match path with
  | [] => out
  | c :: rest =>
      if IsPathSeparator c then clean_loop rooted rest out dotdot
      else copy_element rooted rest (c :: out) dotdot
  end.

Definition Clean (path : string) : string :=
  match list_ascii_of_string path with
  | [] => "."
  | (c :: _) as p =>
      let rooted := IsPathSeparator c in
      let out :=
        if rooted then clean_loop true p [Separator] 1
        else clean_loop false p [] 0 in
      match out with
      | [] => "."
      | _ => string_of_list_ascii (rev out)
      end
  end.

(** [strings.Join(elems, "/")]. *)
Fixpoint join_sep (elems : list string) : string :=
  match elems with
  | [] => ""
  | [e] => e
  | e :: rest => e +:+ String Separator (join_sep rest)
  end.

(** [Join]: leading empty elements are dropped; the rest is joined with
    the separator and cleaned. *)
Fixpoint Join (elem : list string) : string :=
  match elem with
  | [] => ""
  | e :: rest =>
      if String.eqb e "" then Join rest else Clean (join_sep elem)
  end.

End filepath.

Module strings.

Definition newline : ascii := "010"%char.

(** [strings.Split(s, sep)] for a separator [sep] of one byte, which is
    how the source calls it: the pieces of [s] between the occurrences
    of [sep], in order; a string without [sep] is its own only piece. *)
Fixpoint Split (s : string) (sep : ascii) : list string :=
  match s with
  | EmptyString => [EmptyString]
  | String c rest =>
      if Ascii.eqb c sep then EmptyString :: Split rest sep
      else
        match Split rest sep with
        | piece :: pieces => String c piece :: pieces
        | [] => [String c EmptyString]
        end
  end.

End strings.

Module utf8.

(** [unicode/utf8]: the replacement character U+FFFD, encoded. *)
Definition RuneError : string :=
  String "239" (String "191" (String "189" EmptyString)).

Definition between (lo hi : N) (b : ascii) : bool :=
  ((lo <=? N_of_ascii b) && (N_of_ascii b <=? hi))%N.

(** Continuation bytes lie between [locb] and [hicb]. *)
Definition continuation (b : ascii) : bool := between 0x80 0xBF b.

(** The table [first] with [acceptRanges]: for a leading byte, the length
    of the encoding it starts and the range its second byte must lie in;
    [None] for a byte that starts no encoding. *)
Definition first (b0 : ascii) : option (nat * (N * N)) :=
  let b := N_of_ascii b0 in
  (if b <? 0x80 then Some (1%nat, (0x00, 0x7F))
   else if b <? 0xC2 then None
   else if b <? 0xE0 then Some (2%nat, (0x80, 0xBF))
   else if b =? 0xE0 then Some (3%nat, (0xA0, 0xBF))
   else if b <? 0xED then Some (3%nat, (0x80, 0xBF))
   else if b =? 0xED then Some (3%nat, (0x80, 0x9F))
   else if b <? 0xF0 then Some (3%nat, (0x80, 0xBF))
   else if b =? 0xF0 then Some (4%nat, (0x90, 0xBF))
   else if b <? 0xF4 then Some (4%nat, (0x80, 0xBF))
   else if b =? 0xF4 then Some (4%nat, (0x80, 0x8F))
   else None)%N.

(** [ValidString]: the string consists of well-formed encodings only. *)
Fixpoint ValidString (s : string) : bool :=
  match s with
  | EmptyString => true
  | String b0 r1 =>
      match first b0 with
      | None => false
      | Some (1%nat, _) => ValidString r1
      | Some (size, (lo, hi)) =>
          match r1 with
          | String b1 r2 =>
              between lo hi b1 &&
              match size with
              | 2%nat => ValidString r2
              | _ =>
                  match r2 with
                  | String b2 r3 =>
                      continuation b2 &&
                      match size with
                      | 3%nat => ValidString r3
                      | _ =>
                          match r3 with
                          | String b3 r4 => continuation b3 && ValidString r4
                          | EmptyString => false
                          end
                      end
                  | EmptyString => false
                  end
              end
          | EmptyString => false
          end
      end
  end.

(** The string the JSON encoder writes for [s]: every byte at which
    [DecodeRuneInString] reports [(RuneError, 1)] is replaced by U+FFFD,
    well-formed encodings are copied. *)
Fixpoint coerce (s : string) : string :=
  match s with
  | EmptyString => EmptyString
  | String b0 r1 =>
      let invalid := RuneError +:+ coerce r1 in
      match first b0 with
      | None => invalid
      | Some (1%nat, _) => String b0 (coerce r1)
      | Some (size, (lo, hi)) =>
          match r1 with
          | String b1 r2 =>
              if negb (between lo hi b1) then invalid
              else
                match size with
                | 2%nat => String b0 (String b1 (coerce r2))
                | _ =>
                    match r2 with
                    | String b2 r3 =>
                        if negb (continuation b2) then invalid
                        else
                          match size with
                          | 3%nat =>
                              String b0 (String b1 (String b2 (coerce r3)))
                          | _ =>
                              match r3 with
                              | String b3 r4 =>
                                  if negb (continuation b3) then invalid
                                  else
                                    String b0 (String b1 (String b2
                                      (String b3 (coerce r4))))
                              | EmptyString => invalid
                              end
                          end
                    | EmptyString => invalid
                    end
                end
          | EmptyString => invalid
          end
      end
  end.

End utf8.

Module json.

(** A [float64] is kept as its IEEE 754 datum. *)
Definition float64 : Type := spec_float.

Definition IsNaN (f : float64) : bool :=
  match f with S754_nan => true | _ => false end.

Definition IsInf (f : float64) : bool :=
  match f with S754_infinity _ => true | _ => false end.

(** A JSON text, as its syntax tree; the members of an object are in the
    order of the text. *)
Inductive Value : Type :=
| Null
| Bool (b : bool)
| Number (f : float64)
| Str (s : string)
| Array (elements : list Value)
| Object (members : list (string * Value)).

(** The Go values the encoder and the decoder deal with here: a struct is
    the list of its exported fields under their JSON names, in the order
    of declaration; [GoNil], [GoBool], [GoFloat64], [GoString], [GoSlice]
    and [GoMap] are what decoding into an empty interface yields. *)
Inductive GoValue : Type :=
| GoNil
| GoBool (b : bool)
| GoFloat64 (f : float64)
| GoString (s : string)
| GoSlice (elements : list GoValue)
| GoMap (m : gmap string GoValue)
| GoStruct (fields : list (string * GoValue)).

Definition UnsupportedValueError : error :=
  errorString "json: unsupported value".

(** Object members in the order Go writes a map: sorted by key. *)
Definition key_le (a b : string * Value) : Prop :=
  String.leb a.1 b.1 = true.

#[local] Instance key_le_dec a b : Decision (key_le a b).
Proof. unfold key_le. apply _. Defined.

Definition sort_members (ms : list (string * Value)) : list (string * Value) :=
  merge_sort key_le ms.

(** Turns the first error among the encoded members into the result. *)
Fixpoint collect (ms : list (string * (Value + error)))
  : list (string * Value) + error :=
  match ms with
  | [] => inl []
  | (name, inr err) :: _ => inr err
  | (name, inl v) :: rest =>
      match collect rest with
      | inl vs => inl ((name, v) :: vs)
      | inr err => inr err
      end
  end.

Fixpoint collect_elements (vs : list (Value + error))
  : list Value + error :=
  match vs with
  | [] => inl []
  | inr err :: _ => inr err
  | inl v :: rest =>
      match collect_elements rest with
      | inl vs => inl (v :: vs)
      | inr err => inr err
      end
  end.

(** [json.Marshal], by its documentation: strings are coerced to valid
    UTF-8; a floating-point number that is NaN or infinite is an
    [UnsupportedValueError]; a struct becomes an object with its fields in
    order, a map an object with its keys sorted. *)
Fixpoint Marshal (v : GoValue) : Value + error :=
  match v with
  | GoNil => inl Null
  | GoBool b => inl (Bool b)
  | GoFloat64 f =>
      if IsNaN f || IsInf f then inr UnsupportedValueError
      else inl (Number f)
  | GoString s => inl (Str (utf8.coerce s))
  | GoSlice elements =>
      match collect_elements (map Marshal elements) with
      | inl vs => inl (Array vs)
      | inr err => inr err
      end
  | GoMap m =>
      match collect (map_to_list (Marshal <$> m)) with
      | inl ms =>
          inl (Object (prod_map utf8.coerce id <$> sort_members ms))
      | inr err => inr err
      end
  | GoStruct fields =>
      match collect (map (λ '(name, x), (name, Marshal x)) fields) with
      | inl ms => inl (Object ms)
      | inr err => inr err
      end
  end.

(** [json.Unmarshal] into an empty interface: strings are coerced to
    valid UTF-8, and objects become maps in which a later member replaces
    an earlier one of the same name. *)
Fixpoint Unmarshal_any (v : Value) : GoValue :=
  match v with
  | Null => GoNil
  | Bool b => GoBool b
  | Number f => GoFloat64 f
  | Str s => GoString (utf8.coerce s)
  | Array elements => GoSlice (map Unmarshal_any elements)
  | Object members =>
      GoMap (list_to_map
               (reverse (map (λ '(name, x),
                                (utf8.coerce name, Unmarshal_any x))
                           members)))
  end.

(** The member of an object under a name. *)
Definition member (name : string) (v : Value) : option Value :=
  match v with
  | Object members => snd <$> List.find (λ kv, String.eqb kv.1 name) members
  | _ => None
  end.

Definition names (v : Value) : list string :=
  match v with
  | Object members => fst <$> members
  | _ => []
  end.

End json.

(** ** Declarations of other packages *)

Module ibc.

(** Modelled from the spec: the declaration of [ibc.ChainConfig] is not
    among the source files.  The record keeps the fields the source
    reads: the chain type, the chain ID, the account prefix and the gas
    parameters of the spec's chain configuration. *)
Record ChainConfig : Type := mkChainConfig {
  Type_ : string;
  ChainID : string;
  Bech32Prefix : string;
  GasPrices : string;
  GasAdjustment : json.float64
}.

End ibc.

Module keyring.

(** Modelled from the spec: the constant [keyring.BackendTest] belongs to
    the Cosmos SDK; the spec gives the keyring backend as "test". *)
Definition BackendTest : string := "test".

End keyring.

(** ** Package [hermes] *)

Module hermes.

Definition ContainerImage : string := "docker.io/informalsystems/hermes".
Definition ContainerVersion : string := "0.15.0".

Definition Name : string := "hermes".
Definition DefaultContainerImage : string := ContainerImage.
Definition DefaultContainerVersion : string := ContainerVersion.

(** *** The chain configuration *)

Record HermesRelayerChainConfigValue : Type := {
  AccountPrefix : string;
  ChainID : string;
  Debug : bool;
  GRPCAddr : string;
  GasAdjustment : json.float64;
  GasPrices : string;
  Key : string;
  KeyringBackend : string;
  OutputFormat : string;
  RPCAddr : string;
  SignMode : string;
  Timeout : string
}.

Record HermesRelayerChainConfig : Type := {
  Type_ : string;
  Value : HermesRelayerChainConfigValue
}.

(** The two structs as the encoder sees them: the fields in the order of
    declaration, under the names of their [json] tags. *)
Definition HermesRelayerChainConfigValue_fields
    (v : HermesRelayerChainConfigValue) : json.GoValue :=
  json.GoStruct
    [("account-prefix", json.GoString (AccountPrefix v));
     ("chain-id", json.GoString (ChainID v));
     ("debug", json.GoBool (Debug v));
     ("grpc-addr", json.GoString (GRPCAddr v));
     ("gas-adjustment", json.GoFloat64 (GasAdjustment v));
     ("gas-prices", json.GoString (GasPrices v));
     ("key", json.GoString (Key v));
     ("keyring-backend", json.GoString (KeyringBackend v));
     ("output-format", json.GoString (OutputFormat v));
     ("rpc-addr", json.GoString (RPCAddr v));
     ("sign-mode", json.GoString (SignMode v));
     ("timeout", json.GoString (Timeout v))].

Definition HermesRelayerChainConfig_fields (c : HermesRelayerChainConfig)
  : json.GoValue :=
  json.GoStruct
    [("type", json.GoString (Type_ c));
     ("value", HermesRelayerChainConfigValue_fields (Value c))].

Definition ChainConfigToHermesRelayerChainConfig
    (chainConfig : ibc.ChainConfig) (keyName rpcAddr gprcAddr : string)
  : HermesRelayerChainConfig :=
  {| Type_ := ibc.Type_ chainConfig;
     Value :=
       {| Key := keyName;
          ChainID := ibc.ChainID chainConfig;
          RPCAddr := rpcAddr;
          GRPCAddr := gprcAddr;
          AccountPrefix := ibc.Bech32Prefix chainConfig;
          KeyringBackend := keyring.BackendTest;
          GasAdjustment := ibc.GasAdjustment chainConfig;
          GasPrices := ibc.GasPrices chainConfig;
          Debug := true;
          Timeout := "10s";
          OutputFormat := "json";
          SignMode := "direct" |} |}.

(** [ConfigContent] returns the JSON text or the encoder's error; its
    context argument is not used. *)
Definition ConfigContent (cfg : ibc.ChainConfig)
    (keyName rpcAddr grpcAddr : string) : json.Value + error :=
  let cosmosRelayerChainConfig :=
    ChainConfigToHermesRelayerChainConfig cfg keyName rpcAddr grpcAddr in
  match json.Marshal
          (HermesRelayerChainConfig_fields cosmosRelayerChainConfig) with
  | inr err => inr err
  | inl jsonBytes => inl jsonBytes
  end.

(** *** Command builders without lookups *)

Definition Init (homeDir : string) : list string :=
  ["hermes"; "config"; "init";
   "--home"; homeDir].

Definition AddChainConfiguration (containerFilePath homeDir : string)
  : list string :=
  ["hermes"; "chains"; "add"; "-f"; containerFilePath;
   "--home"; homeDir].

Definition AddKey (chainID keyName homeDir : string) : list string :=
  ["hermes"; "keys"; "add"; chainID; "-n"; keyName;
   "-c"; filepath.Join [homeDir; "hermes"; "config.toml"];
   "-j"].

Definition GeneratePath (srcChainID dstChainID pathName homeDir : string)
  : list string :=
  ["hermes"; "paths"; "new"; srcChainID; dstChainID; pathName;
   "-c"; filepath.Join [homeDir; "config.toml"];
   "-j"].

Definition GetChannels (chainID homeDir : string) : list string :=
  ["hermes"; "q"; "channels"; chainID;
   "-c"; filepath.Join [homeDir; "config.toml"];
   "-j"].

Definition GetConnections (chainID homeDir : string) : list string :=
  ["hermes"; "q"; "connections"; chainID;
   "-c"; filepath.Join [homeDir; "config.toml"];
   "-j"].

Definition RestoreKey (chainID keyName mnemonic homeDir : string)
  : list string :=
  ["hermes"; "keys"; "restore"; chainID; "-n"; keyName; "-m"; mnemonic;
   "-c"; filepath.Join [homeDir; "config.toml"];
   "-j"].

Definition StartRelayer (pathName homeDir : string) : list string :=
  ["hermes"; "start";
   "-c"; filepath.Join [homeDir; "config.toml"];
   "-j"].

(** The channel options [ibc.CreateChannelOptions] are declared in package
    [ibc]; the builders that receive them never look inside, so their type
    is a parameter. *)
Section ChannelOptions.
Context {CreateChannelOptions : Type}.

Definition LinkPath (pathName homeDir : string)
    (opts : CreateChannelOptions) : list string :=
  ["hermes"; "tx"; "link"; pathName;
   "-c"; filepath.Join [homeDir; "config.toml"];
   "-j"].

Definition CreateChannel (pathName : string)
    (opts : CreateChannelOptions) (homeDir : string) : list string :=
  [].
End ChannelOptions.

Definition FlushAcknowledgements (pathName channelID homeDir : string)
  : list string :=
  [].

Definition FlushPackets (pathName channelID homeDir : string)
  : list string :=
  [].

(** *** Command builders that look identifiers up from the path name

    A lookup returns Go's pair [(string, error)].  The builders are written
    once over the four lookups they call ([PathOps]); the commander's own
    lookups and its builders follow. *)

Definition Lookup : Type := string → string → string * option error.

Module PathOps.
Section WithLookups.
Variables (getSourceChainIDFromPath
           getDestinationChainIDFromPath
           getDestinationClientIDFromPath
           getSourcePortIDFromPath : Lookup).

Definition ClearQueue (pathName channelID homeDir : string)
  : Logged (list string) :=
  let '(chainID, err) := getSourceChainIDFromPath pathName homeDir in
  match err with
  | Some err =>
      ([], log_Error "Failed to lookup up source chainid for path %s: %v"
             [zap_String "path" pathName; zap_Error err])
  | None =>
      let '(portID, err) := getSourcePortIDFromPath pathName homeDir in
      match err with
      | Some err =>
          ([], log_Error "Failed to lookup up portID for path %s: %v"
                 [zap_String "path" pathName; zap_Error err])
      | None =>
          (["hermes"; "clear"; "packets"; chainID; portID; channelID;
            "-c"; filepath.Join [homeDir; "config.toml"];
            "-j"], [])
      end
  end.

Definition CreateClients (pathName homeDir : string)
  : Logged (list string) :=
  let '(srcChainID, err) := getSourceChainIDFromPath pathName homeDir in
  match err with
  | Some err =>
      ([], log_Error "Failed to lookup up source chainid for path %s: %v"
             [zap_String "path" pathName; zap_Error err])
  | None =>
      let '(dstChainID, err) :=
        getDestinationChainIDFromPath pathName homeDir in
      match err with
      | Some err =>
          ([], log_Error
                 "Failed to lookup up destination chainid for path %s: %v"
                 [zap_String "path" pathName; zap_Error err])
      | None =>
          (["hermes"; "create"; "client"; srcChainID; dstChainID;
            "-c"; filepath.Join [homeDir; "config.toml"];
            "-j"], [])
      end
  end.

Definition CreateConnections (pathName homeDir : string)
  : Logged (list string) :=
  let '(srcChainID, err) := getSourceChainIDFromPath pathName homeDir in
  match err with
  | Some err =>
      ([], log_Error "Failed to lookup up source chainid for path %s: %v"
             [zap_String "path" pathName; zap_Error err])
  | None =>
      let '(dstChainID, err) :=
        getDestinationChainIDFromPath pathName homeDir in
      match err with
      | Some err =>
          ([], log_Error
                 "Failed to lookup up destination chainid for path %s: %v"
                 [zap_String "path" pathName; zap_Error err])
      | None =>
          (["hermes"; "tx"; "connection"; srcChainID; dstChainID;
            "-c"; filepath.Join [homeDir; "config.toml"];
            "-j"], [])
      end
  end.

Definition UpdateClients (pathName homeDir : string)
  : Logged (list string) :=
  let '(dstChainID, err) :=
    getDestinationChainIDFromPath pathName homeDir in
  match err with
  | Some err =>
      ([], log_Error
             "Failed to lookup up destination chainid for path %s: %v"
             [zap_String "path" pathName; zap_Error err])
  | None =>
      let '(dstClientID, err) :=
        getDestinationClientIDFromPath pathName homeDir in
      match err with
      | Some err =>
          ([], log_Error
                 "Failed to lookup up destination chainid for path %s: %v"
                 [zap_String "path" pathName; zap_Error err])
      | None =>
          (["hermes"; "update"; "client"; dstChainID; dstClientID;
            "-c"; filepath.Join [homeDir; "config.toml"];
            "-j"], [])
      end
  end.
End WithLookups.
End PathOps.

(** The commander's lookups. *)
Definition getSourceChainIDFromPath : Lookup :=
  λ pathName homedir, ("", None).

Definition getDestinationChainIDFromPath : Lookup :=
  λ pathName homedir, ("", None).

Definition getDestinationClientIDFromPath : Lookup :=
  λ pathName homedir, ("", None).

Definition getSourcePortIDFromPath : Lookup :=
  λ pathName homedir, ("", None).

(** The commander's path-based builders. *)
Definition ClearQueue : string → string → string → Logged (list string) :=
  PathOps.ClearQueue getSourceChainIDFromPath getSourcePortIDFromPath.

Definition CreateClients : string → string → Logged (list string) :=
  PathOps.CreateClients getSourceChainIDFromPath
    getDestinationChainIDFromPath.

Definition CreateConnections : string → string → Logged (list string) :=
  PathOps.CreateConnections getSourceChainIDFromPath
    getDestinationChainIDFromPath.

Definition UpdateClients : string → string → Logged (list string) :=
  PathOps.UpdateClients getDestinationChainIDFromPath
    getDestinationClientIDFromPath.

(** *** Output parsers

    The record types [ibc.ChannelOutput] and [ibc.ConnectionOutput] are
    declared in package [ibc], and [json.Unmarshal] and
    [strings.TrimSpace] belong to the Go standard library: the parsers
    are written over them.  [Unmarshal line] is [inl v] when the line
    decodes to the record [v] and [inr err] when [json.Unmarshal] returns
    the error [err]. *)
Section Parsers.
Variable TrimSpace : string → string.
Context {ChannelOutput ConnectionOutput : Type}.
Variable Unmarshal_ChannelOutput : string → ChannelOutput + error.
Variable Unmarshal_ConnectionOutput : string → ConnectionOutput + error.

(** The body of the loop of [ParseGetChannelsOutput], on the slice
    [channels] and the log written so far. *)
Definition channels_step (st : list ChannelOutput * list LogEntry)
    (channel : string) : list ChannelOutput * list LogEntry :=
  let '(channels, log) := st in
  if String.eqb (TrimSpace channel) "" then (channels, log)
  else
    match Unmarshal_ChannelOutput channel with
    | inr err =>
        (channels,
         log ++ log_Error "Failed to parse channels json" [zap_Error err])
    | inl channelOutput => (channels ++ [channelOutput], log)
    end.

Definition ParseGetChannelsOutput (stdout stderr : string)
  : Logged (list ChannelOutput * option error) :=
  let channelSplit := strings.Split stdout strings.newline in
  let '(channels, log) := foldl channels_step ([], []) channelSplit in
  ((channels, None), log).

(** The body of the loop of [ParseGetConnectionsOutput] and of
    [ParseRestoreKeyOutput].  The slice holds pointers to a variable
    that is declared anew in every iteration, so it is a list of
    values. *)
Definition connections_step (st : list ConnectionOutput * list LogEntry)
    (connection : string) : list ConnectionOutput * list LogEntry :=
  let '(connections, log) := st in
  if String.eqb (TrimSpace connection) "" then (connections, log)
  else
    match Unmarshal_ConnectionOutput connection with
    | inr err =>
        (connections,
         log ++ log_Error "Error parsing connection json" [zap_Error err])
    | inl connectionOutput => (connections ++ [connectionOutput], log)
    end.

Definition ParseGetConnectionsOutput (stdout stderr : string)
  : Logged (list ConnectionOutput * option error) :=
  let '(connections, log) :=
    foldl connections_step ([], [])
      (strings.Split stdout strings.newline) in
  ((connections, None), log).

Definition ParseRestoreKeyOutput (stdout stderr : string)
  : Logged string :=
  let '(connections, log) :=
    foldl connections_step ([], [])
      (strings.Split stdout strings.newline) in
  ("", log).
End Parsers.

End hermes.

(** ** Package [dockerutil] *)

Module time.
(** A [Duration] counts nanoseconds. *)
Definition Duration : Type := Z.
Definition Second : Duration := 1000000000%Z.
End time.

Module docker.

(** *** The Docker engine, as the client calls of the fixture see it

    The engine holds containers and networks under their IDs, each with
    its labels.  A world is the engine together with the calls received
    so far (oldest first) and the faults still to come: every call takes
    the next entry of [faults], fails with its error when there is one
    and changes nothing then; when the entries are used up calls
    succeed.  The faults stand for whatever makes the engine refuse or
    the connection break. *)

Record Container : Type := mkContainer {
  Labels : gmap string string;
  Running : bool
}.

Record Engine : Type := mkEngine {
  containers : gmap string Container;
  networks : gmap string (gmap string string)
}.

Inductive Call : Type :=
| CallListContainers (all : bool)
| CallStopContainer (id : string) (timeout : nat)
| CallWaitContainerWithContext (id : string) (ctxTimeout : time.Duration)
| CallRemoveContainer (id : string) (force : bool)
| CallListNetworks
| CallRemoveNetwork (id : string).

Record World : Type := mkWorld {
  engine : Engine;
  faults : list (option error);
  calls : list Call
}.

(** Client code is a function of the world. *)
Definition M (A : Type) : Type := World → A * World.

#[global] Instance M_ret : MRet M := λ A a w, (a, w).

#[global] Instance M_bind : MBind M :=
  λ A B k m w, let '(a, w') := m w in k a w'.

(** Records the call and takes the next fault. *)
Definition enter (c : Call) : M (option error) :=
  λ w,
    match faults w with
    | [] => (None, mkWorld (engine w) [] (calls w ++ [c]))
    | f :: fs => (f, mkWorld (engine w) fs (calls w ++ [c]))
    end.

Definition modify (f : Engine → Engine) : M unit :=
  λ w, (tt, mkWorld (f (engine w)) (faults w) (calls w)).

Definition get : M Engine := λ w, (engine w, w).

(** One entry of the answer of [ListContainers]. *)
Record APIContainers : Type := mkAPIContainers {
  APIContainers_ID : string;
  APIContainers_Labels : gmap string string
}.

(** One entry of the answer of [ListNetworks]. *)
Record Network : Type := mkNetwork {
  Network_ID : string;
  Network_Labels : gmap string string
}.

Definition NoSuchContainer : error := errorString "No such container".
Definition NoSuchNetwork : error := errorString "No such network".
Definition ContainerRunning : error :=
  errorString "cannot remove a running container".

(** [ListContainers]: all containers when [All] is set, the running ones
    otherwise. *)
Definition ListContainers (all : bool)
  : M (list APIContainers * option error) :=
  fault ← enter (CallListContainers all);
  match fault with
  | Some err => mret ([], Some err)
  | None =>
      e ← get;
      mret ((λ '(id, c), mkAPIContainers id (Labels c)) <$>
              filter (λ '(id, c), all || Running c = true)
                (map_to_list (containers e)),
            None)
  end.

Definition StopContainer (id : string) (timeout : nat)
  : M (option error) :=
  fault ← enter (CallStopContainer id timeout);
  match fault with
  | Some err => mret (Some err)
  | None =>
      e ← get;
      match containers e !! id with
      | None => mret (Some NoSuchContainer)
      | Some c =>
          modify (λ e, mkEngine
                         (<[id := mkContainer (Labels c) false]>
                            (containers e))
                         (networks e));;
          mret None
      end
  end.

(** [WaitContainerWithContext] returns the exit code; the context bounds
    the wait. *)
Definition WaitContainerWithContext (id : string)
    (ctxTimeout : time.Duration) : M (Z * option error) :=
  fault ← enter (CallWaitContainerWithContext id ctxTimeout);
  match fault with
  | Some err => mret (0%Z, Some err)
  | None => mret (0%Z, None)
  end.

Definition RemoveContainer (id : string) (force : bool)
  : M (option error) :=
  fault ← enter (CallRemoveContainer id force);
  match fault with
  | Some err => mret (Some err)
  | None =>
      e ← get;
      match containers e !! id with
      | None => mret (Some NoSuchContainer)
      | Some c =>
          if Running c && negb force then mret (Some ContainerRunning)
          else
            modify (λ e, mkEngine (delete id (containers e))
                           (networks e));;
            mret None
      end
  end.

Definition ListNetworks : M (list Network * option error) :=
  fault ← enter CallListNetworks;
  match fault with
  | Some err => mret ([], Some err)
  | None =>
      e ← get;
      mret ((λ '(id, labels), mkNetwork id labels) <$>
              map_to_list (networks e),
            None)
  end.

Definition RemoveNetwork (id : string) : M (option error) :=
  fault ← enter (CallRemoveNetwork id);
  match fault with
  | Some err => mret (Some err)
  | None =>
      e ← get;
      match networks e !! id with
      | None => mret (Some NoSuchNetwork)
      | Some _ =>
          modify (λ e, mkEngine (containers e)
                         (delete id (networks e)));;
          mret None
      end
  end.

End docker.

Module fmt.

(** [fmt.Sprintf] with a format that ends in the verb [%v] for an error:
    the text before the verb, then what the method [Error] returns. *)
Definition Sprintf_v (before : string) (err : error) : string :=
  match err with
  | errorString msg => before +:+ msg
  end.

(** [fmt.Sprintf] with a format that ends in the verb [%s] for a
    string. *)
Definition Sprintf_s (before : string) (s : string) : string :=
  before +:+ s.

End fmt.

Module testing.

(** *** [testing.T], as far as the fixture uses it

    The name of the test, the functions registered with [Cleanup], latest
    first, the output and the failure mark.  A registered function is
    client code that runs when the test ends.  [Helper] only marks the
    caller for the line numbers of the output and has no counterpart
    here. *)
Record T : Type := mkT {
  Name : string;
  cleanups : list (docker.M unit);
  output : list string;
  Failed : bool
}.

Definition Cleanup (f : docker.M unit) (t : T) : T :=
  mkT (Name t) (f :: cleanups t) (output t) (Failed t).

(** [Fatalf] is [Logf] followed by [FailNow]: the message goes to the
    output, the test is marked as failed, and the function that called
    stops; its caller here writes the stop. *)
Definition Fatalf (message : string) (t : T) : T :=
  mkT (Name t) (cleanups t) (output t ++ [message]) true.

(** What a function under test came to: it returned, or [FailNow] stopped
    it. *)
Inductive Outcome (A : Type) : Type :=
| Returned (a : A)
| Stopped.

Arguments Returned {A} a.
Arguments Stopped {A}.

(** When the test ends its registered functions run, last added
    first. *)
Fixpoint run (fs : list (docker.M unit)) : docker.M unit :=
  match fs with
  | [] => mret tt
  | f :: rest => f;; run rest
  end.

Definition runCleanups (t : T) : docker.M unit := run (cleanups t).

End testing.

Module dockertest.

(** *** [dockertest.Pool], as far as the fixture uses it

    The pool holds the client; the client's calls act on the world, so
    the handle carries nothing. *)
Definition Pool : Type := unit.

(** The options of a network that the fixture sets; the context is the
    background context and has no counterpart here. *)
Record CreateNetworkOptions : Type := mkCreateNetworkOptions {
  Name : string;
  Labels : gmap string string;
  CheckDuplicate : bool
}.

(** A host is the world together with the requests for networks it has
    received, oldest first. *)
Record Host : Type := mkHost {
  world : docker.World;
  requests : list CreateNetworkOptions
}.

(** Client code of the teardown, run on a host. *)
Definition on_world {A} (m : docker.M A) : Host → A * Host :=
  λ h, let '(a, w) := m (world h) in (a, mkHost w (requests h)).

(** [CreateNetwork]: the options start from the name, the configuration
    functions are applied in turn, and the client is called.  The call
    takes the next fault like every call of the client; when it
    succeeds the engine holds one more network, under an ID that no
    network of the engine has, with the labels of the options. *)
Definition CreateNetwork (name : string)
    (opts : list (CreateNetworkOptions → CreateNetworkOptions))
  : Host → (option docker.Network * option error) * Host :=
  λ h,
    let cfg :=
      foldl (λ cfg opt, opt cfg) (mkCreateNetworkOptions name ∅ false) opts in
    let w := world h in
    let e := docker.engine w in
    match docker.faults w with
    | Some err :: fs =>
        ((None, Some err),
         mkHost (docker.mkWorld e fs (docker.calls w)) (requests h ++ [cfg]))
    | fs =>
        let id := fresh (dom (docker.networks e)) in
        ((Some (docker.mkNetwork id (Labels cfg)), None),
         mkHost
           (docker.mkWorld
              (docker.mkEngine (docker.containers e)
                 (<[id := Labels cfg]> (docker.networks e)))
              (tail fs) (docker.calls w))
           (requests h ++ [cfg]))
    end.

End dockertest.

Module dockerutil.
Import docker.

(** [CleanupLabel] is a key for docker labels used when cleaning up docker
    resources. *)
Definition CleanupLabel : string := "ibctest".

(** [for _, x := range xs { body x }] over a slice. *)
Fixpoint range {A} (xs : list A) (body : A → M unit) : M unit :=
  match xs with
  | [] => mret tt
  | x :: rest => body x;; range rest body
  end.

(** The loop over the labels of one resource:
    [for k, v := range labels { if k == CleanupLabel && v == testName { body; break } }],
    on the entries of the map in the order the loop meets them. *)
Fixpoint range_labels (entries : list (string * string))
    (testName : string) (body : M unit) : M unit :=
  match entries with
  | [] => mret tt
  | (k, v) :: rest =>
      if String.eqb k CleanupLabel && String.eqb v testName
      then body
      else range_labels rest testName body
  end.

(** [dockerCleanup testName pool] is the returned function; the pool's
    client acts on the world.  Every error a call returns is discarded, as
    the blank identifiers of the source do.  Go leaves the order in which a
    map is ranged over open; [map_to_list] gives the entries in one
    order. *)
Definition dockerCleanup (testName : string) : M unit :=
  '(cont, _) ← ListContainers true;
  range cont (λ c,
    range_labels (map_to_list (APIContainers_Labels c)) testName
      (StopContainer (APIContainers_ID c) 10;;
       WaitContainerWithContext (APIContainers_ID c) (time.Second * 5)%Z;;
       RemoveContainer (APIContainers_ID c) true;;
       mret tt));;
  '(nets, _) ← ListNetworks;
  range nets (λ n,
    range_labels (map_to_list (Network_Labels n)) testName
      (RemoveNetwork (Network_ID n);;
       mret tt)).

(** [Pool] holds the client connection and the ID of the network of the
    test. *)
Record Pool : Type := mkPool {
  pool : dockertest.Pool;
  networkID : string
}.

(** The methods [Pool] and [NetworkID] of [Pool]. *)
Definition Pool_Pool (p : Pool) : dockertest.Pool := pool p.

Definition NetworkID (p : Pool) : string := networkID p.

(** [DockerSetup t].  What [dockertest.NewPool] answers is decided
    outside the engine and is the argument [newPool].  [CreateNetwork]
    returns a network whenever it returns no error; reading the ID of a
    nil network would stop the function.

    Modelled from the spec: [RandLowerCaseLetterString] is declared in
    another file of the package; the spec only says that the network is
    uniquely named, and the letters are the argument [letters]. *)
Definition DockerSetup (newPool : dockertest.Pool * option error)
    (letters : string) (t : testing.T)
  : dockertest.Host → (testing.Outcome Pool * testing.T) * dockertest.Host :=
  λ h,
    let '(pool, err) := newPool in
    match err with
    | Some err =>
        ((testing.Stopped,
          testing.Fatalf
            (fmt.Sprintf_v "failed to create dockertest pool: " err) t), h)
    | None =>
        let t := testing.Cleanup (dockerCleanup (testing.Name t)) t in
        let '(_, h) :=
          dockertest.on_world (dockerCleanup (testing.Name t)) h in
        let name := fmt.Sprintf_s "ibctest-" letters in
        let '((network, err), h) :=
          dockertest.CreateNetwork name
            [λ cfg, dockertest.mkCreateNetworkOptions
                      (dockertest.Name cfg)
                      {[ CleanupLabel := testing.Name t ]}
                      true] h in
        match err, network with
        | None, Some network =>
            ((testing.Returned (mkPool pool (Network_ID network)), t), h)
        | Some err, _ =>
            ((testing.Stopped,
              testing.Fatalf
                (fmt.Sprintf_v "failed to create docker network: " err) t),
             h)
        | None, None => ((testing.Stopped, t), h)
        end
    end.

End dockerutil.

(** ** The specification's notions *)

(** The contract of a path-based builder, in the spec's words: the populated
    command when both lookups return no error, the empty sequence
    otherwise. *)
Definition populated_or_empty (first second : string * option error)
    (command : string → string → list string) : list string :=
  match first.2, second.2 with
  | None, None => command first.1 second.1
  | _, _ => []
  end.

(** The records of the lines of an output, in the spec's words: skip blank
    lines, decode each remaining line, keep the successes in input
    order. *)
Definition spec_records_of_lines {T : Type} (TrimSpace : string → string)
    (Unmarshal : string → T + error) (lines : list string) : list T :=
  omap (λ line, match Unmarshal line with
                | inl record => Some record
                | inr _ => None
                end)
    (filter (λ line, TrimSpace line ≠ "") lines).

(** The records of an output: those of its lines, split on newlines. *)
Definition spec_decoded_records {T : Type} (TrimSpace : string → string)
    (Unmarshal : string → T + error) (stdout : string) : list T :=
  spec_records_of_lines TrimSpace Unmarshal
    (strings.Split stdout strings.newline).

(** ** Stand-ins for examples

    The theorems hold for every [TrimSpace] and every decoder.  Examples
    need some: [example_TrimSpace] drops leading ASCII white space, which
    decides blankness of ASCII lines, and [example_Unmarshal] decodes the
    line [{}] only. *)
Fixpoint example_TrimSpace (s : string) : string :=
  match s with
  | EmptyString => EmptyString
  | String c rest =>
      if (N_of_ascii c =? 32)%N
         || ((9 <=? N_of_ascii c)%N && (N_of_ascii c <=? 13)%N)
      then example_TrimSpace rest
      else s
  end.

Definition example_Unmarshal (line : string) : unit + error :=
  if String.eqb line "{}" then inl tt
  else inr (errorString "invalid character").

(** *** Notions for the Docker fixture *)

(** A resource carries the cleanup label of a test when its labels map
    [CleanupLabel] to the test name. *)
Definition labelled (testName : string) (labels : gmap string string)
  : Prop :=
  labels !! dockerutil.CleanupLabel = Some testName.

#[global] Instance labelled_dec testName labels :
  Decision (labelled testName labels).
Proof. unfold labelled. apply _. Defined.

(** The calls the teardown makes for one container of the engine, and for
    one network, in the spec's words: stop with a grace period of ten
    seconds, wait for at most five seconds, remove by force; a network is
    removed directly. *)
Definition spec_container_calls (testName : string)
    (entry : string * docker.Container) : list docker.Call :=
  if decide (labelled testName (docker.Labels entry.2))
  then [docker.CallStopContainer entry.1 10;
        docker.CallWaitContainerWithContext entry.1 5000000000%Z;
        docker.CallRemoveContainer entry.1 true]
  else [].

Definition spec_network_calls (testName : string)
    (entry : string * gmap string string) : list docker.Call :=
  if decide (labelled testName entry.2)
  then [docker.CallRemoveNetwork entry.1]
  else [].

(** Whether the call number [i] of a run fails under the faults [fs]. *)
Definition fails (fs : list (option error)) (i : nat) : bool :=
  match fs !! i with
  | Some (Some _) => true
  | _ => false
  end.

(** The bodies of the two loops of [dockerCleanup]. *)
Definition cleanup_container (testName : string)
    (c : docker.APIContainers) : docker.M unit :=
  dockerutil.range_labels (map_to_list (docker.APIContainers_Labels c))
    testName
    (docker.StopContainer (docker.APIContainers_ID c) 10;;
     docker.WaitContainerWithContext (docker.APIContainers_ID c)
       (time.Second * 5)%Z;;
     docker.RemoveContainer (docker.APIContainers_ID c) true;;
     mret tt).

Definition cleanup_network (testName : string) (n : docker.Network)
  : docker.M unit :=
  dockerutil.range_labels (map_to_list (docker.Network_Labels n)) testName
    (docker.RemoveNetwork (docker.Network_ID n);;
     mret tt).

(** The world after a call has been received. *)
Definition received (w : docker.World) (c : docker.Call) : docker.World :=
  docker.mkWorld (docker.engine w) (tail (docker.faults w))
    (docker.calls w ++ [c]).

(** The fault the next call meets. *)
Definition next_fault (w : docker.World) : option error :=
  match docker.faults w with
  | [] => None
  | f :: _ => f
  end.

Definition set_containers (m : gmap string docker.Container)
    (w : docker.World) : docker.World :=
  docker.mkWorld (docker.mkEngine m (docker.networks (docker.engine w)))
    (docker.faults w) (docker.calls w).

Definition set_networks (m : gmap string (gmap string string))
    (w : docker.World) : docker.World :=
  docker.mkWorld (docker.mkEngine (docker.containers (docker.engine w)) m)
    (docker.faults w) (docker.calls w).

(** What a piece of client code did to a world: it made the calls [l], used
    one fault for each, left alone the containers outside [cids] and the
    networks outside [nids], and created nothing. *)
Definition footprint (cids nids : string → Prop) (l : list docker.Call)
    (w w' : docker.World) : Prop :=
  docker.calls w' = docker.calls w ++ l
  ∧ docker.faults w' = drop (length l) (docker.faults w)
  ∧ (∀ j, ¬ cids j →
       docker.containers (docker.engine w') !! j
       = docker.containers (docker.engine w) !! j)
  ∧ (∀ j, ¬ nids j →
       docker.networks (docker.engine w') !! j
       = docker.networks (docker.engine w) !! j)
  ∧ (∀ j, docker.containers (docker.engine w) !! j = None →
       docker.containers (docker.engine w') !! j = None)
  ∧ (∀ j, docker.networks (docker.engine w) !! j = None →
       docker.networks (docker.engine w') !! j = None).

(** No fault is left: every call to come succeeds. *)
Definition fault_free (w : docker.World) : Prop :=
  Forall (λ f, f = None) (docker.faults w).

(** The trace of a teardown of the engine [e] under the faults [fs], in the
    spec's words: list the containers, stop, wait for and remove each
    labelled one in turn, list the networks, remove each labelled one.  A
    listing that fails yields nothing to go through. *)
Definition spec_teardown_calls (testName : string) (e : docker.Engine)
    (fs : list (option error)) : list docker.Call :=
  let cont :=
    if fails fs 0 then [] else map_to_list (docker.containers e) in
  let ccalls := flat_map (spec_container_calls testName) cont in
  let nets :=
    if fails fs (S (length ccalls)) then []
    else map_to_list (docker.networks e) in
  docker.CallListContainers true
    :: ccalls
    ++ docker.CallListNetworks
    :: flat_map (spec_network_calls testName) nets.

(** Two teardowns in succession, the first under the faults [fs1] and the
    second under [fs2]: the first leaves no labelled resource, the second
    only lists and leaves the engine as it found it. *)
Definition second_run_finds_nothing (testName : string) (e : docker.Engine)
    (fs1 fs2 : list (option error)) : Prop :=
  let w1 := (dockerutil.dockerCleanup testName (docker.mkWorld e fs1 [])).2 in
  let w2 :=
    (dockerutil.dockerCleanup testName
       (docker.mkWorld (docker.engine w1) fs2 [])).2 in
  (∀ id c, docker.containers (docker.engine w1) !! id = Some c →
           ¬ labelled testName (docker.Labels c))
  ∧ (∀ id labels, docker.networks (docker.engine w1) !! id = Some labels →
                  ¬ labelled testName labels)
  ∧ docker.calls w2 = [docker.CallListContainers true; docker.CallListNetworks]
  ∧ docker.engine w2 = docker.engine w1.

(** An engine for examples: two containers and a network of the test
    [TestA], a container of another test and a network without labels. *)
Definition example_engine : docker.Engine :=
  docker.mkEngine
    (list_to_map
       [("c1", docker.mkContainer {[ "ibctest" := "TestA" ]} true);
        ("c2", docker.mkContainer {[ "ibctest" := "TestB" ]} true);
        ("c3", docker.mkContainer
                 {[ "ibctest" := "TestA"; "role" := "relayer" ]} false)])
    (list_to_map
       [("n1", {[ "ibctest" := "TestA" ]});
        ("n2", ∅)]).

(** Faults under which the fourth call of a run fails. *)
Definition example_faults : list (option error) :=
  [None; None; None; Some (errorString "removal already in progress")].

(** *** Notions for the chain configuration *)

(** A valid input, in the spec's word: the gas adjustment is a number,
    neither NaN nor infinite, and the strings are valid UTF-8. *)
Definition valid_input (cfg : ibc.ChainConfig)
    (keyName rpcAddr grpcAddr : string) : bool :=
  negb (json.IsNaN (ibc.GasAdjustment cfg)
        || json.IsInf (ibc.GasAdjustment cfg))
  && forallb utf8.ValidString
       [ibc.Type_ cfg; ibc.ChainID cfg; ibc.Bech32Prefix cfg;
        ibc.GasPrices cfg; keyName; rpcAddr; grpcAddr].

(** The documented value object. *)
Definition spec_value_object (cfg : ibc.ChainConfig)
    (keyName rpcAddr grpcAddr : string) : json.Value :=
  json.Object
    [("account-prefix", json.Str (ibc.Bech32Prefix cfg));
     ("chain-id", json.Str (ibc.ChainID cfg));
     ("debug", json.Bool true);
     ("grpc-addr", json.Str grpcAddr);
     ("gas-adjustment", json.Number (ibc.GasAdjustment cfg));
     ("gas-prices", json.Str (ibc.GasPrices cfg));
     ("key", json.Str keyName);
     ("keyring-backend", json.Str "test");
     ("output-format", json.Str "json");
     ("rpc-addr", json.Str rpcAddr);
     ("sign-mode", json.Str "direct");
     ("timeout", json.Str "10s")].

(** Decoding a JSON text into a map and encoding the map again gives a
    text that decodes to the same map. *)
Definition roundtrip_preserves_map (doc : json.Value) : Prop :=
  ∃ doc', json.Marshal (json.Unmarshal_any doc) = inl doc'
          ∧ json.Unmarshal_any doc' = json.Unmarshal_any doc.

(** [ConfigContent] produces the documented JSON for an input. *)
Definition produces_documented_json (cfg : ibc.ChainConfig)
    (keyName rpcAddr grpcAddr : string) : Prop :=
  ∃ doc value,
    hermes.ConfigContent cfg keyName rpcAddr grpcAddr = inl doc
    ∧ json.member "value" doc = Some value
    ∧ json.names value
      = ["account-prefix"; "chain-id"; "debug"; "grpc-addr";
         "gas-adjustment"; "gas-prices"; "key"; "keyring-backend";
         "output-format"; "rpc-addr"; "sign-mode"; "timeout"]
    ∧ value = spec_value_object cfg keyName rpcAddr grpcAddr
    ∧ roundtrip_preserves_map doc.

(** Inputs for examples. *)
Definition example_config : ibc.ChainConfig :=
  ibc.mkChainConfig "cosmos" "chain-a" "cosmos" "0.01uatom"
    (S754_finite false 3 (-1)).

Definition example_config_NaN : ibc.ChainConfig :=
  ibc.mkChainConfig "cosmos" "chain-a" "cosmos" "0.01uatom" S754_nan.

(** A key name that is not valid UTF-8: the single byte 0xFF. *)
Definition example_key_invalid : string := String "255" EmptyString.

(** *** Notions for the command builders *)

(** The two tails a config path is joined from, as bytes. *)
Definition config_tail : list ascii :=
  Eval cbv in list_ascii_of_string "config.toml".

Definition hermes_config_tail : list ascii :=
  Eval cbv in list_ascii_of_string "hermes/config.toml".

(** *** Notions for the further properties of the parsers *)

(** The decoder errors of the lines of an output: those of the lines that
    are not blank and do not decode, in input order. *)
Definition spec_errors_of_lines {T : Type} (TrimSpace : string → string)
    (Unmarshal : string → T + error) (lines : list string) : list error :=
  omap (λ line, match Unmarshal line with
                | inl _ => None
                | inr err => Some err
                end)
    (filter (λ line, TrimSpace line ≠ "") lines).

(** The log entry a parser writes for a decoder error. *)
Definition parse_error_entry (msg : string) (err : error) : LogEntry :=
  mkLogEntry msg [zap_Error err].

(** *** Notions for the further properties of the command builders *)

(** The log of a path-based builder over arbitrary lookups: nothing when
    both lookups succeed, else one entry that names the path and carries
    the error of the first lookup that failed. *)
Definition spec_lookup_log (first second : string * option error)
    (pathName msg1 msg2 : string) : list LogEntry :=
  match first.2, second.2 with
  | Some err, _ =>
      [mkLogEntry msg1 [zap_String "path" pathName; zap_Error err]]
  | None, Some err =>
      [mkLogEntry msg2 [zap_String "path" pathName; zap_Error err]]
  | None, None => []
  end.

(** What [Clean] keeps true of its output buffer: for a rooted path the
    buffer holds the leading separator and [dotdot] stays 1; for a path
    that is not rooted the buffer never starts with a separator.  The
    buffer has its latest byte first, so it starts with its last
    element. *)
Definition clean_inv (rooted : bool) (out : list ascii) (dotdot : nat)
  : Prop :=
  if rooted then dotdot = 1%nat ∧ last out = Some filepath.Separator
  else last out ≠ Some filepath.Separator.

(** A path is absolute when it starts with a separator. *)
Definition IsAbs (path : string) : bool :=
  match path with
  | String c _ => filepath.IsPathSeparator c
  | EmptyString => false
  end.

(** *** Notions for the further properties of the chain configuration *)

(** The strings of a JSON text: its string values and the names of the
    members of its objects. *)
Fixpoint strings_of (v : json.Value) : list string :=
  match v with
  | json.Str s => [s]
  | json.Array elements => flat_map strings_of elements
  | json.Object members =>
      flat_map (λ member, member.1 :: strings_of member.2) members
  | _ => []
  end.

(** A chain configuration as the encoder writes it: every string coerced
    to valid UTF-8. *)
Definition coerced (cfg : ibc.ChainConfig) : ibc.ChainConfig :=
  ibc.mkChainConfig (utf8.coerce (ibc.Type_ cfg))
    (utf8.coerce (ibc.ChainID cfg)) (utf8.coerce (ibc.Bech32Prefix cfg))
    (utf8.coerce (ibc.GasPrices cfg)) (ibc.GasAdjustment cfg).

(** *** Notions for the further properties of the teardown *)

(** The call [call] was made among the calls [l] of a run under the faults
    [fs], and it succeeded. *)
Definition succeeded (call : docker.Call) (l : list docker.Call)
    (fs : list (option error)) : Prop :=
  ∃ i, l !! i = Some call ∧ fails fs i = false.

(** An engine is what is left of another: each of its containers was
    there, with the same labels, and was not started; each of its networks
    was there, with the same labels. *)
Definition remainder (e e' : docker.Engine) : Prop :=
  (∀ id c', docker.containers e' !! id = Some c' →
     ∃ c, docker.containers e !! id = Some c
          ∧ docker.Labels c' = docker.Labels c
          ∧ (docker.Running c' = true → docker.Running c = true))
  ∧ (∀ id labels, docker.networks e' !! id = Some labels →
       docker.networks e !! id = Some labels).

(** What the calls [l] of a piece of client code did to the resources: a
    resource is gone exactly when it was not there or a removal of it
    succeeded, and what is there is left of what was there. *)
Definition outcome (l : list docker.Call) (w w' : docker.World) : Prop :=
  docker.faults w' = drop (length l) (docker.faults w)
  ∧ (∀ id, docker.containers (docker.engine w') !! id = None
           ↔ docker.containers (docker.engine w) !! id = None
             ∨ succeeded (docker.CallRemoveContainer id true) l
                 (docker.faults w))
  ∧ (∀ id, docker.networks (docker.engine w') !! id = None
           ↔ docker.networks (docker.engine w) !! id = None
             ∨ succeeded (docker.CallRemoveNetwork id) l (docker.faults w))
  ∧ remainder (docker.engine w) (docker.engine w').

(** The resources of an engine that do not carry the cleanup label of a
    test. *)
Definition unlabelled_containers (testName : string) (e : docker.Engine)
  : gmap string docker.Container :=
  filter (λ entry, ¬ labelled testName (docker.Labels entry.2))
    (docker.containers e).

Definition unlabelled_networks (testName : string) (e : docker.Engine)
  : gmap string (gmap string string) :=
  filter (λ entry, ¬ labelled testName entry.2) (docker.networks e).

(** The calls the removal of the containers depends on, and those the
    removal of the networks depends on. *)
Definition container_removal_needs (call : docker.Call) : bool :=
  match call with
  | docker.CallListContainers _ | docker.CallRemoveContainer _ _ => true
  | _ => false
  end.

Definition network_removal_needs (call : docker.Call) : bool :=
  match call with
  | docker.CallListNetworks | docker.CallRemoveNetwork _ => true
  | _ => false
  end.

(** The calls of the kind [needs] that a teardown makes all succeed. *)
Definition all_succeed (needs : docker.Call → bool) (testName : string)
    (e : docker.Engine) (fs : list (option error)) : Prop :=
  ∀ i call, spec_teardown_calls testName e fs !! i = Some call →
            needs call = true → fails fs i = false.

(* ================================================================== *)
(** * Properties *)

Example Join_abs :
  filepath.Join ["/home/hermes"; "config.toml"] = "/home/hermes/config.toml".
Proof. reflexivity. Qed.

Example Join_dirty :
  filepath.Join ["/a//b/./c/.."; ""; "../x/"; "config.toml"]
  = "/a/x/config.toml".
Proof. reflexivity. Qed.

Example Join_updir :
  filepath.Join [""; "../../a/../.."; "config.toml"]
  = "../../../config.toml".
Proof. reflexivity. Qed.

Example Join_root : filepath.Join ["/.."; ".."] = "/".
Proof. reflexivity. Qed.

Example Clean_empty :
  filepath.Clean "" = "." ∧ filepath.Clean "a/.." = ".".
Proof. split; reflexivity. Qed.

Example Split_lines :
  strings.Split
    ("a" +:+ String strings.newline (String strings.newline "b c"))
    strings.newline
  = ["a"; ""; "b c"].
Proof. reflexivity. Qed.

Example Split_trailing :
  strings.Split (String strings.newline "") strings.newline = [""; ""]
  ∧ strings.Split "" strings.newline = [""].
Proof. split; reflexivity. Qed.

Example coerce_invalid_byte :
  utf8.coerce (String "255" "a") = utf8.RuneError +:+ "a"
  ∧ utf8.ValidString (String "255" "a") = false
  ∧ utf8.ValidString utf8.RuneError = true.
Proof. repeat split; reflexivity. Qed.

(** ** Command builders *)

Example AddKey_example :
  hermes.AddKey "chain-a" "relayer" "/home/hermes"
  = ["hermes"; "keys"; "add"; "chain-a"; "-n"; "relayer";
     "-c"; "/home/hermes/hermes/config.toml"; "-j"].
Proof. reflexivity. Qed.

Example CreateClients_example :
  hermes.CreateClients "path-ab" "/home/hermes"
  = (["hermes"; "create"; "client"; ""; "";
      "-c"; "/home/hermes/config.toml"; "-j"], []).
Proof. reflexivity. Qed.

(** *** The config path *)

Section JoinFacts.
Import filepath.

Ltac clean_cases :=
  repeat match goal with
         | |- context [if ?b then _ else _] => destruct b eqn:?; simpl
         end;
  try lia.

(** After the same start, the longer tail leaves seven more bytes. *)
Lemma clean_loop_tails rooted out dotdot :
  length (clean_loop rooted hermes_config_tail out dotdot)
  = (length (clean_loop rooted config_tail out dotdot) + 7)%nat.
Proof.
  unfold hermes_config_tail, config_tail.
  cbn [clean_loop copy_element IsPathSeparator Separator is_dot
       at_end_or_separator Ascii.eqb Bool.eqb andb orb negb].
  destruct rooted; simpl; clean_cases.
Qed.

Lemma clean_loop_skip rooted rest out dotdot :
  clean_loop rooted (Separator :: rest) out dotdot
  = clean_loop rooted rest out dotdot.
Proof. reflexivity. Qed.

Lemma copy_element_stop rooted rest out dotdot :
  copy_element rooted (Separator :: rest) out dotdot
  = clean_loop rooted rest out dotdot.
Proof. reflexivity. Qed.

Lemma clean_loop_suffix n :
  (∀ path rooted out dotdot, (length path ≤ n)%nat →
     length (clean_loop rooted (path ++ Separator :: hermes_config_tail)
               out dotdot)
     = (length (clean_loop rooted (path ++ Separator :: config_tail)
                  out dotdot) + 7)%nat)
  ∧ (∀ path rooted out dotdot, (length path ≤ n)%nat →
       length (copy_element rooted (path ++ Separator :: hermes_config_tail)
                 out dotdot)
       = (length (copy_element rooted (path ++ Separator :: config_tail)
                    out dotdot) + 7)%nat).
Proof.
  assert (Hbase : ∀ rooted out dotdot,
    length (clean_loop rooted ([] ++ Separator :: hermes_config_tail)
              out dotdot)
    = (length (clean_loop rooted ([] ++ Separator :: config_tail)
                 out dotdot) + 7)%nat)
    by (intros; cbn [app]; rewrite !clean_loop_skip;
        apply clean_loop_tails).
  assert (Hbase' : ∀ rooted out dotdot,
    length (copy_element rooted ([] ++ Separator :: hermes_config_tail)
              out dotdot)
    = (length (copy_element rooted ([] ++ Separator :: config_tail)
                 out dotdot) + 7)%nat)
    by (intros; cbn [app]; rewrite !copy_element_stop;
        apply clean_loop_tails).
  induction n as [|n [IHloop IHcopy]].
  - split; intros [|c rest] rooted out dotdot Hlen; simpl in Hlen;
      try lia; done.
  - split; intros [|c rest] rooted out dotdot Hlen; try done;
      simpl in Hlen.
    + rewrite <- !app_comm_cons. cbn [clean_loop].
      destruct (IsPathSeparator c) eqn:Hsep; [apply IHloop; lia|].
      destruct rest as [|c2 [|c3 rest3]];
        cbn [app at_end_or_separator];
        change (IsPathSeparator Separator) with true;
        change (is_dot Separator) with false;
        rewrite ?andb_true_r, ?andb_false_r;
        repeat match goal with
               | |- context [if ?b then _ else _] => destruct b eqn:?
               | |- context [match ?o with [] => _ | _ :: _ => _ end] =>
                   is_var o; destruct o
               end;
        rewrite ?app_comm_cons;
        first [ apply Hbase | apply Hbase'
              | apply (IHloop []); simpl; lia
              | apply (IHloop [_]); simpl in *; lia
              | apply (IHloop (_ :: _ :: _)); simpl in *; lia
              | apply (IHcopy [_]); simpl in *; lia
              | apply (IHcopy (_ :: _ :: _)); simpl in *; lia
              | apply IHloop; simpl in *; lia
              | apply IHcopy; simpl in *; lia ].
    + rewrite <- !app_comm_cons. cbn [copy_element].
      destruct (IsPathSeparator c); [apply IHloop|apply IHcopy]; lia.
Qed.

Lemma length_string_of_list_ascii l :
  String.length (string_of_list_ascii l) = length l.
Proof. induction l as [|a l IH]; simpl; [done|by rewrite IH]. Qed.

Lemma list_ascii_of_string_app s t :
  list_ascii_of_string (s +:+ t)
  = list_ascii_of_string s ++ list_ascii_of_string t.
Proof. induction s as [|a s IH]; simpl; [done|by rewrite IH]. Qed.

Lemma Clean_length c path tail :
  String.length
    (Clean (String c path +:+ String Separator
              (string_of_list_ascii tail)))
  = let p := (c :: list_ascii_of_string path) ++ Separator :: tail in
    let out := if IsPathSeparator c then clean_loop true p [Separator] 1
               else clean_loop false p [] 0 in
    match out with
    | [] => 1%nat
    | _ => length out
    end.
Proof.
  unfold Clean. cbn [String.append list_ascii_of_string].
  rewrite list_ascii_of_string_app. cbn [list_ascii_of_string].
  rewrite list_ascii_of_string_of_list_ascii. cbn zeta.
  rewrite <- app_comm_cons.
  set (out := if IsPathSeparator c then _ else _).
  destruct out as [|a out]; [done|].
  by rewrite length_string_of_list_ascii, length_rev.
Qed.

(** The path of [AddKey] is never the path of the other builders. *)
Lemma Join_hermes_config_differs homeDir :
  Join [homeDir; "hermes"; "config.toml"] ≠ Join [homeDir; "config.toml"].
Proof.
  destruct homeDir as [|c home]; [by vm_compute|].
  cbn [Join String.eqb]. intros Heq.
  apply (f_equal String.length) in Heq. revert Heq.
  change (join_sep [String c home; "hermes"; "config.toml"])
    with (String c home +:+ String Separator
            (string_of_list_ascii hermes_config_tail)).
  change (join_sep [String c home; "config.toml"])
    with (String c home +:+ String Separator
            (string_of_list_ascii config_tail)).
  rewrite !Clean_length. cbn zeta.
  destruct (clean_loop_suffix (S (String.length home))) as [Hloop _].
  set (p := c :: list_ascii_of_string home).
  assert (Hp : (length p ≤ S (String.length home))%nat).
  { unfold p. simpl. rewrite <- (string_of_list_ascii_of_string home) at 2.
    by rewrite length_string_of_list_ascii. }
  destruct (IsPathSeparator c).
  - specialize (Hloop p true [Separator] 1%nat Hp).
    destruct (clean_loop true (p ++ _ :: hermes_config_tail) _ _);
      destruct (clean_loop true (p ++ _ :: config_tail) _ _);
      simpl in *; lia.
  - specialize (Hloop p false [] 0%nat Hp).
    destruct (clean_loop false (p ++ _ :: hermes_config_tail) _ _);
      destruct (clean_loop false (p ++ _ :: config_tail) _ _);
      simpl in *; lia.
Qed.

End JoinFacts.

(** C1: every command builder produces the argument vector of the external
    interface with its arguments in place; the config path is the home
    directory joined with [config.toml] for every builder but [AddKey],
    which joins the home directory with [hermes] and [config.toml], and for
    no home directory are the two paths the same: the builders do not share
    one config path. *)
Theorem AddKey_config_path_differs :
  ∀ (CreateChannelOptions : Type) (opts : CreateChannelOptions)
    (chainID keyName pathName srcChainID dstChainID containerFilePath
       mnemonic homeDir : string),
    let config := filepath.Join [homeDir; "config.toml"] in
    let configOfAddKey := filepath.Join [homeDir; "hermes"; "config.toml"] in
    hermes.Init homeDir = ["hermes"; "config"; "init"; "--home"; homeDir]
    ∧ hermes.AddChainConfiguration containerFilePath homeDir
      = ["hermes"; "chains"; "add"; "-f"; containerFilePath;
         "--home"; homeDir]
    ∧ hermes.AddKey chainID keyName homeDir
      = ["hermes"; "keys"; "add"; chainID; "-n"; keyName;
         "-c"; configOfAddKey; "-j"]
    ∧ (hermes.CreateClients pathName homeDir).1
      = ["hermes"; "create"; "client"; ""; ""; "-c"; config; "-j"]
    ∧ (hermes.CreateConnections pathName homeDir).1
      = ["hermes"; "tx"; "connection"; ""; ""; "-c"; config; "-j"]
    ∧ hermes.GeneratePath srcChainID dstChainID pathName homeDir
      = ["hermes"; "paths"; "new"; srcChainID; dstChainID; pathName;
         "-c"; config; "-j"]
    ∧ hermes.GetChannels chainID homeDir
      = ["hermes"; "q"; "channels"; chainID; "-c"; config; "-j"]
    ∧ hermes.GetConnections chainID homeDir
      = ["hermes"; "q"; "connections"; chainID; "-c"; config; "-j"]
    ∧ hermes.LinkPath pathName homeDir opts
      = ["hermes"; "tx"; "link"; pathName; "-c"; config; "-j"]
    ∧ hermes.RestoreKey chainID keyName mnemonic homeDir
      = ["hermes"; "keys"; "restore"; chainID; "-n"; keyName;
         "-m"; mnemonic; "-c"; config; "-j"]
    ∧ hermes.StartRelayer pathName homeDir
      = ["hermes"; "start"; "-c"; config; "-j"]
    ∧ (hermes.UpdateClients pathName homeDir).1
      = ["hermes"; "update"; "client"; ""; ""; "-c"; config; "-j"]
    ∧ configOfAddKey ≠ config.
Proof.
  intros. repeat (split; [reflexivity|]).
  apply Join_hermes_config_differs.
Qed.

Example RestoreKey_example :
  hermes.RestoreKey "chain-a" "relayer" "abandon ability" "/home/hermes"
  = ["hermes"; "keys"; "restore"; "chain-a"; "-n"; "relayer";
     "-m"; "abandon ability"; "-c"; "/home/hermes/config.toml"; "-j"].
Proof. reflexivity. Qed.

(** *** Builders without effect, and builders with lookups *)

(** C10: for every input, [CreateChannel], [FlushAcknowledgements] and
    [FlushPackets] return the empty token sequence. *)
Theorem noop_builders_return_empty :
  ∀ (CreateChannelOptions : Type) (opts : CreateChannelOptions)
    (pathName channelID homeDir : string),
    hermes.CreateChannel pathName opts homeDir = []
    ∧ hermes.FlushAcknowledgements pathName channelID homeDir = []
    ∧ hermes.FlushPackets pathName channelID homeDir = [].
Proof. intros. repeat split. Qed.


Lemma populated_or_empty_nil first second command :
  (∀ a b, command a b ≠ []) →
  populated_or_empty first second command = []
  ↔ first.2 ≠ None ∨ second.2 ≠ None.
Proof.
  intros Hne. unfold populated_or_empty.
  destruct first.2 as [e1|], second.2 as [e2|]; split; intros H;
    try done; try (left; done); try (right; done).
  - by apply Hne in H.
  - destruct H as [H|H]; done.
Qed.

(** C3: each path-based operation returns the populated command when its
    two lookups succeed and the empty sequence exactly when one of them
    fails; with the commander's lookups, which always succeed with the
    empty string, the result is always the populated command with empty
    identifiers, and nothing is logged. *)
Theorem path_operations_populated_or_empty :
  ∀ (pathName channelID homeDir : string),
    let config := filepath.Join [homeDir; "config.toml"] in
    (∀ srcChain dstChain dstClient srcPort : hermes.Lookup,
       (hermes.PathOps.CreateClients srcChain dstChain pathName homeDir).1
       = populated_or_empty (srcChain pathName homeDir)
           (dstChain pathName homeDir)
           (λ src dst, ["hermes"; "create"; "client"; src; dst;
                        "-c"; config; "-j"])
       ∧ (hermes.PathOps.CreateConnections srcChain dstChain
            pathName homeDir).1
         = populated_or_empty (srcChain pathName homeDir)
             (dstChain pathName homeDir)
             (λ src dst, ["hermes"; "tx"; "connection"; src; dst;
                          "-c"; config; "-j"])
       ∧ (hermes.PathOps.UpdateClients dstChain dstClient
            pathName homeDir).1
         = populated_or_empty (dstChain pathName homeDir)
             (dstClient pathName homeDir)
             (λ dst client, ["hermes"; "update"; "client"; dst; client;
                             "-c"; config; "-j"])
       ∧ (hermes.PathOps.ClearQueue srcChain srcPort
            pathName channelID homeDir).1
         = populated_or_empty (srcChain pathName homeDir)
             (srcPort pathName homeDir)
             (λ chain port, ["hermes"; "clear"; "packets"; chain; port;
                             channelID; "-c"; config; "-j"])
       ∧ ((hermes.PathOps.CreateClients srcChain dstChain
             pathName homeDir).1 = []
          ↔ (srcChain pathName homeDir).2 ≠ None
            ∨ (dstChain pathName homeDir).2 ≠ None)
       ∧ ((hermes.PathOps.CreateConnections srcChain dstChain
             pathName homeDir).1 = []
          ↔ (srcChain pathName homeDir).2 ≠ None
            ∨ (dstChain pathName homeDir).2 ≠ None)
       ∧ ((hermes.PathOps.UpdateClients dstChain dstClient
             pathName homeDir).1 = []
          ↔ (dstChain pathName homeDir).2 ≠ None
            ∨ (dstClient pathName homeDir).2 ≠ None)
       ∧ ((hermes.PathOps.ClearQueue srcChain srcPort
             pathName channelID homeDir).1 = []
          ↔ (srcChain pathName homeDir).2 ≠ None
            ∨ (srcPort pathName homeDir).2 ≠ None))
    ∧ hermes.CreateClients pathName homeDir
      = (["hermes"; "create"; "client"; ""; ""; "-c"; config; "-j"], [])
    ∧ hermes.CreateConnections pathName homeDir
      = (["hermes"; "tx"; "connection"; ""; ""; "-c"; config; "-j"], [])
    ∧ hermes.UpdateClients pathName homeDir
      = (["hermes"; "update"; "client"; ""; ""; "-c"; config; "-j"], [])
    ∧ hermes.ClearQueue pathName channelID homeDir
      = (["hermes"; "clear"; "packets"; ""; ""; channelID;
          "-c"; config; "-j"], []).
Proof.
  intros pathName channelID homeDir config. split; [|done].
  intros srcChain dstChain dstClient srcPort.
  assert (Hcc : (hermes.PathOps.CreateClients srcChain dstChain
                   pathName homeDir).1
                = populated_or_empty (srcChain pathName homeDir)
                    (dstChain pathName homeDir)
                    (λ src dst, ["hermes"; "create"; "client"; src; dst;
                                 "-c"; config; "-j"])).
  { unfold hermes.PathOps.CreateClients, populated_or_empty.
    destruct (srcChain pathName homeDir) as [s [e|]],
      (dstChain pathName homeDir) as [d [e'|]]; done. }
  assert (Hcn : (hermes.PathOps.CreateConnections srcChain dstChain
                   pathName homeDir).1
                = populated_or_empty (srcChain pathName homeDir)
                    (dstChain pathName homeDir)
                    (λ src dst, ["hermes"; "tx"; "connection"; src; dst;
                                 "-c"; config; "-j"])).
  { unfold hermes.PathOps.CreateConnections, populated_or_empty.
    destruct (srcChain pathName homeDir) as [s [e|]],
      (dstChain pathName homeDir) as [d [e'|]]; done. }
  assert (Huc : (hermes.PathOps.UpdateClients dstChain dstClient
                   pathName homeDir).1
                = populated_or_empty (dstChain pathName homeDir)
                    (dstClient pathName homeDir)
                    (λ dst client, ["hermes"; "update"; "client"; dst;
                                    client; "-c"; config; "-j"])).
  { unfold hermes.PathOps.UpdateClients, populated_or_empty.
    destruct (dstChain pathName homeDir) as [s [e|]],
      (dstClient pathName homeDir) as [d [e'|]]; done. }
  assert (Hcq : (hermes.PathOps.ClearQueue srcChain srcPort
                   pathName channelID homeDir).1
                = populated_or_empty (srcChain pathName homeDir)
                    (srcPort pathName homeDir)
                    (λ chain port, ["hermes"; "clear"; "packets"; chain;
                                    port; channelID; "-c"; config; "-j"])).
  { unfold hermes.PathOps.ClearQueue, populated_or_empty.
    destruct (srcChain pathName homeDir) as [s [e|]],
      (srcPort pathName homeDir) as [d [e'|]]; done. }
  rewrite Hcc, Hcn, Huc, Hcq.
  repeat split; try reflexivity;
    try (by apply populated_or_empty_nil);
    try (by apply (populated_or_empty_nil _ _ _)).
Qed.

(** ** The chain configuration *)

Lemma coerce_valid_le n :
  ∀ s, (String.length s ≤ n)%nat →
       utf8.ValidString s = true → utf8.coerce s = s.
Proof.
  induction n as [|n IH]; intros s Hlen Hv.
  - destruct s; [done|]. simpl in Hlen. lia.
  - destruct s as [|b0 r1]; [done|].
    cbn [utf8.ValidString utf8.coerce] in *. simpl in Hlen.
    destruct (utf8.first b0) as [[sz [lo hi]]|]; [|done].
    assert (Hrec : ∀ r, (String.length r ≤ String.length r1)%nat →
                        utf8.ValidString r = true → utf8.coerce r = r)
      by (intros r Hr; apply IH; lia).
    clear IH Hlen.
    destruct sz as [|[|[|[|sz]]]];
      repeat
        match goal with
        | |- String _ _ = String _ _ => f_equal
        | |- utf8.coerce _ = _ => apply Hrec; [simpl; lia|done]
        | H : context [match ?r with EmptyString => _ | String _ _ => _ end]
          |- _ => destruct r; [done|]; simpl in Hrec
        | H : _ && _ = true |- _ =>
            apply andb_true_iff in H as [? ?]
        | H : ?b = true |- context [negb ?b] => rewrite H; cbn [negb]
        end.
Qed.

(** The encoder copies a string of valid UTF-8. *)
Lemma coerce_valid s : utf8.ValidString s = true → utf8.coerce s = s.
Proof. by apply (coerce_valid_le (String.length s)). Qed.

Lemma Marshal_valid_string s :
  utf8.ValidString s = true → json.Marshal (json.GoString s) = inl (json.Str s).
Proof. intros H. cbn [json.Marshal]. by rewrite coerce_valid. Qed.

Lemma Marshal_number f :
  json.IsNaN f || json.IsInf f = false →
  json.Marshal (json.GoFloat64 f) = inl (json.Number f).
Proof. intros H. cbn [json.Marshal]. by rewrite H. Qed.

(** The value object decoded into a map and encoded again: the members
    come out sorted by name. *)
Lemma Marshal_decoded_value_object cfg keyName rpcAddr grpcAddr :
  valid_input cfg keyName rpcAddr grpcAddr = true →
  json.Marshal
    (json.Unmarshal_any (spec_value_object cfg keyName rpcAddr grpcAddr))
  = inl (json.Object
           [("account-prefix", json.Str (ibc.Bech32Prefix cfg));
            ("chain-id", json.Str (ibc.ChainID cfg));
            ("debug", json.Bool true);
            ("gas-adjustment", json.Number (ibc.GasAdjustment cfg));
            ("gas-prices", json.Str (ibc.GasPrices cfg));
            ("grpc-addr", json.Str grpcAddr);
            ("key", json.Str keyName);
            ("keyring-backend", json.Str "test");
            ("output-format", json.Str "json");
            ("rpc-addr", json.Str rpcAddr);
            ("sign-mode", json.Str "direct");
            ("timeout", json.Str "10s")]).
Proof.
  destruct cfg as [ty chain prefix prices gas]. unfold valid_input.
  cbn [ibc.Type_ ibc.ChainID ibc.Bech32Prefix ibc.GasPrices
       ibc.GasAdjustment forallb].
  intros Hvalid. repeat (apply andb_true_iff in Hvalid as [? Hvalid]).
  match goal with H : negb _ = true |- _ => apply negb_true_iff in H end.
  unfold spec_value_object. cbn [json.Unmarshal_any map].
  rewrite !coerce_valid by (done || reflexivity).
  cbn [json.Marshal]. rewrite <- list_to_map_fmap.
  cbn [reverse rev_append fmap list_fmap prod_map fst snd id].
  rewrite !Marshal_valid_string by (done || reflexivity).
  rewrite Marshal_number by done.
  vm_compute. reflexivity.
Qed.

(** C4 (as amended): for every valid input, that is a chain configuration
    whose gas adjustment is a number and whose strings, with the key name
    and the two addresses, are valid UTF-8, [ConfigContent] produces a JSON
    text whose value object has exactly the documented field names, in
    which the key, the chain ID, the addresses, the account prefix and the
    gas parameters are the inputs and the keyring backend is "test", debug
    is true, the timeout is "10s", the output format is "json" and the sign
    mode is "direct"; decoding the text and encoding it again preserves
    the map. *)
Theorem ConfigContent_valid_input :
  ∀ (cfg : ibc.ChainConfig) (keyName rpcAddr grpcAddr : string),
    valid_input cfg keyName rpcAddr grpcAddr = true →
    produces_documented_json cfg keyName rpcAddr grpcAddr.
Proof.
  intros cfg keyName rpcAddr grpcAddr Hvalid.
  pose proof (Marshal_decoded_value_object _ _ _ _ Hvalid) as Hvalue.
  destruct cfg as [ty chain prefix prices gas].
  unfold valid_input in Hvalid.
  cbn [ibc.Type_ ibc.ChainID ibc.Bech32Prefix ibc.GasPrices
       ibc.GasAdjustment forallb] in *.
  repeat (apply andb_true_iff in Hvalid as [? Hvalid]).
  match goal with H : negb _ = true |- _ => apply negb_true_iff in H end.
  unfold produces_documented_json, hermes.ConfigContent,
    hermes.HermesRelayerChainConfig_fields,
    hermes.HermesRelayerChainConfigValue_fields,
    hermes.ChainConfigToHermesRelayerChainConfig.
  cbn [hermes.Type_ hermes.Value hermes.AccountPrefix hermes.ChainID
       hermes.Debug hermes.GRPCAddr hermes.GasAdjustment hermes.GasPrices
       hermes.Key hermes.KeyringBackend hermes.OutputFormat hermes.RPCAddr
       hermes.SignMode hermes.Timeout ibc.Type_ ibc.ChainID
       ibc.Bech32Prefix ibc.GasPrices ibc.GasAdjustment].
  cbn [json.Marshal map json.collect].
  match goal with H : _ || _ = false |- _ => rewrite H end.
  cbn [json.collect]. rewrite !coerce_valid by (done || reflexivity).
  eexists _, _. split; [reflexivity|]. split; [reflexivity|].
  split; [reflexivity|]. split; [reflexivity|].
  unfold roundtrip_preserves_map.
  change (json.Object
            [("account-prefix", json.Str prefix);
             ("chain-id", json.Str chain); ("debug", json.Bool true);
             ("grpc-addr", json.Str grpcAddr);
             ("gas-adjustment", json.Number gas);
             ("gas-prices", json.Str prices); ("key", json.Str keyName);
             ("keyring-backend", json.Str keyring.BackendTest);
             ("output-format", json.Str "json");
             ("rpc-addr", json.Str rpcAddr);
             ("sign-mode", json.Str "direct"); ("timeout", json.Str "10s")])
    with (spec_value_object (ibc.mkChainConfig ty chain prefix prices gas)
            keyName rpcAddr grpcAddr).
  set (value := spec_value_object _ _ _ _) in *.
  cbn [json.Unmarshal_any map].
  rewrite !coerce_valid by (done || reflexivity).
  cbn [json.Marshal]. rewrite <- list_to_map_fmap.
  cbn [reverse rev_append fmap list_fmap prod_map fst snd id].
  rewrite Hvalue, Marshal_valid_string by done.
  eexists. split; [vm_compute; reflexivity|].
  subst value. cbn [json.Unmarshal_any map spec_value_object].
  cbn [ibc.Type_ ibc.ChainID ibc.Bech32Prefix ibc.GasPrices
       ibc.GasAdjustment].
  rewrite !coerce_valid by (done || reflexivity).
  vm_compute. reflexivity.
Qed.

Lemma ConfigContent_valid_input_witness :
  produces_documented_json example_config "relayer" "http://chain-a:26657"
    "chain-a:9090".
Proof. apply ConfigContent_valid_input. reflexivity. Defined.

(** C4 (as stated) fails: for a gas adjustment that is NaN the encoder
    reports an unsupported value and [ConfigContent] returns the error
    instead of a JSON text; for a key name that is not valid UTF-8 the
    text carries the replacement character in place of the key name. *)
Lemma ConfigContent_invalid_input :
  ¬ produces_documented_json example_config_NaN "relayer"
      "http://chain-a:26657" "chain-a:9090"
  ∧ ¬ produces_documented_json example_config example_key_invalid
        "http://chain-a:26657" "chain-a:9090".
Proof.
  split.
  - intros (doc & value & Hdoc & _). vm_compute in Hdoc. discriminate Hdoc.
  - intros (doc & value & Hdoc & Hvalue & _ & Hspec & _).
    vm_compute in Hdoc. injection Hdoc as <-.
    vm_compute in Hvalue. injection Hvalue as <-.
    vm_compute in Hspec. discriminate Hspec.
Qed.

Example ConfigContent_NaN :
  hermes.ConfigContent example_config_NaN "relayer" "http://chain-a:26657"
    "chain-a:9090"
  = inr json.UnsupportedValueError.
Proof. reflexivity. Qed.

Example ConfigContent_invalid_key :
  ∃ doc value,
    hermes.ConfigContent example_config example_key_invalid
      "http://chain-a:26657" "chain-a:9090" = inl doc
    ∧ json.member "value" doc = Some value
    ∧ json.member "key" value = Some (json.Str utf8.RuneError).
Proof. eexists _, _. repeat split; reflexivity. Qed.

(** ** Output parsers *)

Lemma Split_nonempty s sep : strings.Split s sep ≠ [].
Proof.
  induction s as [|c s IH]; simpl; [done|].
  destruct (Ascii.eqb c sep); [done|].
  by destruct (strings.Split s sep).
Qed.

(** Splitting distributes over a separator between two strings. *)
Lemma Split_app a b sep :
  strings.Split (a +:+ String sep b) sep
  = strings.Split a sep ++ strings.Split b sep.
Proof.
  induction a as [|c a IH]; simpl.
  - by rewrite Ascii.eqb_refl.
  - destruct (Ascii.eqb c sep); [by rewrite IH|].
    rewrite IH. pose proof (Split_nonempty a sep) as Hne.
    by destruct (strings.Split a sep).
Qed.

Section ParserFacts.
Context {T : Type}.
Variable TrimSpace : string → string.
Variable Unmarshal : string → T + error.

Lemma spec_records_of_lines_app l1 l2 :
  spec_records_of_lines TrimSpace Unmarshal (l1 ++ l2)
  = spec_records_of_lines TrimSpace Unmarshal l1
    ++ spec_records_of_lines TrimSpace Unmarshal l2.
Proof. unfold spec_records_of_lines. by rewrite filter_app, omap_app. Qed.

Lemma spec_records_of_lines_malformed line err :
  Unmarshal line = inr err →
  spec_records_of_lines TrimSpace Unmarshal [line] = [].
Proof.
  intros Herr. unfold spec_records_of_lines. rewrite filter_cons.
  case_decide; simpl; [by rewrite Herr|done].
Qed.

(** A malformed line between two outputs contributes nothing. *)
Lemma spec_decoded_records_malformed before bad after err :
  strings.Split bad strings.newline = [bad] →
  Unmarshal bad = inr err →
  spec_decoded_records TrimSpace Unmarshal
    (before +:+ String strings.newline
       (bad +:+ String strings.newline after))
  = spec_decoded_records TrimSpace Unmarshal before
    ++ spec_decoded_records TrimSpace Unmarshal after.
Proof.
  intros Hline Herr. unfold spec_decoded_records.
  rewrite !Split_app, Hline, !spec_records_of_lines_app.
  by rewrite (spec_records_of_lines_malformed bad err).
Qed.

End ParserFacts.

(** One step of a parser loop against the records of the lines. *)
Ltac parser_loop step IH :=
  unfold spec_records_of_lines; rewrite filter_cons; simpl; unfold step;
  match goal with
  | |- context [String.eqb ?t ""] =>
      destruct (String.eqb_spec t "") as [Hblank|Hblank]
  end;
  [ rewrite decide_False by (intros H; done); apply IH
  | rewrite decide_True by done; simpl;
    match goal with
    | |- context [match ?u with inl _ => _ | inr _ => _ end] =>
        destruct u as [record|err]
    end; simpl;
    [ rewrite IH; by rewrite <- app_assoc | apply IH ] ].

Lemma foldl_channels_step {ChannelOutput : Type} TrimSpace
    (Unmarshal : string → ChannelOutput + error) lines channels log :
  (foldl (hermes.channels_step TrimSpace Unmarshal) (channels, log) lines).1
  = channels ++ spec_records_of_lines TrimSpace Unmarshal lines.
Proof.
  revert channels log.
  induction lines as [|line lines IH]; intros channels log.
  - simpl. by rewrite app_nil_r.
  - parser_loop @hermes.channels_step IH.
Qed.

Lemma foldl_connections_step {ConnectionOutput : Type} TrimSpace
    (Unmarshal : string → ConnectionOutput + error) lines connections log :
  (foldl (hermes.connections_step TrimSpace Unmarshal)
     (connections, log) lines).1
  = connections ++ spec_records_of_lines TrimSpace Unmarshal lines.
Proof.
  revert connections log.
  induction lines as [|line lines IH]; intros connections log.
  - simpl. by rewrite app_nil_r.
  - parser_loop @hermes.connections_step IH.
Qed.

(** C2: [ParseGetChannelsOutput] and [ParseGetConnectionsOutput] split the
    output on newlines, skip blank lines, decode each remaining line and
    return exactly the decoded records in input order, with a nil error; a
    malformed line between two outputs neither stops the parsing of what
    follows nor shows in the result. *)
Theorem parsers_return_decoded_records :
  ∀ (TrimSpace : string → string) (ChannelOutput ConnectionOutput : Type)
    (Unmarshal_channel : string → ChannelOutput + error)
    (Unmarshal_connection : string → ConnectionOutput + error)
    (stdout stderr : string),
    (hermes.ParseGetChannelsOutput TrimSpace Unmarshal_channel
       stdout stderr).1
    = (spec_decoded_records TrimSpace Unmarshal_channel stdout, None)
    ∧ (hermes.ParseGetConnectionsOutput TrimSpace Unmarshal_connection
         stdout stderr).1
      = (spec_decoded_records TrimSpace Unmarshal_connection stdout, None)
    ∧ (∀ (before bad after : string) (err : error),
         strings.Split bad strings.newline = [bad] →
         Unmarshal_channel bad = inr err →
         (hermes.ParseGetChannelsOutput TrimSpace Unmarshal_channel
            (before +:+ String strings.newline
               (bad +:+ String strings.newline after)) stderr).1
         = ((hermes.ParseGetChannelsOutput TrimSpace Unmarshal_channel
               before stderr).1.1
            ++ (hermes.ParseGetChannelsOutput TrimSpace Unmarshal_channel
                  after stderr).1.1, None))
    ∧ (∀ (before bad after : string) (err : error),
         strings.Split bad strings.newline = [bad] →
         Unmarshal_connection bad = inr err →
         (hermes.ParseGetConnectionsOutput TrimSpace Unmarshal_connection
            (before +:+ String strings.newline
               (bad +:+ String strings.newline after)) stderr).1
         = ((hermes.ParseGetConnectionsOutput TrimSpace
               Unmarshal_connection before stderr).1.1
            ++ (hermes.ParseGetConnectionsOutput TrimSpace
                  Unmarshal_connection after stderr).1.1, None)).
Proof.
  intros TrimSpace ChannelOutput ConnectionOutput Uch Uco stdout stderr.
  assert (Hch : ∀ out,
    (hermes.ParseGetChannelsOutput TrimSpace Uch out stderr).1
    = (spec_decoded_records TrimSpace Uch out, None)).
  { intros out. unfold hermes.ParseGetChannelsOutput.
    pose proof (foldl_channels_step TrimSpace Uch
                  (strings.Split out strings.newline) [] []) as H.
    destruct (foldl _ _ _) as [channels log]. simpl in *. by rewrite H. }
  assert (Hco : ∀ out,
    (hermes.ParseGetConnectionsOutput TrimSpace Uco out stderr).1
    = (spec_decoded_records TrimSpace Uco out, None)).
  { intros out. unfold hermes.ParseGetConnectionsOutput.
    pose proof (foldl_connections_step TrimSpace Uco
                  (strings.Split out strings.newline) [] []) as H.
    destruct (foldl _ _ _) as [connections log]. simpl in *.
    by rewrite H. }
  split; [apply Hch|]. split; [apply Hco|]. split.
  - intros before bad after err Hline Herr. rewrite !Hch. simpl.
    by rewrite (spec_decoded_records_malformed _ _ _ _ _ err).
  - intros before bad after err Hline Herr. rewrite !Hco. simpl.
    by rewrite (spec_decoded_records_malformed _ _ _ _ _ err).
Qed.

Lemma parsers_return_decoded_records_witness :
  (hermes.ParseGetChannelsOutput example_TrimSpace example_Unmarshal
     ("{}" +:+ String strings.newline
        ("{oops" +:+ String strings.newline
           (" " +:+ String strings.newline "{}"))) "").1
  = ([tt; tt], None).
Proof.
  destruct (parsers_return_decoded_records example_TrimSpace unit unit
              example_Unmarshal example_Unmarshal "" "")
    as (_ & _ & Hmalformed & _).
  rewrite (Hmalformed "{}" "{oops" (" " +:+ String strings.newline "{}")
             (errorString "invalid character"));
    reflexivity.
Defined.

(** C9: for every output, [ParseRestoreKeyOutput] returns the empty string;
    it decodes the same lines as [ParseGetConnectionsOutput], as the equal
    logs show, and drops the records. *)
Theorem ParseRestoreKeyOutput_returns_empty :
  ∀ (TrimSpace : string → string) (ConnectionOutput : Type)
    (Unmarshal_connection : string → ConnectionOutput + error)
    (stdout stderr : string),
    (hermes.ParseRestoreKeyOutput TrimSpace Unmarshal_connection
       stdout stderr).1 = ""
    ∧ (hermes.ParseRestoreKeyOutput TrimSpace Unmarshal_connection
         stdout stderr).2
      = (hermes.ParseGetConnectionsOutput TrimSpace Unmarshal_connection
           stdout stderr).2.
Proof.
  intros. unfold hermes.ParseRestoreKeyOutput,
    hermes.ParseGetConnectionsOutput.
  by destruct (foldl _ _ _).
Qed.

Example ParseGetConnectionsOutput_example :
  hermes.ParseGetConnectionsOutput example_TrimSpace example_Unmarshal
    ("{}" +:+ String strings.newline "nope") ""
  = (([tt], None),
     [mkLogEntry "Error parsing connection json"
        [zap_Error (errorString "invalid character")]]).
Proof. reflexivity. Qed.

(** ** The Docker fixture *)

Section DockerFacts.
Import docker dockerutil.

Lemma dockerCleanup_unfold testName :
  dockerCleanup testName
  = ('(cont, _) ← ListContainers true;
     range cont (cleanup_container testName);;
     '(nets, _) ← ListNetworks;
     range nets (cleanup_network testName)).
Proof. reflexivity. Qed.

(** The loop over the labels runs its body when the labels carry the
    cleanup label of the test, whatever the order of the entries. *)
Lemma range_labels_elem entries testName body :
  range_labels entries testName body
  = if decide ((CleanupLabel, testName) ∈ entries) then body else mret tt.
Proof.
  induction entries as [|[k v] rest IH]; cbn [range_labels].
  - case_decide as H; [by apply elem_of_nil in H|done].
  - destruct (String.eqb_spec k CleanupLabel) as [->|Hk];
      [destruct (String.eqb_spec v testName) as [->|Hv]|]; cbn [andb].
    + rewrite decide_True; [done|]. apply elem_of_cons. by left.
    + rewrite IH. apply decide_ext. rewrite elem_of_cons.
      split; [by right|]. intros [?|?]; [congruence|done].
    + rewrite IH. apply decide_ext. rewrite elem_of_cons.
      split; [by right|]. intros [?|?]; [congruence|done].
Qed.

Lemma range_labels_map labels testName body :
  range_labels (map_to_list labels) testName body
  = if decide (labelled testName labels) then body else mret tt.
Proof.
  rewrite range_labels_elem. apply decide_ext.
  unfold labelled. apply elem_of_map_to_list.
Qed.

(** *** The calls of the client, one by one *)

Lemma enter_run c w : enter c w = (next_fault w, received w c).
Proof. unfold enter, next_fault, received. by destruct (faults w). Qed.

Lemma StopContainer_run id timeout w :
  StopContainer id timeout w
  = let w1 := received w (CallStopContainer id timeout) in
    match next_fault w with
    | Some err => (Some err, w1)
    | None =>
        match containers (engine w) !! id with
        | None => (Some NoSuchContainer, w1)
        | Some c =>
            (None,
             set_containers
               (<[id := mkContainer (Labels c) false]>
                  (containers (engine w))) w1)
        end
    end.
Proof.
  unfold StopContainer, mbind, M_bind. rewrite enter_run.
  destruct (next_fault w); [done|]. simpl.
  by destruct (containers (engine w) !! id).
Qed.

Lemma WaitContainerWithContext_run id ctxTimeout w :
  (WaitContainerWithContext id ctxTimeout w).2
  = received w (CallWaitContainerWithContext id ctxTimeout).
Proof.
  unfold WaitContainerWithContext, mbind, M_bind. rewrite enter_run.
  by destruct (next_fault w).
Qed.

Lemma RemoveContainer_force_run id w :
  RemoveContainer id true w
  = let w1 := received w (CallRemoveContainer id true) in
    match next_fault w with
    | Some err => (Some err, w1)
    | None =>
        match containers (engine w) !! id with
        | None => (Some NoSuchContainer, w1)
        | Some c =>
            (None, set_containers (delete id (containers (engine w))) w1)
        end
    end.
Proof.
  unfold RemoveContainer, mbind, M_bind. rewrite enter_run.
  destruct (next_fault w); [done|]. simpl.
  destruct (containers (engine w) !! id) as [c|]; [|done].
  by rewrite andb_false_r.
Qed.

Lemma RemoveNetwork_run id w :
  RemoveNetwork id w
  = let w1 := received w (CallRemoveNetwork id) in
    match next_fault w with
    | Some err => (Some err, w1)
    | None =>
        match networks (engine w) !! id with
        | None => (Some NoSuchNetwork, w1)
        | Some _ =>
            (None, set_networks (delete id (networks (engine w))) w1)
        end
    end.
Proof.
  unfold RemoveNetwork, mbind, M_bind. rewrite enter_run.
  destruct (next_fault w); [done|]. simpl.
  by destruct (networks (engine w) !! id).
Qed.

Lemma ListContainers_all_run w :
  ListContainers true w
  = ((match next_fault w with
      | Some err => ([], Some err)
      | None =>
          ((λ '(id, c), mkAPIContainers id (Labels c)) <$>
             map_to_list (containers (engine w)), None)
      end),
     received w (CallListContainers true)).
Proof.
  unfold ListContainers, mbind, M_bind. rewrite enter_run.
  destruct (next_fault w); [done|]. simpl. do 3 f_equal.
  induction (map_to_list (containers (engine w))) as [|[id c] l IH];
    [done|].
  rewrite filter_cons, decide_True by done. by rewrite IH.
Qed.

Lemma ListNetworks_run w :
  ListNetworks w
  = ((match next_fault w with
      | Some err => ([], Some err)
      | None =>
          ((λ '(id, labels), mkNetwork id labels) <$>
             map_to_list (networks (engine w)), None)
      end),
     received w CallListNetworks).
Proof.
  unfold ListNetworks, mbind, M_bind. rewrite enter_run.
  by destruct (next_fault w).
Qed.

Lemma bind_run {A B} (m : M A) (k : A → M B) w :
  (m ≫= k) w = k (m w).1 (m w).2.
Proof. unfold mbind, M_bind. by destruct (m w). Qed.

Lemma footprint_refl cids nids w : footprint cids nids [] w w.
Proof. unfold footprint. rewrite app_nil_r. by repeat split. Qed.

Lemma footprint_trans cids nids l1 l2 w w1 w2 :
  footprint cids nids l1 w w1 → footprint cids nids l2 w1 w2 →
  footprint cids nids (l1 ++ l2) w w2.
Proof.
  intros (Hc1 & Hf1 & Hk1 & Hn1 & Ha1 & Hb1)
         (Hc2 & Hf2 & Hk2 & Hn2 & Ha2 & Hb2).
  repeat split.
  - by rewrite Hc2, Hc1, app_assoc.
  - by rewrite Hf2, Hf1, drop_drop, length_app.
  - intros j Hj. by rewrite Hk2, Hk1.
  - intros j Hj. by rewrite Hn2, Hn1.
  - intros j Hj. by apply Ha2, Ha1.
  - intros j Hj. by apply Hb2, Hb1.
Qed.

Lemma footprint_mono (cids cids' nids nids' : string → Prop) l w w' :
  (∀ j, cids j → cids' j) → (∀ j, nids j → nids' j) →
  footprint cids nids l w w' → footprint cids' nids' l w w'.
Proof.
  intros Hc Hn (H1 & H2 & H3 & H4 & H5 & H6). repeat split; try done.
  - intros j Hj. apply H3. naive_solver.
  - intros j Hj. apply H4. naive_solver.
Qed.

Lemma drop_one_tail {A} (l : list A) : drop 1 l = tail l.
Proof. by destruct l. Qed.

Lemma footprint_received cids nids w c :
  footprint cids nids [c] w (received w c).
Proof. unfold footprint, received. simpl. rewrite drop_one_tail. by repeat split. Qed.

Lemma footprint_StopContainer id timeout w :
  footprint (λ j, j = id) (λ _, False) [CallStopContainer id timeout]
    w (StopContainer id timeout w).2.
Proof.
  rewrite StopContainer_run. cbn zeta.
  destruct (next_fault w); [apply footprint_received|].
  destruct (containers (engine w) !! id) as [c|] eqn:Hid;
    [|apply footprint_received].
  unfold footprint, set_containers, received; simpl.
  rewrite drop_one_tail. repeat split; try done.
  - intros j Hj. by rewrite lookup_insert_ne.
  - intros j Hj. rewrite lookup_insert_ne; [done|]. congruence.
Qed.

Lemma footprint_WaitContainerWithContext cids nids id ctxTimeout w :
  footprint cids nids [CallWaitContainerWithContext id ctxTimeout]
    w (WaitContainerWithContext id ctxTimeout w).2.
Proof. rewrite WaitContainerWithContext_run. apply footprint_received. Qed.

Lemma footprint_RemoveContainer id w :
  footprint (λ j, j = id) (λ _, False) [CallRemoveContainer id true]
    w (RemoveContainer id true w).2.
Proof.
  rewrite RemoveContainer_force_run. cbn zeta.
  destruct (next_fault w); [apply footprint_received|].
  destruct (containers (engine w) !! id) as [c|] eqn:Hid;
    [|apply footprint_received].
  unfold footprint, set_containers, received; simpl.
  rewrite drop_one_tail. repeat split; try done.
  - intros j Hj. by rewrite lookup_delete_ne.
  - intros j Hj. rewrite lookup_delete_ne; [done|]. congruence.
Qed.

Lemma footprint_RemoveNetwork id w :
  footprint (λ _, False) (λ j, j = id) [CallRemoveNetwork id]
    w (RemoveNetwork id w).2.
Proof.
  rewrite RemoveNetwork_run. cbn zeta.
  destruct (next_fault w); [apply footprint_received|].
  destruct (networks (engine w) !! id) as [c|] eqn:Hid;
    [|apply footprint_received].
  unfold footprint, set_networks, received; simpl.
  rewrite drop_one_tail. repeat split; try done.
  - intros j Hj. by rewrite lookup_delete_ne.
  - intros j Hj. rewrite lookup_delete_ne; [done|]. congruence.
Qed.

(** Under a fault-free world the next call succeeds, and the world stays
    fault-free along a footprint. *)
Lemma fault_free_next_fault w : fault_free w → next_fault w = None.
Proof.
  unfold fault_free, next_fault. destruct (faults w) as [|f fs]; [done|].
  intros H. by apply Forall_cons in H as [-> _].
Qed.

Lemma fault_free_footprint cids nids l w w' :
  footprint cids nids l w w' → fault_free w → fault_free w'.
Proof.
  intros (_ & Hf & _) H. unfold fault_free. rewrite Hf.
  by apply Forall_drop.
Qed.

Lemma RemoveContainer_fault_free id w :
  fault_free w →
  containers (engine (RemoveContainer id true w).2) !! id = None.
Proof.
  intros Hff. rewrite RemoveContainer_force_run. cbn zeta.
  rewrite (fault_free_next_fault _ Hff).
  destruct (containers (engine w) !! id) as [c|] eqn:Hid; simpl; [|done].
  apply lookup_delete_eq.
Qed.

Lemma RemoveNetwork_fault_free id w :
  fault_free w →
  networks (engine (RemoveNetwork id w).2) !! id = None.
Proof.
  intros Hff. rewrite RemoveNetwork_run. cbn zeta.
  rewrite (fault_free_next_fault _ Hff).
  destruct (networks (engine w) !! id) as [c|] eqn:Hid; simpl; [|done].
  apply lookup_delete_eq.
Qed.

(** *** The loop bodies *)

Lemma cleanup_container_run testName id c w :
  let w' :=
    (cleanup_container testName (mkAPIContainers id (Labels c)) w).2 in
  footprint (λ j, j = id ∧ labelled testName (Labels c)) (λ _, False)
    (spec_container_calls testName (id, c)) w w'
  ∧ (fault_free w → labelled testName (Labels c) →
     containers (engine w') !! id = None).
Proof.
  unfold cleanup_container, spec_container_calls.
  rewrite range_labels_map.
  cbn [APIContainers_Labels APIContainers_ID fst snd].
  case_decide as Hl.
  2:{ split; [apply footprint_refl|done]. }
  rewrite !bind_run. cbn [mret M_ret snd].
  set (w1 := (StopContainer id 10 w).2).
  set (w2 := (WaitContainerWithContext id (time.Second * 5)%Z w1).2).
  assert (H1 : footprint (λ j, j = id) (λ _, False)
                 [CallStopContainer id 10] w w1)
    by apply footprint_StopContainer.
  assert (H2 : footprint (λ j, j = id) (λ _, False)
                 [CallWaitContainerWithContext id 5000000000%Z] w1 w2)
    by apply footprint_WaitContainerWithContext.
  split.
  - eapply footprint_mono; [| |
      apply (footprint_trans _ _ [_] [_; _] _ _ _ H1),
            (footprint_trans _ _ [_] [_] _ _ _ H2),
            footprint_RemoveContainer]; naive_solver.
  - intros Hff _. apply RemoveContainer_fault_free.
    eapply fault_free_footprint; [apply H2|].
    eapply fault_free_footprint; [apply H1|done].
Qed.

Lemma cleanup_network_run testName id labels w :
  let w' := (cleanup_network testName (mkNetwork id labels) w).2 in
  footprint (λ _, False) (λ j, j = id ∧ labelled testName labels)
    (spec_network_calls testName (id, labels)) w w'
  ∧ (fault_free w → labelled testName labels →
     networks (engine w') !! id = None).
Proof.
  unfold cleanup_network, spec_network_calls.
  rewrite range_labels_map.
  cbn [Network_Labels Network_ID fst snd].
  case_decide as Hl.
  2:{ split; [apply footprint_refl|done]. }
  rewrite !bind_run. cbn [mret M_ret snd].
  split.
  - eapply footprint_mono; [| |apply footprint_RemoveNetwork];
      naive_solver.
  - intros Hff _. by apply RemoveNetwork_fault_free.
Qed.

(** *** The two loops *)

Lemma range_cons_run {A} (x : A) xs (body : A → M unit) w :
  (range (x :: xs) body w).2 = (range xs body (body x w).2).2.
Proof. cbn [range]. by rewrite bind_run. Qed.

Lemma range_containers_run testName entries w :
  let w' :=
    (range ((λ '(id, c), mkAPIContainers id (Labels c)) <$> entries)
       (cleanup_container testName) w).2 in
  footprint
    (λ j, ∃ c, (j, c) ∈ entries ∧ labelled testName (Labels c))
    (λ _, False)
    (flat_map (spec_container_calls testName) entries) w w'
  ∧ (fault_free w → ∀ j c, (j, c) ∈ entries →
     labelled testName (Labels c) →
     containers (engine w') !! j = None).
Proof.
  revert w. induction entries as [|[i c] rest IH]; intros w.
  - split; [apply footprint_refl|]. intros _ j c H. by apply elem_of_nil in H.
  - cbn zeta. rewrite fmap_cons, range_cons_run.
    destruct (cleanup_container_run testName i c w) as [Hfoot Hdel].
    set (w1 := (cleanup_container testName
                  (mkAPIContainers i (Labels c)) w).2) in *.
    destruct (IH w1) as [Hfoot' Hdel']. split.
    + cbn [flat_map].
      eapply footprint_trans; (eapply footprint_mono; [| |eassumption]);
        try done.
      * intros j [-> Hl]. exists c. split; [apply elem_of_cons; by left|done].
      * intros j (c' & Hin & Hl). exists c'.
        split; [apply elem_of_cons; by right|done].
    + intros Hff j c' Hin Hl. apply elem_of_cons in Hin as [Heq|Hin].
      * injection Heq as -> ->.
        destruct Hfoot' as (_ & _ & _ & _ & Habsent & _).
        apply Habsent. by apply Hdel.
      * eapply Hdel'; [|done..].
        by eapply fault_free_footprint.
Qed.

Lemma range_networks_run testName entries w :
  let w' :=
    (range ((λ '(id, labels), mkNetwork id labels) <$> entries)
       (cleanup_network testName) w).2 in
  footprint (λ _, False)
    (λ j, ∃ labels, (j, labels) ∈ entries ∧ labelled testName labels)
    (flat_map (spec_network_calls testName) entries) w w'
  ∧ (fault_free w → ∀ j labels, (j, labels) ∈ entries →
     labelled testName labels →
     networks (engine w') !! j = None).
Proof.
  revert w. induction entries as [|[i c] rest IH]; intros w.
  - split; [apply footprint_refl|]. intros _ j c H. by apply elem_of_nil in H.
  - cbn zeta. rewrite fmap_cons, range_cons_run.
    destruct (cleanup_network_run testName i c w) as [Hfoot Hdel].
    set (w1 := (cleanup_network testName (mkNetwork i c) w).2) in *.
    destruct (IH w1) as [Hfoot' Hdel']. split.
    + cbn [flat_map].
      eapply footprint_trans; (eapply footprint_mono; [| |eassumption]);
        try done.
      * intros j [-> Hl]. exists c. split; [apply elem_of_cons; by left|done].
      * intros j (c' & Hin & Hl). exists c'.
        split; [apply elem_of_cons; by right|done].
    + intros Hff j c' Hin Hl. apply elem_of_cons in Hin as [Heq|Hin].
      * injection Heq as -> ->.
        destruct Hfoot' as (_ & _ & _ & _ & _ & Habsent).
        apply Habsent. by apply Hdel.
      * eapply Hdel'; [|done..].
        by eapply fault_free_footprint.
Qed.

(** *** The whole teardown *)

Lemma next_fault_fails w n fs :
  faults w = drop n fs →
  next_fault w = None ↔ fails fs n = false.
Proof.
  intros Hf. unfold next_fault, fails. rewrite Hf.
  rewrite <- (Nat.add_0_r n) at 2. rewrite <- lookup_drop.
  destruct (drop n fs) as [|[err|] rest]; simpl; split; done.
Qed.

Lemma footprint_networks_eq cids l w w' :
  footprint cids (λ _, False) l w w' →
  networks (engine w') = networks (engine w).
Proof.
  intros (_ & _ & _ & H & _). apply map_eq. intros j. apply H. by intros [].
Qed.

Lemma footprint_containers_eq nids l w w' :
  footprint (λ _, False) nids l w w' →
  containers (engine w') = containers (engine w).
Proof.
  intros (_ & _ & H & _). apply map_eq. intros j. apply H. by intros [].
Qed.

Lemma dockerCleanup_run testName w :
  let w' := (dockerCleanup testName w).2 in
  let cont :=
    if fails (faults w) 0 then [] else map_to_list (containers (engine w)) in
  let ccalls := flat_map (spec_container_calls testName) cont in
  let nets :=
    if fails (faults w) (S (length ccalls)) then []
    else map_to_list (networks (engine w)) in
  let ncalls := flat_map (spec_network_calls testName) nets in
  footprint
    (λ j, ∃ c, (j, c) ∈ cont ∧ labelled testName (Labels c))
    (λ j, ∃ labels, (j, labels) ∈ nets ∧ labelled testName labels)
    (CallListContainers true :: ccalls ++ CallListNetworks :: ncalls) w w'
  ∧ (fault_free w →
     (∀ j c, containers (engine w) !! j = Some c →
        labelled testName (Labels c) →
        containers (engine w') !! j = None)
     ∧ (∀ j labels, networks (engine w) !! j = Some labels →
          labelled testName labels →
          networks (engine w') !! j = None)).
Proof.
  cbn zeta. rewrite dockerCleanup_unfold.
  rewrite bind_run, ListContainers_all_run. cbn [fst snd].
  set (w1 := received w (CallListContainers true)).
  assert (H1 : footprint (λ _, False) (λ _, False)
                 [CallListContainers true] w w1)
    by apply footprint_received.
  set (cont := if fails (faults w) 0 then []
               else map_to_list (containers (engine w))).
  assert (Hcont :
    (match next_fault w with
     | Some err => ([], Some err)
     | None => ((λ '(id, c), mkAPIContainers id (Labels c)) <$>
                  map_to_list (containers (engine w)), None)
     end).1 = (λ '(id, c), mkAPIContainers id (Labels c)) <$> cont).
  { unfold cont. pose proof (next_fault_fails w 0 (faults w) eq_refl) as Hnf.
    destruct (next_fault w), (fails (faults w) 0); try done.
    - destruct Hnf as [_ Hnf]. by specialize (Hnf eq_refl).
    - destruct Hnf as [Hnf _]. by specialize (Hnf eq_refl). }
  destruct (match next_fault w with
            | Some err => ([], Some err)
            | None => _ end) as [cont' err']. cbn [fst] in Hcont. subst cont'.
  rewrite bind_run.
  destruct (range_containers_run testName cont w1) as [H2 Hdel2].
  set (w2 := (range _ (cleanup_container testName) w1).2) in *.
  set (ccalls := flat_map (spec_container_calls testName) cont) in *.
  rewrite bind_run, ListNetworks_run. cbn [fst snd].
  set (w3 := received w2 CallListNetworks).
  assert (H3 : footprint (λ _, False) (λ _, False) [CallListNetworks] w2 w3)
    by apply footprint_received.
  assert (He1 : engine w1 = engine w) by done.
  assert (Hn2 : networks (engine w2) = networks (engine w)).
  { rewrite (footprint_networks_eq _ _ _ _ H2). by rewrite He1. }
  set (nets := if fails (faults w) (S (length ccalls)) then []
               else map_to_list (networks (engine w))).
  assert (Hnets :
    (match next_fault w2 with
     | Some err => ([], Some err)
     | None => ((λ '(id, labels), mkNetwork id labels) <$>
                  map_to_list (networks (engine w2)), None)
     end).1 = (λ '(id, labels), mkNetwork id labels) <$> nets).
  { unfold nets.
    assert (Hf2 : faults w2 = drop (S (length ccalls)) (faults w)).
    { destruct H2 as (_ & -> & _). unfold w1, received. cbn [faults].
      by rewrite <- drop_one_tail, drop_drop. }
    pose proof (next_fault_fails w2 _ _ Hf2) as Hnf. rewrite Hn2.
    destruct (next_fault w2), (fails (faults w) (S (length ccalls)));
      try done.
    - destruct Hnf as [_ Hnf]. by specialize (Hnf eq_refl).
    - destruct Hnf as [Hnf _]. by specialize (Hnf eq_refl). }
  destruct (match next_fault w2 with
            | Some err => ([], Some err)
            | None => _ end) as [nets' err'']. cbn [fst] in Hnets. subst nets'.
  destruct (range_networks_run testName nets w3) as [H4 Hdel4].
  set (w4 := (range _ (cleanup_network testName) w3).2) in *.
  split.
  - change (CallListContainers true :: ccalls ++ CallListNetworks
              :: flat_map (spec_network_calls testName) nets)
      with ([CallListContainers true] ++ ccalls ++ [CallListNetworks]
              ++ flat_map (spec_network_calls testName) nets).
    eapply footprint_trans;
      [eapply footprint_mono; [| |apply H1]; by intros j []|].
    eapply footprint_trans;
      [eapply footprint_mono; [| |apply H2]; [done|by intros j []]|].
    eapply footprint_trans;
      [eapply footprint_mono; [| |apply H3]; by intros j []|].
    eapply footprint_mono; [| |apply H4]; [by intros j []|done].
  - intros Hff.
    assert (Hff1 : fault_free w1) by (by eapply fault_free_footprint).
    assert (Hff2 : fault_free w2) by (by eapply fault_free_footprint).
    assert (Hff3 : fault_free w3) by (by eapply fault_free_footprint).
    assert (Hcont : cont = map_to_list (containers (engine w))).
    { unfold cont. pose proof (next_fault_fails w 0 (faults w) eq_refl) as [Hnf _].
      by rewrite Hnf by by apply fault_free_next_fault. }
    assert (Hnets : nets = map_to_list (networks (engine w))).
    { unfold nets.
      assert (Hf2 : faults w2 = drop (S (length ccalls)) (faults w)).
      { destruct H2 as (_ & -> & _). unfold w1, received. cbn [faults].
        by rewrite <- drop_one_tail, drop_drop. }
      pose proof (next_fault_fails w2 _ _ Hf2) as [Hnf _].
      by rewrite Hnf by by apply fault_free_next_fault. }
    split.
    + intros j c Hj Hl.
      rewrite (footprint_containers_eq _ _ _ _ H4).
      change (engine w3) with (engine w2).
      apply (Hdel2 Hff1 j c); [|done].
      rewrite Hcont. by apply elem_of_map_to_list.
    + intros j labels Hj Hl.
      apply (Hdel4 Hff3 j labels); [|done].
      rewrite Hnets. by apply elem_of_map_to_list.
Qed.

End DockerFacts.

Section TeardownFacts.
Import docker dockerutil.

(** *** The calls of the trace *)

Lemma elem_of_three {A} (x a b c : A) :
  x ∈ [a; b; c] ↔ x = a ∨ x = b ∨ x = c.
Proof. rewrite !elem_of_cons, elem_of_nil. tauto. Qed.

Lemma elem_of_container_calls testName entries call :
  call ∈ flat_map (spec_container_calls testName) entries
  ↔ ∃ id c, (id, c) ∈ entries ∧ labelled testName (Labels c)
      ∧ call ∈ [CallStopContainer id 10;
                CallWaitContainerWithContext id 5000000000%Z;
                CallRemoveContainer id true].
Proof.
  rewrite list_elem_of_In, in_flat_map. split.
  - intros ([id c] & Hin & Hcall). exists id, c.
    apply list_elem_of_In in Hin. apply list_elem_of_In in Hcall.
    unfold spec_container_calls in Hcall. cbn [fst snd] in Hcall.
    case_decide; [done|]. by apply elem_of_nil in Hcall.
  - intros (id & c & Hin & Hl & Hcall). exists (id, c).
    split; [by apply list_elem_of_In|]. apply list_elem_of_In.
    unfold spec_container_calls. cbn [fst snd]. by rewrite decide_True.
Qed.

Lemma elem_of_network_calls testName entries call :
  call ∈ flat_map (spec_network_calls testName) entries
  ↔ ∃ id labels, (id, labels) ∈ entries ∧ labelled testName labels
      ∧ call = CallRemoveNetwork id.
Proof.
  rewrite list_elem_of_In, in_flat_map. split.
  - intros ([id c] & Hin & Hcall). exists id, c.
    apply list_elem_of_In in Hin. apply list_elem_of_In in Hcall.
    unfold spec_network_calls in Hcall. cbn [fst snd] in Hcall.
    case_decide; [|by apply elem_of_nil in Hcall].
    by apply list_elem_of_singleton in Hcall.
  - intros (id & c & Hin & Hl & ->). exists (id, c).
    split; [by apply list_elem_of_In|]. apply list_elem_of_In.
    unfold spec_network_calls. cbn [fst snd]. rewrite decide_True by done.
    by apply list_elem_of_singleton.
Qed.

Lemma container_calls_unlabelled testName entries :
  (∀ id c, (id, c) ∈ entries → ¬ labelled testName (Labels c)) →
  flat_map (spec_container_calls testName) entries = [].
Proof.
  intros H. induction entries as [|[id c] rest IH]; [done|].
  cbn [flat_map]. unfold spec_container_calls at 1. cbn [fst snd].
  rewrite decide_False by (apply (H id); apply elem_of_cons; by left).
  apply IH. intros id' c' Hin. apply (H id'). apply elem_of_cons. by right.
Qed.

Lemma network_calls_unlabelled testName entries :
  (∀ id labels, (id, labels) ∈ entries → ¬ labelled testName labels) →
  flat_map (spec_network_calls testName) entries = [].
Proof.
  intros H. induction entries as [|[id c] rest IH]; [done|].
  cbn [flat_map]. unfold spec_network_calls at 1. cbn [fst snd].
  rewrite decide_False by (apply (H id); apply elem_of_cons; by left).
  apply IH. intros id' c' Hin. apply (H id'). apply elem_of_cons. by right.
Qed.

(** No call is made twice when the IDs of the entries differ. *)
Lemma NoDup_container_calls testName entries :
  NoDup entries.*1 →
  NoDup (flat_map (spec_container_calls testName) entries).
Proof.
  induction entries as [|[id c] rest IH]; [constructor|].
  rewrite fmap_cons. cbn [fst]. intros [Hid Hrest]%NoDup_cons.
  cbn [flat_map]. apply NoDup_app. split; [|split; [|by apply IH]].
  - unfold spec_container_calls. cbn [fst snd].
    case_decide; [|constructor].
    apply NoDup_cons. split.
    { rewrite !elem_of_cons, elem_of_nil. by intros [?|[?|[]]]. }
    apply NoDup_cons. split.
    { rewrite !elem_of_cons, elem_of_nil. by intros [?|[]]. }
    apply NoDup_singleton.
  - intros call Hcall Hcall'.
    apply elem_of_container_calls in Hcall' as (id' & c' & Hin & _ & Hc').
    unfold spec_container_calls in Hcall. cbn [fst snd] in Hcall.
    case_decide; [|by apply elem_of_nil in Hcall].
    assert (id' = id) as ->.
    { apply elem_of_three in Hcall. apply elem_of_three in Hc'.
      destruct Hcall as [?|[?|?]]; destruct Hc' as [?|[?|?]]; congruence. }
    apply Hid. apply list_elem_of_fmap. by exists (id, c').
Qed.

Lemma NoDup_network_calls testName entries :
  NoDup entries.*1 →
  NoDup (flat_map (spec_network_calls testName) entries).
Proof.
  induction entries as [|[id c] rest IH]; [constructor|].
  rewrite fmap_cons. cbn [fst]. intros [Hid Hrest]%NoDup_cons.
  cbn [flat_map]. apply NoDup_app. split; [|split; [|by apply IH]].
  - unfold spec_network_calls. cbn [fst snd].
    case_decide; [|constructor]. apply NoDup_singleton.
  - intros call Hcall Hcall'.
    apply elem_of_network_calls in Hcall' as (id' & c' & Hin & _ & ->).
    unfold spec_network_calls in Hcall. cbn [fst snd] in Hcall.
    case_decide; [|by apply elem_of_nil in Hcall].
    apply list_elem_of_singleton in Hcall. injection Hcall as ->.
    apply Hid. apply list_elem_of_fmap. by exists (id, c').
Qed.

Lemma NoDup_spec_teardown_calls testName e fs :
  NoDup (spec_teardown_calls testName e fs).
Proof.
  unfold spec_teardown_calls. cbn zeta.
  set (cont := if fails fs 0 then [] else map_to_list (containers e)).
  set (nets := if fails fs _ then [] else map_to_list (networks e)).
  assert (Hc : NoDup cont.*1).
  { unfold cont. case (fails fs 0); [constructor|].
    apply NoDup_fst_map_to_list. }
  assert (Hn : NoDup nets.*1).
  { unfold nets. case (fails fs _); [constructor|].
    apply NoDup_fst_map_to_list. }
  apply NoDup_cons. split.
  - intros [H|H]%elem_of_app.
    + apply elem_of_container_calls in H as (? & ? & _ & _ & H).
      apply elem_of_three in H. by destruct H as [?|[?|?]].
    + apply elem_of_cons in H as [?|H]; [done|].
      by apply elem_of_network_calls in H as (? & ? & _ & _ & ?).
  - apply NoDup_app. split; [by apply NoDup_container_calls|]. split.
    + intros call H [->|H']%elem_of_cons.
      * apply elem_of_container_calls in H as (? & ? & _ & _ & H).
        apply elem_of_three in H. by destruct H as [?|[?|?]].
      * apply elem_of_container_calls in H as (? & ? & _ & _ & H).
        apply elem_of_network_calls in H' as (? & ? & _ & _ & ->).
        apply elem_of_three in H. by destruct H as [?|[?|?]].
    + apply NoDup_cons. split; [|by apply NoDup_network_calls].
      by intros (? & ? & _ & _ & ?)%elem_of_network_calls.
Qed.

(** The trace of a teardown is the one the spec describes. *)
Lemma dockerCleanup_calls testName e fs :
  calls (dockerCleanup testName (mkWorld e fs [])).2
  = spec_teardown_calls testName e fs.
Proof.
  destruct (dockerCleanup_run testName (mkWorld e fs []))
    as [(Hcalls & _) _].
  by rewrite Hcalls.
Qed.

(** A teardown of an engine without labelled resources only lists. *)
Lemma dockerCleanup_nothing_to_do testName e fs :
  (∀ id c, containers e !! id = Some c → ¬ labelled testName (Labels c)) →
  (∀ id labels, networks e !! id = Some labels →
                ¬ labelled testName labels) →
  let w' := (dockerCleanup testName (mkWorld e fs [])).2 in
  calls w' = [CallListContainers true; CallListNetworks] ∧ engine w' = e.
Proof.
  intros Hc Hn.
  destruct (dockerCleanup_run testName (mkWorld e fs []))
    as [(Hcalls & _ & Hk & Hnet & _) _].
  cbn zeta in *. cbn [faults engine calls] in *.
  set (cont := if fails fs 0 then [] else map_to_list (containers e)) in *.
  assert (Hcont : ∀ id c, (id, c) ∈ cont → ¬ labelled testName (Labels c)).
  { intros id c Hin. apply (Hc id). unfold cont in Hin.
    revert Hin. case (fails fs 0); intros Hin;
      [by apply elem_of_nil in Hin|].
    by apply elem_of_map_to_list. }
  rewrite (container_calls_unlabelled _ _ Hcont) in *.
  cbn [length] in *.
  set (nets := if fails fs 1 then [] else map_to_list (networks e)) in *.
  assert (Hnets : ∀ id l, (id, l) ∈ nets → ¬ labelled testName l).
  { intros id l Hin. apply (Hn id). unfold nets in Hin.
    revert Hin. case (fails fs 1); intros Hin;
      [by apply elem_of_nil in Hin|].
    by apply elem_of_map_to_list. }
  rewrite (network_calls_unlabelled _ _ Hnets) in *.
  split; [by rewrite Hcalls|].
  destruct (engine _) as [cm nm]. destruct e as [cm0 nm0].
  cbn [containers networks] in *. f_equal; apply map_eq; intros j.
  - apply Hk. intros (c & Hin & Hl). by apply (Hcont j c).
  - apply Hnet. intros (l & Hin & Hl). by apply (Hnets j l).
Qed.

End TeardownFacts.

Section TeardownTheorems.
Import docker dockerutil.

(** What a teardown leaves alone, under any faults. *)
Lemma dockerCleanup_frame testName e fs :
  let w' := (dockerCleanup testName (mkWorld e fs [])).2 in
  (∀ id c, containers e !! id = Some c →
           ¬ labelled testName (Labels c) →
           containers (engine w') !! id = Some c)
  ∧ (∀ id labels, networks e !! id = Some labels →
                  ¬ labelled testName labels →
                  networks (engine w') !! id = Some labels)
  ∧ (∀ id, containers e !! id = None → containers (engine w') !! id = None)
  ∧ (∀ id, networks e !! id = None → networks (engine w') !! id = None).
Proof.
  destruct (dockerCleanup_run testName (mkWorld e fs []))
    as [(_ & _ & Hk & Hnet & Hka & Hna) _].
  cbn zeta in *. cbn [faults engine calls] in *.
  repeat split; [| |done..].
  - intros id c Hid Hl. rewrite Hk; [done|].
    intros (c' & Hin & Hl'). revert Hin. case (fails fs 0); intros Hin;
      [by apply elem_of_nil in Hin|].
    apply elem_of_map_to_list in Hin. congruence.
  - intros id l Hid Hl. rewrite Hnet; [done|].
    intros (l' & Hin & Hl'). revert Hin. case (fails fs _); intros Hin;
      [by apply elem_of_nil in Hin|].
    apply elem_of_map_to_list in Hin. congruence.
Qed.

(** Every stop, wait and removal of a teardown is addressed to a labelled
    resource of the engine. *)
Lemma dockerCleanup_targets testName e fs call :
  call ∈ calls (dockerCleanup testName (mkWorld e fs [])).2 →
  match call with
  | CallStopContainer id _
  | CallWaitContainerWithContext id _
  | CallRemoveContainer id _ =>
      ∃ c, containers e !! id = Some c ∧ labelled testName (Labels c)
  | CallRemoveNetwork id =>
      ∃ labels, networks e !! id = Some labels ∧ labelled testName labels
  | CallListContainers _ | CallListNetworks => True
  end.
Proof.
  rewrite dockerCleanup_calls. unfold spec_teardown_calls. cbn zeta.
  intros [->|[H|[->|H]%elem_of_cons]%elem_of_app]%elem_of_cons; try done.
  - apply elem_of_container_calls in H as (id & c & Hin & Hl & H).
    revert Hin. case (fails fs 0); intros Hin;
      [by apply elem_of_nil in Hin|].
    apply elem_of_map_to_list in Hin. apply elem_of_three in H.
    destruct H as [->|[->| ->]]; by exists c.
  - apply elem_of_network_calls in H as (id & l & Hin & Hl & ->).
    revert Hin. case (fails fs _); intros Hin;
      [by apply elem_of_nil in Hin|].
    apply elem_of_map_to_list in Hin. by exists l.
Qed.

(** C5 (as amended): when no call of the first teardown fails, the first
    teardown leaves no container and no network that carries the cleanup
    label of the test, and a second teardown, whatever its calls do, only
    lists the containers and the networks and leaves the engine as the
    first one left it. *)
Theorem cleanup_twice_after_successful_run :
  ∀ (testName : string) (e : Engine) (fs1 fs2 : list (option error)),
    Forall (λ f, f = None) fs1 →
    second_run_finds_nothing testName e fs1 fs2.
Proof.
  intros testName e fs1 fs2 Hff. unfold second_run_finds_nothing.
  cbn zeta.
  destruct (dockerCleanup_run testName (mkWorld e fs1 [])) as [_ Hdel].
  destruct (Hdel Hff) as [Hdc Hdn]. clear Hdel.
  destruct (dockerCleanup_frame testName e fs1) as (Hfc & Hfn & Hac & Han).
  cbn zeta in *. cbn [engine] in *.
  set (w1 := (dockerCleanup testName (mkWorld e fs1 [])).2) in *.
  assert (Hc : ∀ id c, containers (engine w1) !! id = Some c →
                       ¬ labelled testName (Labels c)).
  { intros id c Hid Hl.
    destruct (containers e !! id) as [c0|] eqn:He.
    - destruct (decide (labelled testName (Labels c0))) as [Hl0|Hl0].
      + rewrite (Hdc id c0 He Hl0) in Hid. done.
      + rewrite (Hfc id c0 He Hl0) in Hid. congruence.
    - rewrite (Hac id He) in Hid. done. }
  assert (Hn : ∀ id l, networks (engine w1) !! id = Some l →
                       ¬ labelled testName l).
  { intros id l Hid Hl.
    destruct (networks e !! id) as [l0|] eqn:He.
    - destruct (decide (labelled testName l0)) as [Hl0|Hl0].
      + rewrite (Hdn id l0 He Hl0) in Hid. done.
      + rewrite (Hfn id l0 He Hl0) in Hid. congruence.
    - rewrite (Han id He) in Hid. done. }
  split; [done|]. split; [done|].
  by apply dockerCleanup_nothing_to_do.
Qed.

Lemma cleanup_twice_after_successful_run_witness :
  second_run_finds_nothing "TestA" example_engine [None; None] example_faults.
Proof.
  apply cleanup_twice_after_successful_run.
  repeat constructor.
Defined.

(** C5 (as stated) fails: when the removal of the container [c3] fails in
    the first teardown, the container stays, and the second teardown finds
    it and removes it. *)
Lemma cleanup_twice_after_failed_removal :
  ¬ second_run_finds_nothing "TestA" example_engine example_faults [].
Proof.
  intros (_ & _ & Hcalls & _). vm_compute in Hcalls. discriminate Hcalls.
Qed.

Example cleanup_twice_after_failed_removal_calls :
  let w1 :=
    (dockerCleanup "TestA" (mkWorld example_engine example_faults [])).2 in
  calls w1
  = [CallListContainers true;
     CallStopContainer "c3" 10;
     CallWaitContainerWithContext "c3" 5000000000%Z;
     CallRemoveContainer "c3" true;
     CallStopContainer "c1" 10;
     CallWaitContainerWithContext "c1" 5000000000%Z;
     CallRemoveContainer "c1" true;
     CallListNetworks;
     CallRemoveNetwork "n1"]
  ∧ containers (engine w1) !! "c3"
    = Some (mkContainer {[ "ibctest" := "TestA"; "role" := "relayer" ]}
              false)
  ∧ calls (dockerCleanup "TestA" (mkWorld (engine w1) [] [])).2
    = [CallListContainers true;
       CallStopContainer "c3" 10;
       CallWaitContainerWithContext "c3" 5000000000%Z;
       CallRemoveContainer "c3" true;
       CallListNetworks].
Proof. vm_compute. repeat split; reflexivity. Qed.

(** C6: the trace of the teardown is the listing of the containers, then
    for each labelled container of the listing a stop with a grace period
    of ten seconds, a wait under a context of five seconds and a removal by
    force, in this order, then the listing of the networks and one removal
    for each labelled network; every labelled container of a listed engine
    has its three calls next to each other, and what follows the listing of
    the networks are removals of networks only. *)
Theorem teardown_calls_in_order :
  ∀ (testName : string) (e : Engine) (fs : list (option error)),
    let trace := calls (dockerCleanup testName (mkWorld e fs [])).2 in
    trace = spec_teardown_calls testName e fs
    ∧ (fails fs 0 = false →
       ∀ id c, containers e !! id = Some c →
         labelled testName (Labels c) →
         ∃ before after,
           trace = before
                   ++ [CallStopContainer id 10;
                       CallWaitContainerWithContext id (time.Second * 5)%Z;
                       CallRemoveContainer id true]
                   ++ after)
    ∧ (∃ before removals,
         trace = before ++ CallListNetworks :: removals
         ∧ Forall (λ call, ∃ id labels,
                     networks e !! id = Some labels
                     ∧ labelled testName labels
                     ∧ call = CallRemoveNetwork id) removals
         ∧ (fails fs (length before) = false →
            ∀ id labels, networks e !! id = Some labels →
              labelled testName labels →
              CallRemoveNetwork id ∈ removals)).
Proof.
  intros testName e fs trace. subst trace. rewrite dockerCleanup_calls.
  split; [done|]. unfold spec_teardown_calls. cbn zeta. split.
  - intros -> id c Hid Hl.
    apply elem_of_map_to_list, list_elem_of_split in Hid as (l1 & l2 & ->).
    exists (CallListContainers true
              :: flat_map (spec_container_calls testName) l1).
    eexists. rewrite flat_map_app. cbn [flat_map].
    unfold spec_container_calls at 2. cbn [fst snd].
    rewrite decide_True by done.
    rewrite <- !app_assoc, <- app_comm_cons. reflexivity.
  - set (cont := if fails fs 0 then [] else map_to_list (containers e)).
    exists (CallListContainers true
              :: flat_map (spec_container_calls testName) cont).
    eexists. split; [by rewrite app_comm_cons|]. split.
    + apply Forall_forall. intros call
        (id & l & Hin & Hl & ->)%elem_of_network_calls.
      exists id, l. split; [|done].
      revert Hin. case (fails fs _); intros Hin;
        [by apply elem_of_nil in Hin|].
      by apply elem_of_map_to_list.
    + cbn [length]. intros -> id l Hid Hl.
      apply elem_of_network_calls. exists id, l.
      split; [by apply elem_of_map_to_list|done].
Qed.

Lemma teardown_calls_in_order_witness :
  ∃ before after,
    calls (dockerCleanup "TestA" (mkWorld example_engine example_faults [])).2
    = before
      ++ [CallStopContainer "c1" 10;
          CallWaitContainerWithContext "c1" (time.Second * 5)%Z;
          CallRemoveContainer "c1" true]
      ++ after.
Proof.
  destruct (teardown_calls_in_order "TestA" example_engine example_faults)
    as (_ & H & _).
  apply (H eq_refl "c1" (mkContainer {[ "ibctest" := "TestA" ]} true));
    reflexivity.
Defined.

(** C7: whatever its calls do, the teardown for a test leaves every
    container and every network that does not carry the cleanup label with
    the name of the test as it was, and addresses its stops, waits and
    removals to resources that carry it. *)
Theorem teardown_leaves_unlabelled_alone :
  ∀ (testName : string) (e : Engine) (fs : list (option error)),
    let w' := (dockerCleanup testName (mkWorld e fs [])).2 in
    (∀ id c, containers e !! id = Some c →
             ¬ labelled testName (Labels c) →
             containers (engine w') !! id = Some c)
    ∧ (∀ id labels, networks e !! id = Some labels →
                    ¬ labelled testName labels →
                    networks (engine w') !! id = Some labels)
    ∧ (∀ call, call ∈ calls w' →
         match call with
         | CallStopContainer id _
         | CallWaitContainerWithContext id _
         | CallRemoveContainer id _ =>
             ∃ c, containers e !! id = Some c
                  ∧ labelled testName (Labels c)
         | CallRemoveNetwork id =>
             ∃ labels, networks e !! id = Some labels
                       ∧ labelled testName labels
         | CallListContainers _ | CallListNetworks => True
         end).
Proof.
  intros testName e fs w'.
  destruct (dockerCleanup_frame testName e fs) as (Hc & Hn & _).
  split; [done|]. split; [done|].
  intros call. apply dockerCleanup_targets.
Qed.

Lemma teardown_leaves_unlabelled_alone_witness :
  containers
    (engine (dockerCleanup "TestA"
               (mkWorld example_engine example_faults [])).2) !! "c2"
  = Some (mkContainer {[ "ibctest" := "TestB" ]} true).
Proof.
  destruct (teardown_leaves_unlabelled_alone "TestA" example_engine
              example_faults) as (H & _).
  apply H; [reflexivity|].
  intros Hl. vm_compute in Hl. discriminate Hl.
Defined.

(** C8: whatever the calls of the client answer, the teardown returns; its
    trace is the one of the spec, so that a failed listing, stop, wait or
    removal does not keep the later calls from being made; no call is made
    twice, and each call takes one answer. *)
Theorem teardown_swallows_failures :
  ∀ (testName : string) (e : Engine) (fs : list (option error)),
    let result := dockerCleanup testName (mkWorld e fs []) in
    result.1 = ()
    ∧ calls result.2 = spec_teardown_calls testName e fs
    ∧ NoDup (calls result.2)
    ∧ faults result.2 = drop (length (calls result.2)) fs
    ∧ CallListContainers true ∈ calls result.2
    ∧ CallListNetworks ∈ calls result.2.
Proof.
  intros testName e fs result. subst result.
  split; [by destruct (dockerCleanup _ _) as [[] ?]|].
  rewrite dockerCleanup_calls. split; [done|].
  split; [apply NoDup_spec_teardown_calls|].
  destruct (dockerCleanup_run testName (mkWorld e fs []))
    as [(_ & Hf & _) _].
  split; [exact Hf|]. unfold spec_teardown_calls. cbn zeta.
  split; [apply elem_of_cons; by left|].
  apply elem_of_cons. right. apply elem_of_app. right.
  apply elem_of_cons. by left.
Qed.

Example teardown_all_calls_fail :
  calls (dockerCleanup "TestA"
           (mkWorld example_engine
              (replicate 9 (Some (errorString "daemon gone"))) [])).2
  = [CallListContainers true; CallListNetworks].
Proof. vm_compute. reflexivity. Qed.

Example teardown_stop_fails :
  calls (dockerCleanup "TestA"
           (mkWorld example_engine
              [None; Some (errorString "not running")] [])).2
  = [CallListContainers true;
     CallStopContainer "c3" 10;
     CallWaitContainerWithContext "c3" 5000000000%Z;
     CallRemoveContainer "c3" true;
     CallStopContainer "c1" 10;
     CallWaitContainerWithContext "c1" 5000000000%Z;
     CallRemoveContainer "c1" true;
     CallListNetworks;
     CallRemoveNetwork "n1"].
Proof. vm_compute. reflexivity. Qed.

End TeardownTheorems.

(* ================================================================== *)
(** * Further properties *)

(** ** Output parsers: the log, composition, blank output *)

Lemma foldl_channels_step_log {ChannelOutput : Type} TrimSpace
    (Unmarshal : string → ChannelOutput + error) lines channels log :
  (foldl (hermes.channels_step TrimSpace Unmarshal) (channels, log) lines).2
  = log ++ (parse_error_entry "Failed to parse channels json"
              <$> spec_errors_of_lines TrimSpace Unmarshal lines).
Proof.
  revert channels log.
  induction lines as [|line lines IH]; intros channels log.
  - simpl. by rewrite app_nil_r.
  - unfold spec_errors_of_lines. rewrite filter_cons. simpl.
    unfold hermes.channels_step.
    destruct (String.eqb_spec (TrimSpace line) "") as [Hblank|Hblank].
    + rewrite decide_False by (intros H; done). apply IH.
    + rewrite decide_True by done. simpl.
      destruct (Unmarshal line) as [record|err]; simpl; [apply IH|].
      rewrite IH. by rewrite <- app_assoc.
Qed.

Lemma foldl_connections_step_log {ConnectionOutput : Type} TrimSpace
    (Unmarshal : string → ConnectionOutput + error) lines connections log :
  (foldl (hermes.connections_step TrimSpace Unmarshal)
     (connections, log) lines).2
  = log ++ (parse_error_entry "Error parsing connection json"
              <$> spec_errors_of_lines TrimSpace Unmarshal lines).
Proof.
  revert connections log.
  induction lines as [|line lines IH]; intros connections log.
  - simpl. by rewrite app_nil_r.
  - unfold spec_errors_of_lines. rewrite filter_cons. simpl.
    unfold hermes.connections_step.
    destruct (String.eqb_spec (TrimSpace line) "") as [Hblank|Hblank].
    + rewrite decide_False by (intros H; done). apply IH.
    + rewrite decide_True by done. simpl.
      destruct (Unmarshal line) as [record|err]; simpl; [apply IH|].
      rewrite IH. by rewrite <- app_assoc.
Qed.

Lemma spec_errors_of_lines_app {T : Type} TrimSpace
    (Unmarshal : string → T + error) l1 l2 :
  spec_errors_of_lines TrimSpace Unmarshal (l1 ++ l2)
  = spec_errors_of_lines TrimSpace Unmarshal l1
    ++ spec_errors_of_lines TrimSpace Unmarshal l2.
Proof. unfold spec_errors_of_lines. by rewrite filter_app, omap_app. Qed.

(** Every line that is not blank gives a record or an error, never both. *)
Lemma records_and_errors_length {T : Type} TrimSpace
    (Unmarshal : string → T + error) lines :
  (length (spec_records_of_lines TrimSpace Unmarshal lines)
   + length (spec_errors_of_lines TrimSpace Unmarshal lines))%nat
  = length (filter (λ line, TrimSpace line ≠ "") lines).
Proof.
  unfold spec_records_of_lines, spec_errors_of_lines.
  induction (filter _ lines) as [|line l IH]; [done|].
  cbn [omap list_omap]. destruct (Unmarshal line); cbn [length]; lia.
Qed.

Lemma ParseGetChannelsOutput_eq {ChannelOutput : Type} TrimSpace
    (Unmarshal : string → ChannelOutput + error) stdout stderr :
  hermes.ParseGetChannelsOutput TrimSpace Unmarshal stdout stderr
  = ((spec_records_of_lines TrimSpace Unmarshal
        (strings.Split stdout strings.newline), None),
     parse_error_entry "Failed to parse channels json"
       <$> spec_errors_of_lines TrimSpace Unmarshal
             (strings.Split stdout strings.newline)).
Proof.
  unfold hermes.ParseGetChannelsOutput.
  pose proof (foldl_channels_step TrimSpace Unmarshal
                (strings.Split stdout strings.newline) [] []) as H1.
  pose proof (foldl_channels_step_log TrimSpace Unmarshal
                (strings.Split stdout strings.newline) [] []) as H2.
  destruct (foldl _ _ _) as [channels log]. simpl in *. by subst.
Qed.

Lemma ParseGetConnectionsOutput_eq {ConnectionOutput : Type} TrimSpace
    (Unmarshal : string → ConnectionOutput + error) stdout stderr :
  hermes.ParseGetConnectionsOutput TrimSpace Unmarshal stdout stderr
  = ((spec_records_of_lines TrimSpace Unmarshal
        (strings.Split stdout strings.newline), None),
     parse_error_entry "Error parsing connection json"
       <$> spec_errors_of_lines TrimSpace Unmarshal
             (strings.Split stdout strings.newline)).
Proof.
  unfold hermes.ParseGetConnectionsOutput.
  pose proof (foldl_connections_step TrimSpace Unmarshal
                (strings.Split stdout strings.newline) [] []) as H1.
  pose proof (foldl_connections_step_log TrimSpace Unmarshal
                (strings.Split stdout strings.newline) [] []) as H2.
  destruct (foldl _ _ _) as [connections log]. simpl in *. by subst.
Qed.

Lemma ParseRestoreKeyOutput_eq {ConnectionOutput : Type} TrimSpace
    (Unmarshal : string → ConnectionOutput + error) stdout stderr :
  hermes.ParseRestoreKeyOutput TrimSpace Unmarshal stdout stderr
  = ("",
     parse_error_entry "Error parsing connection json"
       <$> spec_errors_of_lines TrimSpace Unmarshal
             (strings.Split stdout strings.newline)).
Proof.
  unfold hermes.ParseRestoreKeyOutput.
  pose proof (foldl_connections_step_log TrimSpace Unmarshal
                (strings.Split stdout strings.newline) [] []) as H2.
  destruct (foldl _ _ _) as [connections log]. simpl in *. by subst.
Qed.

(** X1: the parsers log one entry for every line that is neither blank nor
    decodes, in input order and with the error of the decoder, and nothing
    else; so every line that is not blank shows either as a record or as a
    log entry. *)
Theorem parsers_log_every_malformed_line :
  ∀ (TrimSpace : string → string) (ChannelOutput ConnectionOutput : Type)
    (Unmarshal_channel : string → ChannelOutput + error)
    (Unmarshal_connection : string → ConnectionOutput + error)
    (stdout stderr : string),
    let lines := strings.Split stdout strings.newline in
    let channels :=
      hermes.ParseGetChannelsOutput TrimSpace Unmarshal_channel
        stdout stderr in
    let connections :=
      hermes.ParseGetConnectionsOutput TrimSpace Unmarshal_connection
        stdout stderr in
    channels.2
    = (parse_error_entry "Failed to parse channels json"
         <$> spec_errors_of_lines TrimSpace Unmarshal_channel lines)
    ∧ connections.2
      = (parse_error_entry "Error parsing connection json"
           <$> spec_errors_of_lines TrimSpace Unmarshal_connection lines)
    ∧ (length channels.1.1 + length channels.2)%nat
      = length (filter (λ line, TrimSpace line ≠ "") lines)
    ∧ (length connections.1.1 + length connections.2)%nat
      = length (filter (λ line, TrimSpace line ≠ "") lines).
Proof.
  intros. subst channels connections lines.
  rewrite ParseGetChannelsOutput_eq, ParseGetConnectionsOutput_eq.
  cbn [fst snd]. rewrite !length_fmap.
  repeat split; apply records_and_errors_length.
Qed.

(** X2: parsing two outputs joined by a newline gives the records of the
    first followed by those of the second, and likewise the log. *)
Theorem parsers_compose_over_newline :
  ∀ (TrimSpace : string → string) (ChannelOutput ConnectionOutput : Type)
    (Unmarshal_channel : string → ChannelOutput + error)
    (Unmarshal_connection : string → ConnectionOutput + error)
    (out1 out2 stderr : string),
    let joined := out1 +:+ String strings.newline out2 in
    let channels := hermes.ParseGetChannelsOutput TrimSpace Unmarshal_channel in
    let connections :=
      hermes.ParseGetConnectionsOutput TrimSpace Unmarshal_connection in
    channels joined stderr
    = (((channels out1 stderr).1.1 ++ (channels out2 stderr).1.1, None),
       (channels out1 stderr).2 ++ (channels out2 stderr).2)
    ∧ connections joined stderr
      = (((connections out1 stderr).1.1 ++ (connections out2 stderr).1.1,
          None),
         (connections out1 stderr).2 ++ (connections out2 stderr).2).
Proof.
  intros. subst joined channels connections.
  rewrite !ParseGetChannelsOutput_eq, !ParseGetConnectionsOutput_eq.
  cbn [fst snd]. rewrite Split_app.
  by rewrite !spec_records_of_lines_app, !spec_errors_of_lines_app,
    !fmap_app.
Qed.

Lemma blank_lines_nothing (TrimSpace : string → string)
    (lines : list string) :
  (∀ line, line ∈ lines → TrimSpace line = "") →
  filter (λ line, TrimSpace line ≠ "") lines = [].
Proof.
  intros H. induction lines as [|line lines IH]; [done|].
  rewrite filter_cons, decide_False.
  - apply IH. intros l Hl. apply H. apply elem_of_cons. by right.
  - intros Hne. apply Hne, H. apply elem_of_cons. by left.
Qed.

(** X3: an output all of whose lines are blank, the empty output among
    them when [TrimSpace] maps the empty string to itself, gives no record,
    no error and no log entry. *)
Theorem parsers_blank_output :
  ∀ (TrimSpace : string → string) (ChannelOutput ConnectionOutput : Type)
    (Unmarshal_channel : string → ChannelOutput + error)
    (Unmarshal_connection : string → ConnectionOutput + error)
    (stdout stderr : string),
    (∀ line, line ∈ strings.Split stdout strings.newline →
             TrimSpace line = "") →
    hermes.ParseGetChannelsOutput TrimSpace Unmarshal_channel stdout stderr
    = (([], None), [])
    ∧ hermes.ParseGetConnectionsOutput TrimSpace Unmarshal_connection
        stdout stderr
      = (([], None), [])
    ∧ hermes.ParseRestoreKeyOutput TrimSpace Unmarshal_connection
        stdout stderr
      = ("", []).
Proof.
  intros TrimSpace ChannelOutput ConnectionOutput Uch Uco stdout stderr H.
  rewrite ParseGetChannelsOutput_eq, ParseGetConnectionsOutput_eq,
    ParseRestoreKeyOutput_eq.
  unfold spec_records_of_lines, spec_errors_of_lines.
  by rewrite !(blank_lines_nothing TrimSpace _ H).
Qed.

Lemma parsers_blank_output_witness :
  hermes.ParseGetChannelsOutput example_TrimSpace example_Unmarshal
    (" " +:+ String strings.newline "") ""
  = (([], None), []).
Proof.
  apply (parsers_blank_output example_TrimSpace unit unit example_Unmarshal
           example_Unmarshal (" " +:+ String strings.newline "") "").
  intros line Hin. vm_compute in Hin.
  apply elem_of_cons in Hin as [->|Hin]; [reflexivity|].
  apply elem_of_cons in Hin as [->|Hin]; [reflexivity|].
  by apply elem_of_nil in Hin.
Defined.

(** ** The config path: shape *)

Section CleanFacts.
Import filepath.

Lemma backtrack_cons last0 c out dotdot :
  backtrack last0 (c :: out) dotdot
  = if (dotdot <? length (c :: out))%nat && negb (IsPathSeparator last0)
    then backtrack c out dotdot else c :: out.
Proof. reflexivity. Qed.

Lemma backtrack_last last0 out dotdot :
  (1 ≤ dotdot)%nat → out ≠ [] →
  last (backtrack last0 out dotdot) = last out.
Proof.
  intros Hdd. revert last0.
  induction out as [|c out IH]; intros last0 Hne; [done|].
  rewrite backtrack_cons. destruct out as [|c2 out].
  - replace (dotdot <? length [c])%nat with false; [done|].
    symmetry. apply Nat.ltb_ge. simpl. lia.
  - destruct (_ && _); [|done]. by rewrite IH.
Qed.

Lemma backtrack_last_or_nil last0 out dotdot :
  backtrack last0 out dotdot = []
  ∨ last (backtrack last0 out dotdot) = last out.
Proof.
  revert last0. induction out as [|c out IH]; intros last0; [by left|].
  rewrite backtrack_cons. destruct (_ && _); [|by right].
  destruct out as [|c2 out]; [by left|].
  destruct (IH c) as [H|H]; [by left|by right].
Qed.

Lemma clean_inv_backtrack rooted last0 out dotdot :
  clean_inv rooted (last0 :: out) dotdot →
  (dotdot <? length (last0 :: out))%nat = true →
  clean_inv rooted (backtrack last0 out dotdot) dotdot.
Proof.
  unfold clean_inv. destruct rooted.
  - intros [-> Hlast] Hlen. split; [done|].
    apply Nat.ltb_lt in Hlen. simpl in Hlen.
    destruct out as [|c out]; [simpl in Hlen; lia|].
    by rewrite backtrack_last.
  - intros Hlast _.
    destruct (backtrack_last_or_nil last0 out dotdot) as [-> | ->]; [done|].
    by destruct out.
Qed.

Lemma clean_inv_push rooted c out dotdot :
  IsPathSeparator c = false →
  clean_inv rooted out dotdot → clean_inv rooted (c :: out) dotdot.
Proof.
  unfold clean_inv, IsPathSeparator. intros Hc.
  destruct rooted.
  - intros [-> Hlast]. split; [done|]. by destruct out.
  - intros Hlast. destruct out; [|done]. simpl. intros [= ->].
    by rewrite Ascii.eqb_refl in Hc.
Qed.

Lemma clean_inv_slash rooted out dotdot :
  out ≠ [] →
  clean_inv rooted out dotdot → clean_inv rooted (Separator :: out) dotdot.
Proof. unfold clean_inv. intros Hne. by destruct rooted, out. Qed.

Lemma clean_inv_nonempty out dotdot : clean_inv true out dotdot → out ≠ [].
Proof. intros [_ H] ->. done. Qed.

Lemma clean_inv_dotdot out dotdot dotdot' :
  clean_inv false out dotdot →
  clean_inv false
    ("."%char :: "."%char
       :: (if (0 <? length out)%nat then Separator :: out else out))
    dotdot'.
Proof.
  unfold clean_inv. intros H. destruct out as [|c out]; [done|].
  by simpl.
Qed.

(** The slash before a real path element keeps the invariant. *)
Lemma clean_inv_element rooted c out dotdot :
  IsPathSeparator c = false →
  clean_inv rooted out dotdot →
  clean_inv rooted
    (c :: (if rooted && negb (length out =? 1)%nat
              || negb rooted && negb (length out =? 0)%nat
           then Separator :: out else out)) dotdot.
Proof.
  intros Hc Hinv. apply clean_inv_push; [done|].
  destruct (_ || _) eqn:Hcond; [|done].
  apply clean_inv_slash; [|done].
  destruct rooted; [by eapply clean_inv_nonempty|].
  intros ->. done.
Qed.

(** Cleaning two paths that start alike and go on, after a separator, with
    the tails [t] and [t'] ends by cleaning the tails from one and the same
    state, which satisfies the invariant. *)
Lemma clean_loop_both (Q : list ascii → list ascii → Prop) rooted t t' :
  (∀ out dotdot, clean_inv rooted out dotdot →
                 Q (clean_loop rooted t out dotdot)
                   (clean_loop rooted t' out dotdot)) →
  ∀ n,
    (∀ path out dotdot, (length path ≤ n)%nat →
       clean_inv rooted out dotdot →
       Q (clean_loop rooted (path ++ Separator :: t) out dotdot)
         (clean_loop rooted (path ++ Separator :: t') out dotdot))
    ∧ (∀ path out dotdot, (length path ≤ n)%nat →
         clean_inv rooted out dotdot →
         Q (copy_element rooted (path ++ Separator :: t) out dotdot)
           (copy_element rooted (path ++ Separator :: t') out dotdot)).
Proof.
  intros Ht.
  assert (Hbase : ∀ out dotdot, clean_inv rooted out dotdot →
            Q (clean_loop rooted ([] ++ Separator :: t) out dotdot)
              (clean_loop rooted ([] ++ Separator :: t') out dotdot))
    by (intros; cbn [app]; rewrite !clean_loop_skip; by apply Ht).
  assert (Hbase' : ∀ out dotdot, clean_inv rooted out dotdot →
            Q (copy_element rooted ([] ++ Separator :: t) out dotdot)
              (copy_element rooted ([] ++ Separator :: t') out dotdot))
    by (intros; cbn [app]; rewrite !copy_element_stop; by apply Ht).
  induction n as [|n [IHloop IHcopy]].
  - split; intros [|c rest] out dotdot Hlen Hinv; simpl in Hlen;
      try lia; auto.
  - split; intros [|c rest] out dotdot Hlen Hinv; auto; simpl in Hlen.
    + rewrite <- !app_comm_cons. cbn [clean_loop].
      destruct (IsPathSeparator c) eqn:Hsep; [apply IHloop; [lia|done]|].
      pose proof (clean_inv_element rooted c out dotdot Hsep Hinv) as Hel.
      set (out1 := c :: _) in *. clearbody out1.
      set (updir := if (0 <? length out)%nat then Separator :: out
                    else out).
      assert (Hup : rooted = false →
                    ∀ dotdot', clean_inv rooted
                                 ("."%char :: "."%char :: updir) dotdot').
      { intros -> dotdot'. by eapply clean_inv_dotdot. }
      clearbody updir.
      destruct rest as [|c2 [|c3 rest3]];
        cbn [app at_end_or_separator];
        change (IsPathSeparator Separator) with true;
        change (is_dot Separator) with false;
        rewrite ?andb_true_r, ?andb_false_r; cbn [andb];
        repeat match goal with
               | |- context [if ?b then _ else _] => destruct b eqn:?
               | |- context [match ?o with [] => _ | _ :: _ => _ end] =>
                   is_var o; destruct o
               end;
        rewrite ?app_comm_cons;
        try change (?x :: Separator :: t) with ([x] ++ Separator :: t);
        try change (?x :: Separator :: t') with ([x] ++ Separator :: t');
        (first [ apply Hbase | apply Hbase' | apply IHloop | apply IHcopy ]);
        try (simpl in *; lia); try assumption;
        try (by apply clean_inv_backtrack);
        try (apply Hup; by destruct rooted).
    + rewrite <- !app_comm_cons. cbn [copy_element].
      destruct (IsPathSeparator c) eqn:Hsep;
        [apply IHloop|apply IHcopy]; try lia; try done.
      by apply clean_inv_push.
Qed.


(** The state from which [Clean] starts satisfies the invariant. *)
Lemma clean_inv_start rooted :
  clean_inv rooted (if rooted then [Separator] else [])
    (if rooted then 1%nat else 0%nat).
Proof. by destruct rooted. Qed.

Lemma Clean_cons c path :
  Clean (String c path)
  = let rooted := IsPathSeparator c in
    let out :=
      clean_loop rooted (c :: list_ascii_of_string path)
        (if rooted then [Separator] else [])
        (if rooted then 1%nat else 0%nat) in
    match out with
    | [] => "."
    | _ => string_of_list_ascii (rev out)
    end.
Proof. unfold Clean. cbn [list_ascii_of_string]. by destruct (IsPathSeparator c). Qed.

Lemma string_of_list_ascii_app l1 l2 :
  string_of_list_ascii (l1 ++ l2)
  = string_of_list_ascii l1 +:+ string_of_list_ascii l2.
Proof. induction l1 as [|a l1 IH]; simpl; [done|by rewrite IH]. Qed.

(** Joining a home directory that is not empty with a tail cleans the
    directory, a separator and the tail. *)
Lemma Join_home c home (tail : list ascii) (elems : list string) :
  join_sep elems = string_of_list_ascii tail → elems ≠ [] →
  Join (String c home :: elems)
  = Clean (String c (home +:+ String Separator
                       (string_of_list_ascii tail))).
Proof.
  intros Htail Hne. cbn [Join String.eqb]. f_equal.
  destruct elems as [|e elems]; [done|].
  change (join_sep (String c home :: e :: elems))
    with (String c home +:+ String Separator (join_sep (e :: elems))).
  by rewrite Htail.
Qed.

Lemma Clean_both (Q : list ascii → list ascii → Prop) c home t t' :
  (∀ out dotdot, clean_inv (IsPathSeparator c) out dotdot →
                 Q (clean_loop (IsPathSeparator c) t out dotdot)
                   (clean_loop (IsPathSeparator c) t' out dotdot)) →
  ∃ out out',
    Q out out'
    ∧ Clean (String c (home +:+ String Separator (string_of_list_ascii t)))
      = match out with
        | [] => "."
        | _ => string_of_list_ascii (rev out)
        end
    ∧ Clean (String c (home +:+ String Separator (string_of_list_ascii t')))
      = match out' with
        | [] => "."
        | _ => string_of_list_ascii (rev out')
        end.
Proof.
  intros HQ. rewrite !Clean_cons. cbn zeta.
  rewrite !list_ascii_of_string_app. cbn [list_ascii_of_string].
  rewrite !list_ascii_of_string_of_list_ascii.
  rewrite !app_comm_cons.
  eexists _, _. split; [|split; reflexivity].
  eapply (clean_loop_both Q _ t t' HQ); [done|]. apply clean_inv_start.
Qed.

End CleanFacts.

Section ConfigPathFacts.
Import filepath.

Lemma last_rev_head (X : list ascii) :
  X ≠ [] → ∃ a r, rev X = a :: r ∧ last X = Some a.
Proof.
  intros Hne. destruct (rev X) as [|a r] eqn:Hrev.
  - apply (f_equal (@rev ascii)) in Hrev. rewrite rev_involutive in Hrev.
    done.
  - exists a, r. split; [done|].
    apply (f_equal (@rev ascii)) in Hrev. rewrite rev_involutive in Hrev.
    subst X. simpl. by rewrite last_snoc.
Qed.

(** What cleaning the two tails gives from a state of the invariant: the
    tails behind one and the same directory part. *)
Lemma clean_loop_config_tails rooted out dotdot :
  clean_inv rooted out dotdot →
  ∃ X, (X = [] ∨ ∃ d, X = Separator :: d)
       ∧ clean_loop rooted config_tail out dotdot = rev config_tail ++ X
       ∧ clean_loop rooted hermes_config_tail out dotdot
         = rev hermes_config_tail ++ X
       ∧ (if rooted then last X = Some Separator
          else last X ≠ Some Separator).
Proof.
  intros Hinv.
  exists (if rooted && negb (length out =? 1)%nat
             || negb rooted && negb (length out =? 0)%nat
          then Separator :: out else out).
  split; [|split; [|split]].
  - destruct (_ || _) eqn:Hcond; [right; by eexists|].
    destruct rooted; simpl in Hcond.
    + destruct Hinv as [_ Hlast].
      destruct out as [|a [|b out]]; try done.
      simpl in Hlast. injection Hlast as ->. right. by eexists.
    + destruct out; [by left|done].
  - unfold config_tail.
    cbn [clean_loop copy_element IsPathSeparator Separator is_dot
         at_end_or_separator Ascii.eqb Bool.eqb andb orb negb].
    reflexivity.
  - unfold hermes_config_tail.
    cbn [clean_loop copy_element IsPathSeparator Separator is_dot
         at_end_or_separator Ascii.eqb Bool.eqb andb orb negb].
    destruct rooted; reflexivity.
  - unfold clean_inv in Hinv. destruct rooted.
    + destruct Hinv as [_ Hlast]. simpl.
      destruct (negb _); [|done]. by destruct out.
    + simpl. destruct out; [done|]. by simpl.
Qed.

(** The two config paths: the tails behind one directory part, which is
    empty or ends in a separator; the paths are absolute exactly when the
    home directory is. *)
Lemma config_paths_dir homeDir :
  ∃ dir,
    Join [homeDir; "config.toml"] = dir +:+ "config.toml"
    ∧ Join [homeDir; "hermes"; "config.toml"] = dir +:+ "hermes/config.toml"
    ∧ (dir = "" ∨ ∃ d, dir = d +:+ "/")
    ∧ IsAbs (dir +:+ "config.toml") = IsAbs homeDir
    ∧ IsAbs (dir +:+ "hermes/config.toml") = IsAbs homeDir.
Proof.
  destruct homeDir as [|c home].
  { exists "". repeat split; try reflexivity. by left. }
  rewrite (Join_home c home config_tail ["config.toml"]) by done.
  rewrite (Join_home c home hermes_config_tail ["hermes"; "config.toml"])
    by done.
  destruct (Clean_both
              (λ out out', ∃ X, (X = [] ∨ ∃ d, X = Separator :: d)
                 ∧ out = rev config_tail ++ X
                 ∧ out' = rev hermes_config_tail ++ X
                 ∧ (if IsPathSeparator c then last X = Some Separator
                    else last X ≠ Some Separator))
              c home config_tail hermes_config_tail)
    as (out & out' & (X & Hshape & -> & -> & Hlast) & -> & ->).
  { intros out dotdot Hinv. by apply clean_loop_config_tails. }
  exists (string_of_list_ascii (rev X)).
  assert (Hstr : ∀ t : list ascii, t ≠ [] →
            match rev t ++ X with
            | [] => "."
            | _ => string_of_list_ascii (rev (rev t ++ X))
            end = string_of_list_ascii (rev X) +:+ string_of_list_ascii t).
  { intros t Ht. destruct (rev t ++ X) eqn:Heq.
    - apply app_eq_nil in Heq as [Heq _].
      apply (f_equal (@rev ascii)) in Heq. rewrite rev_involutive in Heq.
      done.
    - rewrite <- Heq, rev_app_distr, rev_involutive.
      apply string_of_list_ascii_app. }
  rewrite !Hstr by done.
  split; [done|]. split; [done|]. split.
  - destruct Hshape as [->|[d ->]]; [by left|]. right.
    exists (string_of_list_ascii (rev d)). simpl.
    by rewrite string_of_list_ascii_app.
  - assert (Habs : ∀ a s, IsPathSeparator a = false →
              IsAbs (string_of_list_ascii (rev X) +:+ String a s)
              = IsPathSeparator c).
    { intros a s Ha. destruct (decide (X = [])) as [->|Hne].
      - simpl. rewrite Ha. by destruct (IsPathSeparator c).
      - destruct (last_rev_head X Hne) as (b & r & -> & Hb).
        rewrite Hb in Hlast. simpl.
        destruct (IsPathSeparator c) eqn:Hc.
        + by injection Hlast as ->.
        + unfold IsPathSeparator, Separator in *.
          destruct (Ascii.eqb b "/") eqn:Hb'; [|done].
          apply Ascii.eqb_eq in Hb' as ->. done. }
    split; apply Habs; reflexivity.
Qed.

End ConfigPathFacts.

(** ** The command builders: config path and log *)

Lemma Join_trailing_separator homeDir (tail : list ascii)
    (elems : list string) :
  homeDir ≠ "" →
  filepath.join_sep elems = string_of_list_ascii tail → elems ≠ [] →
  filepath.Join ((homeDir +:+ "/") :: elems) = filepath.Join (homeDir :: elems).
Proof.
  intros Hne Htail Helems. destruct homeDir as [|c home]; [done|].
  change (String c home +:+ "/") with (String c (home +:+ "/")).
  rewrite (Join_home c (home +:+ "/") tail elems) by done.
  rewrite (Join_home c home tail elems) by done.
  assert (Happ : (home +:+ "/")
                 +:+ String filepath.Separator (string_of_list_ascii tail)
                 = home +:+ String filepath.Separator
                     (string_of_list_ascii (filepath.Separator :: tail))).
  { clear. induction home as [|a home IH]; [done|].
    change (String a ((home +:+ "/")
                      +:+ String filepath.Separator
                            (string_of_list_ascii tail))
            = String a (home +:+ String filepath.Separator
                          (string_of_list_ascii
                             (filepath.Separator :: tail)))).
    by rewrite IH. }
  rewrite Happ.
  destruct (Clean_both eq c home (filepath.Separator :: tail) tail)
    as (out & out' & <- & -> & ->); [|done].
  intros out dotdot _. apply clean_loop_skip.
Qed.

Lemma append_separator_differs (s : string) : s +:+ "/" ≠ s.
Proof.
  induction s as [|a s IH]; [done|].
  intros Heq. injection Heq as Heq. by apply IH.
Qed.

(** X4: a path-based builder over any lookups logs nothing when both
    lookups succeed and exactly one entry otherwise, which names the path
    and carries the error of the first lookup that failed; so the command
    is empty exactly when one entry was logged.  [UpdateClients] logs the
    message of the destination chain id for a failed client id lookup
    too. *)
Theorem path_operations_log_first_failure :
  ∀ (pathName channelID homeDir : string)
    (srcChain dstChain dstClient srcPort : hermes.Lookup),
    let source := "Failed to lookup up source chainid for path %s: %v" in
    let destination :=
      "Failed to lookup up destination chainid for path %s: %v" in
    let port := "Failed to lookup up portID for path %s: %v" in
    let createClients :=
      hermes.PathOps.CreateClients srcChain dstChain pathName homeDir in
    let createConnections :=
      hermes.PathOps.CreateConnections srcChain dstChain pathName homeDir in
    let updateClients :=
      hermes.PathOps.UpdateClients dstChain dstClient pathName homeDir in
    let clearQueue :=
      hermes.PathOps.ClearQueue srcChain srcPort pathName channelID homeDir in
    createClients.2
    = spec_lookup_log (srcChain pathName homeDir) (dstChain pathName homeDir)
        pathName source destination
    ∧ createConnections.2
      = spec_lookup_log (srcChain pathName homeDir)
          (dstChain pathName homeDir) pathName source destination
    ∧ updateClients.2
      = spec_lookup_log (dstChain pathName homeDir)
          (dstClient pathName homeDir) pathName destination destination
    ∧ clearQueue.2
      = spec_lookup_log (srcChain pathName homeDir)
          (srcPort pathName homeDir) pathName source port
    ∧ Forall (λ result : Logged (list string),
                length result.2 = (if decide (result.1 = []) then 1 else 0)%nat)
        [createClients; createConnections; updateClients; clearQueue].
Proof.
  intros pathName channelID homeDir srcChain dstChain dstClient srcPort.
  cbv zeta.
  unfold hermes.PathOps.CreateClients, hermes.PathOps.CreateConnections,
    hermes.PathOps.UpdateClients, hermes.PathOps.ClearQueue, spec_lookup_log,
    log_Error.
  destruct (srcChain pathName homeDir) as [s [e1|]],
    (dstChain pathName homeDir) as [d [e2|]],
    (dstClient pathName homeDir) as [cl [e3|]],
    (srcPort pathName homeDir) as [p [e4|]];
    repeat split; repeat constructor.
Qed.

(** X5: a path-based builder whose first lookup fails does not depend on
    its second lookup: command and log are those of the first failure. *)
Theorem path_operations_first_failure_wins :
  ∀ (pathName channelID homeDir : string) (first second second' : hermes.Lookup)
    (err : error),
    (first pathName homeDir).2 = Some err →
    hermes.PathOps.CreateClients first second pathName homeDir
    = hermes.PathOps.CreateClients first second' pathName homeDir
    ∧ hermes.PathOps.CreateConnections first second pathName homeDir
      = hermes.PathOps.CreateConnections first second' pathName homeDir
    ∧ hermes.PathOps.UpdateClients first second pathName homeDir
      = hermes.PathOps.UpdateClients first second' pathName homeDir
    ∧ hermes.PathOps.ClearQueue first second pathName channelID homeDir
      = hermes.PathOps.ClearQueue first second' pathName channelID homeDir.
Proof.
  intros pathName channelID homeDir first second second' err Hfirst.
  unfold hermes.PathOps.CreateClients, hermes.PathOps.CreateConnections,
    hermes.PathOps.UpdateClients, hermes.PathOps.ClearQueue.
  destruct (first pathName homeDir) as [s e]. simpl in Hfirst. subst e.
  done.
Qed.

Lemma path_operations_first_failure_wins_witness :
  let failing : hermes.Lookup :=
    λ _ _, ("", Some (errorString "no such path")) in
  hermes.PathOps.CreateClients failing hermes.getDestinationChainIDFromPath
    "transfer" "/home/hermes"
  = hermes.PathOps.CreateClients failing failing "transfer" "/home/hermes".
Proof.
  intros failing.
  apply (path_operations_first_failure_wins "transfer" "channel-0"
           "/home/hermes" failing hermes.getDestinationChainIDFromPath
           failing (errorString "no such path")).
  reflexivity.
Defined.

(** X6: a separator at the end of a home directory that is not empty makes
    no difference to any builder that passes a config path, while [Init]
    and [AddChainConfiguration], which pass the home directory itself,
    tell the two apart. *)
Theorem builders_ignore_trailing_separator :
  ∀ (CreateChannelOptions : Type) (opts : CreateChannelOptions)
    (chainID keyName pathName srcChainID dstChainID channelID
       containerFilePath mnemonic homeDir : string),
    homeDir ≠ "" →
    let homeDir' := homeDir +:+ "/" in
    hermes.AddKey chainID keyName homeDir'
    = hermes.AddKey chainID keyName homeDir
    ∧ hermes.ClearQueue pathName channelID homeDir'
      = hermes.ClearQueue pathName channelID homeDir
    ∧ hermes.CreateClients pathName homeDir'
      = hermes.CreateClients pathName homeDir
    ∧ hermes.CreateConnections pathName homeDir'
      = hermes.CreateConnections pathName homeDir
    ∧ hermes.GeneratePath srcChainID dstChainID pathName homeDir'
      = hermes.GeneratePath srcChainID dstChainID pathName homeDir
    ∧ hermes.GetChannels chainID homeDir' = hermes.GetChannels chainID homeDir
    ∧ hermes.GetConnections chainID homeDir'
      = hermes.GetConnections chainID homeDir
    ∧ hermes.LinkPath pathName homeDir' opts
      = hermes.LinkPath pathName homeDir opts
    ∧ hermes.RestoreKey chainID keyName mnemonic homeDir'
      = hermes.RestoreKey chainID keyName mnemonic homeDir
    ∧ hermes.StartRelayer pathName homeDir'
      = hermes.StartRelayer pathName homeDir
    ∧ hermes.UpdateClients pathName homeDir'
      = hermes.UpdateClients pathName homeDir
    ∧ hermes.Init homeDir' ≠ hermes.Init homeDir
    ∧ hermes.AddChainConfiguration containerFilePath homeDir'
      ≠ hermes.AddChainConfiguration containerFilePath homeDir.
Proof.
  intros CreateChannelOptions opts chainID keyName pathName srcChainID
    dstChainID channelID containerFilePath mnemonic homeDir Hne homeDir'.
  assert (Hconfig : filepath.Join [homeDir'; "config.toml"]
                    = filepath.Join [homeDir; "config.toml"]).
  { by apply (Join_trailing_separator homeDir config_tail). }
  assert (Hhermes : filepath.Join [homeDir'; "hermes"; "config.toml"]
                    = filepath.Join [homeDir; "hermes"; "config.toml"]).
  { by apply (Join_trailing_separator homeDir hermes_config_tail). }
  unfold hermes.AddKey, hermes.ClearQueue, hermes.CreateClients,
    hermes.CreateConnections, hermes.GeneratePath, hermes.GetChannels,
    hermes.GetConnections, hermes.LinkPath, hermes.RestoreKey,
    hermes.StartRelayer, hermes.UpdateClients,
    hermes.PathOps.ClearQueue, hermes.PathOps.CreateClients,
    hermes.PathOps.CreateConnections, hermes.PathOps.UpdateClients,
    hermes.getSourceChainIDFromPath, hermes.getDestinationChainIDFromPath,
    hermes.getDestinationClientIDFromPath, hermes.getSourcePortIDFromPath.
  rewrite Hconfig, Hhermes.
  repeat (split; [reflexivity|]).
  unfold hermes.Init, hermes.AddChainConfiguration.
  split; intros Heq; injection Heq as Heq;
    by apply append_separator_differs in Heq.
Qed.

Lemma builders_ignore_trailing_separator_witness :
  hermes.StartRelayer "transfer" "/home/hermes/"
  = hermes.StartRelayer "transfer" "/home/hermes".
Proof.
  pose proof (builders_ignore_trailing_separator unit tt "chain-a" "relayer"
                "transfer" "chain-a" "chain-b" "channel-0" "/tmp/chain.json"
                "abandon ability" "/home/hermes") as H.
  apply H. done.
Defined.

(** X7: for every home directory the config path of a builder is the file
    name [config.toml] behind a directory part that is empty or ends in a
    separator, whatever separators and dot elements the home directory
    holds, and the config path of [AddKey] is [hermes/config.toml] behind
    the same directory part. *)
Theorem config_path_in_cleaned_home :
  ∀ (CreateChannelOptions : Type) (opts : CreateChannelOptions)
    (chainID keyName pathName srcChainID dstChainID channelID mnemonic
       homeDir : string),
  ∃ dir : string,
    (dir = "" ∨ ∃ d, dir = d +:+ "/")
    ∧ let config := dir +:+ "config.toml" in
      hermes.AddKey chainID keyName homeDir
      = ["hermes"; "keys"; "add"; chainID; "-n"; keyName;
         "-c"; dir +:+ "hermes/config.toml"; "-j"]
      ∧ hermes.ClearQueue pathName channelID homeDir
        = (["hermes"; "clear"; "packets"; ""; ""; channelID;
            "-c"; config; "-j"], [])
      ∧ hermes.CreateClients pathName homeDir
        = (["hermes"; "create"; "client"; ""; ""; "-c"; config; "-j"], [])
      ∧ hermes.CreateConnections pathName homeDir
        = (["hermes"; "tx"; "connection"; ""; ""; "-c"; config; "-j"], [])
      ∧ hermes.GeneratePath srcChainID dstChainID pathName homeDir
        = ["hermes"; "paths"; "new"; srcChainID; dstChainID; pathName;
           "-c"; config; "-j"]
      ∧ hermes.GetChannels chainID homeDir
        = ["hermes"; "q"; "channels"; chainID; "-c"; config; "-j"]
      ∧ hermes.GetConnections chainID homeDir
        = ["hermes"; "q"; "connections"; chainID; "-c"; config; "-j"]
      ∧ hermes.LinkPath pathName homeDir opts
        = ["hermes"; "tx"; "link"; pathName; "-c"; config; "-j"]
      ∧ hermes.RestoreKey chainID keyName mnemonic homeDir
        = ["hermes"; "keys"; "restore"; chainID; "-n"; keyName;
           "-m"; mnemonic; "-c"; config; "-j"]
      ∧ hermes.StartRelayer pathName homeDir
        = ["hermes"; "start"; "-c"; config; "-j"]
      ∧ hermes.UpdateClients pathName homeDir
        = (["hermes"; "update"; "client"; ""; ""; "-c"; config; "-j"], []).
Proof.
  intros CreateChannelOptions opts chainID keyName pathName srcChainID
    dstChainID channelID mnemonic homeDir.
  destruct (config_paths_dir homeDir)
    as (dir & Hconfig & Hhermes & Hdir & _).
  exists dir. split; [done|]. cbv zeta.
  unfold hermes.AddKey, hermes.ClearQueue, hermes.CreateClients,
    hermes.CreateConnections, hermes.GeneratePath, hermes.GetChannels,
    hermes.GetConnections, hermes.LinkPath, hermes.RestoreKey,
    hermes.StartRelayer, hermes.UpdateClients,
    hermes.PathOps.ClearQueue, hermes.PathOps.CreateClients,
    hermes.PathOps.CreateConnections, hermes.PathOps.UpdateClients,
    hermes.getSourceChainIDFromPath, hermes.getDestinationChainIDFromPath,
    hermes.getDestinationClientIDFromPath, hermes.getSourcePortIDFromPath.
  rewrite Hconfig, Hhermes. repeat split.
Qed.

(** X8: the config path a builder passes is absolute exactly when the home
    directory is: a relative home directory, the empty one among them,
    gives a relative config path. *)
Theorem config_path_absolute_iff_home :
  ∀ homeDir : string,
    IsAbs (filepath.Join [homeDir; "config.toml"]) = IsAbs homeDir
    ∧ IsAbs (filepath.Join [homeDir; "hermes"; "config.toml"])
      = IsAbs homeDir
    ∧ (∀ chainID keyName,
         hermes.AddKey chainID keyName homeDir !! 7%nat
         = Some (filepath.Join [homeDir; "hermes"; "config.toml"]))
    ∧ (∀ pathName,
         hermes.StartRelayer pathName homeDir !! 3%nat
         = Some (filepath.Join [homeDir; "config.toml"])).
Proof.
  intros homeDir.
  split; [|split; [|split; reflexivity]];
    destruct (config_paths_dir homeDir)
      as (dir & Hconfig & Hhermes & _ & Habs & Habs');
    rewrite ?Hconfig, ?Hhermes; done.
Qed.

(** ** The chain configuration: every input *)

Lemma ValidString_RuneError s :
  utf8.ValidString (utf8.RuneError +:+ s) = utf8.ValidString s.
Proof. reflexivity. Qed.

Lemma ValidString_coerce_le n :
  ∀ s, (String.length s ≤ n)%nat → utf8.ValidString (utf8.coerce s) = true.
Proof.
  induction n as [|n IH]; intros s Hlen.
  - destruct s; [done|]. simpl in Hlen. lia.
  - destruct s as [|b0 r1]; [done|].
    cbn [utf8.coerce]. simpl in Hlen.
    assert (Hrec : ∀ r, (String.length r ≤ String.length r1)%nat →
                        utf8.ValidString (utf8.coerce r) = true)
      by (intros r Hr; apply IH; lia).
    clear IH Hlen.
    destruct (utf8.first b0) as [[sz [lo hi]]|] eqn:Hfirst;
      [|rewrite ValidString_RuneError; by apply Hrec].
    destruct sz as [|[|[|[|sz]]]];
      repeat
        match goal with
        | |- utf8.ValidString (utf8.RuneError +:+ _) = true =>
            rewrite ValidString_RuneError; apply Hrec; simpl; lia
        | |- utf8.ValidString (utf8.coerce _) = true =>
            apply Hrec; simpl; lia
        | |- context [match ?r with EmptyString => _ | String _ _ => _ end] =>
            destruct r; simpl in Hrec
        | |- context [negb ?b] =>
            let H := fresh "Hb" in destruct b eqn:H; cbn [negb]
        | |- utf8.ValidString (String b0 _) = true =>
            cbn [utf8.ValidString]; rewrite Hfirst
        | H : ?b = true |- context [?b] => rewrite H; cbn [andb]
        end.
Qed.

(** The encoder writes valid UTF-8 for every string. *)
Lemma ValidString_coerce s : utf8.ValidString (utf8.coerce s) = true.
Proof. by apply (ValidString_coerce_le (String.length s)). Qed.

Lemma coerce_idemp s : utf8.coerce (utf8.coerce s) = utf8.coerce s.
Proof. apply coerce_valid, ValidString_coerce. Qed.

Lemma valid_input_coerced cfg keyName rpcAddr grpcAddr :
  json.IsNaN (ibc.GasAdjustment cfg) || json.IsInf (ibc.GasAdjustment cfg)
  = false →
  valid_input (coerced cfg) (utf8.coerce keyName) (utf8.coerce rpcAddr)
    (utf8.coerce grpcAddr) = true.
Proof.
  intros Hgas. unfold valid_input, coerced.
  cbn [ibc.Type_ ibc.ChainID ibc.Bech32Prefix ibc.GasPrices
       ibc.GasAdjustment forallb].
  by rewrite Hgas, !ValidString_coerce.
Qed.

(** [ConfigContent] on every input. *)
Lemma ConfigContent_eq cfg keyName rpcAddr grpcAddr :
  hermes.ConfigContent cfg keyName rpcAddr grpcAddr
  = if json.IsNaN (ibc.GasAdjustment cfg)
       || json.IsInf (ibc.GasAdjustment cfg)
    then inr json.UnsupportedValueError
    else inl (json.Object
                [("type", json.Str (utf8.coerce (ibc.Type_ cfg)));
                 ("value",
                  spec_value_object (coerced cfg) (utf8.coerce keyName)
                    (utf8.coerce rpcAddr) (utf8.coerce grpcAddr))]).
Proof.
  destruct cfg as [ty chain prefix prices gas].
  unfold hermes.ConfigContent, hermes.HermesRelayerChainConfig_fields,
    hermes.HermesRelayerChainConfigValue_fields,
    hermes.ChainConfigToHermesRelayerChainConfig, spec_value_object, coerced.
  cbn [hermes.Type_ hermes.Value hermes.AccountPrefix hermes.ChainID
       hermes.Debug hermes.GRPCAddr hermes.GasAdjustment hermes.GasPrices
       hermes.Key hermes.KeyringBackend hermes.OutputFormat hermes.RPCAddr
       hermes.SignMode hermes.Timeout ibc.Type_ ibc.ChainID
       ibc.Bech32Prefix ibc.GasPrices ibc.GasAdjustment].
  cbn [json.Marshal map json.collect].
  destruct (json.IsNaN gas || json.IsInf gas); reflexivity.
Qed.

(** A document of valid strings survives decoding and encoding. *)
Lemma roundtrip_document ty cfg keyName rpcAddr grpcAddr :
  utf8.ValidString ty = true →
  valid_input cfg keyName rpcAddr grpcAddr = true →
  roundtrip_preserves_map
    (json.Object
       [("type", json.Str ty);
        ("value", spec_value_object cfg keyName rpcAddr grpcAddr)]).
Proof.
  intros Hty Hvalid.
  pose proof (Marshal_decoded_value_object _ _ _ _ Hvalid) as Hvalue.
  destruct cfg as [ty' chain prefix prices gas].
  unfold valid_input in Hvalid.
  cbn [ibc.Type_ ibc.ChainID ibc.Bech32Prefix ibc.GasPrices
       ibc.GasAdjustment forallb] in *.
  repeat (apply andb_true_iff in Hvalid as [? Hvalid]).
  match goal with H : negb _ = true |- _ => apply negb_true_iff in H end.
  unfold roundtrip_preserves_map.
  set (value := spec_value_object _ _ _ _) in *.
  cbn [json.Unmarshal_any map].
  rewrite !coerce_valid by (done || reflexivity).
  cbn [json.Marshal]. rewrite <- list_to_map_fmap.
  cbn [reverse rev_append fmap list_fmap prod_map fst snd id].
  rewrite Hvalue, Marshal_valid_string by done.
  eexists. split; [vm_compute; reflexivity|].
  subst value. cbn [json.Unmarshal_any map spec_value_object].
  cbn [ibc.Type_ ibc.ChainID ibc.Bech32Prefix ibc.GasPrices
       ibc.GasAdjustment].
  rewrite !coerce_valid by (done || reflexivity).
  vm_compute. reflexivity.
Qed.

(** X9: [ConfigContent] returns an error exactly when the gas adjustment
    is NaN or infinite, and the error is the encoder's unsupported value;
    no string makes it fail.  Otherwise it returns the document of the
    chain type and the value object, with every input string coerced to
    valid UTF-8. *)
Theorem ConfigContent_fails_iff_gas_adjustment :
  ∀ (cfg : ibc.ChainConfig) (keyName rpcAddr grpcAddr : string),
    let gas := ibc.GasAdjustment cfg in
    ((∃ err, hermes.ConfigContent cfg keyName rpcAddr grpcAddr = inr err)
     ↔ json.IsNaN gas || json.IsInf gas = true)
    ∧ (∀ err, hermes.ConfigContent cfg keyName rpcAddr grpcAddr = inr err →
              err = json.UnsupportedValueError)
    ∧ (∀ doc, hermes.ConfigContent cfg keyName rpcAddr grpcAddr = inl doc →
              doc = json.Object
                      [("type", json.Str (utf8.coerce (ibc.Type_ cfg)));
                       ("value",
                        spec_value_object (coerced cfg)
                          (utf8.coerce keyName) (utf8.coerce rpcAddr)
                          (utf8.coerce grpcAddr))]).
Proof.
  intros cfg keyName rpcAddr grpcAddr gas. subst gas.
  rewrite ConfigContent_eq.
  destruct (json.IsNaN _ || json.IsInf _); repeat split;
    try (intros [err Herr]); try (intros err Herr); try done;
    try congruence.
  by eexists.
Qed.

(** X10: every string of a document that [ConfigContent] returns, the
    member names among them, is valid UTF-8, whatever bytes the inputs
    hold. *)
Theorem ConfigContent_strings_valid :
  ∀ (cfg : ibc.ChainConfig) (keyName rpcAddr grpcAddr : string)
    (doc : json.Value),
    hermes.ConfigContent cfg keyName rpcAddr grpcAddr = inl doc →
    Forall (λ s, utf8.ValidString s = true) (strings_of doc).
Proof.
  intros cfg keyName rpcAddr grpcAddr doc. rewrite ConfigContent_eq.
  destruct (json.IsNaN _ || json.IsInf _); [done|].
  intros [= <-]. destruct cfg as [ty chain prefix prices gas].
  cbn [strings_of flat_map spec_value_object coerced fst snd app
       ibc.Type_ ibc.ChainID ibc.Bech32Prefix ibc.GasPrices
       ibc.GasAdjustment].
  repeat (apply Forall_cons; split;
          [first [apply ValidString_coerce | reflexivity]|]).
  apply Forall_nil_2.
Qed.

Lemma ConfigContent_strings_valid_witness :
  ∃ doc,
    hermes.ConfigContent example_config example_key_invalid
      "http://chain-a:26657" "chain-a:9090" = inl doc
    ∧ Forall (λ s, utf8.ValidString s = true) (strings_of doc).
Proof.
  eexists. split; [reflexivity|].
  apply (ConfigContent_strings_valid example_config example_key_invalid
           "http://chain-a:26657" "chain-a:9090").
  reflexivity.
Defined.

(** X11: every document that [ConfigContent] returns survives decoding
    into a map and encoding again, also when the inputs hold bytes that
    are not valid UTF-8: the text is coerced once, on the way out. *)
Theorem ConfigContent_roundtrip_every_document :
  ∀ (cfg : ibc.ChainConfig) (keyName rpcAddr grpcAddr : string)
    (doc : json.Value),
    hermes.ConfigContent cfg keyName rpcAddr grpcAddr = inl doc →
    roundtrip_preserves_map doc.
Proof.
  intros cfg keyName rpcAddr grpcAddr doc. rewrite ConfigContent_eq.
  destruct (json.IsNaN _ || json.IsInf _) eqn:Hgas; [done|].
  intros [= <-]. apply roundtrip_document.
  - apply ValidString_coerce.
  - by apply valid_input_coerced.
Qed.

Lemma ConfigContent_roundtrip_every_document_witness :
  ∃ doc,
    hermes.ConfigContent example_config example_key_invalid
      "http://chain-a:26657" "chain-a:9090" = inl doc
    ∧ roundtrip_preserves_map doc.
Proof.
  eexists. split; [reflexivity|].
  apply (ConfigContent_roundtrip_every_document example_config
           example_key_invalid "http://chain-a:26657" "chain-a:9090").
  reflexivity.
Defined.

(** X12: on valid inputs [ConfigContent] loses nothing: two valid inputs
    with the same document are the same input.  Inputs that are not valid
    UTF-8 can share a document. *)
Theorem ConfigContent_injective_on_valid_input :
  ∀ (cfg cfg' : ibc.ChainConfig)
    (keyName rpcAddr grpcAddr keyName' rpcAddr' grpcAddr' : string),
    valid_input cfg keyName rpcAddr grpcAddr = true →
    valid_input cfg' keyName' rpcAddr' grpcAddr' = true →
    hermes.ConfigContent cfg keyName rpcAddr grpcAddr
    = hermes.ConfigContent cfg' keyName' rpcAddr' grpcAddr' →
    cfg = cfg' ∧ keyName = keyName' ∧ rpcAddr = rpcAddr'
    ∧ grpcAddr = grpcAddr'.
Proof.
  intros cfg cfg' keyName rpcAddr grpcAddr keyName' rpcAddr' grpcAddr'
    Hvalid Hvalid'.
  rewrite !ConfigContent_eq.
  destruct cfg as [ty chain prefix prices gas],
    cfg' as [ty' chain' prefix' prices' gas'].
  unfold valid_input in Hvalid, Hvalid'.
  cbn [ibc.Type_ ibc.ChainID ibc.Bech32Prefix ibc.GasPrices
       ibc.GasAdjustment forallb coerced spec_value_object] in *.
  repeat (apply andb_true_iff in Hvalid as [? Hvalid]).
  repeat (apply andb_true_iff in Hvalid' as [? Hvalid']).
  repeat match goal with
         | H : negb _ = true |- _ => apply negb_true_iff in H; rewrite H
         end.
  unfold spec_value_object, coerced.
  cbn [ibc.Type_ ibc.ChainID ibc.Bech32Prefix ibc.GasPrices
       ibc.GasAdjustment].
  rewrite !coerce_valid by done.
  intros [= -> -> -> -> -> -> -> ->]. done.
Qed.

Lemma ConfigContent_injective_on_valid_input_witness :
  example_config = example_config ∧ "relayer" = "relayer"
  ∧ "http://chain-a:26657" = "http://chain-a:26657"
  ∧ "chain-a:9090" = "chain-a:9090".
Proof.
  apply (ConfigContent_injective_on_valid_input example_config
           example_config "relayer" "http://chain-a:26657" "chain-a:9090"
           "relayer" "http://chain-a:26657" "chain-a:9090");
    reflexivity.
Defined.

Example ConfigContent_invalid_inputs_collide :
  hermes.ConfigContent example_config (String "255" EmptyString)
    "http://chain-a:26657" "chain-a:9090"
  = hermes.ConfigContent example_config (String "254" EmptyString)
      "http://chain-a:26657" "chain-a:9090".
Proof. reflexivity. Qed.

(** ** The teardown: what it removes *)

Section OutcomeFacts.
Import docker dockerutil.

Lemma fails_drop fs n i : fails (drop n fs) i = fails fs (n + i).
Proof. unfold fails. by rewrite lookup_drop. Qed.

Lemma succeeded_nil call fs : ¬ succeeded call [] fs.
Proof. by intros (i & Hi & _). Qed.

Lemma succeeded_app call l1 l2 fs :
  succeeded call (l1 ++ l2) fs
  ↔ succeeded call l1 fs ∨ succeeded call l2 (drop (length l1) fs).
Proof.
  split.
  - intros (i & Hi & Hf). apply lookup_app_Some in Hi as [Hi|[Hle Hi]].
    + left. by exists i.
    + right. exists (i - length l1)%nat. split; [done|].
      rewrite fails_drop. by replace (length l1 + (i - length l1))%nat with i
        by lia.
  - intros [(i & Hi & Hf)|(i & Hi & Hf)].
    + exists i. split; [|done]. by apply lookup_app_l_Some.
    + exists (length l1 + i)%nat. rewrite fails_drop in Hf. split; [|done].
      rewrite lookup_app_r by lia.
      by replace (length l1 + i - length l1)%nat with i by lia.
Qed.

Lemma succeeded_singleton call call' fs :
  succeeded call [call'] fs ↔ call' = call ∧ fails fs 0 = false.
Proof.
  split.
  - intros ([|i] & Hi & Hf); [|done]. by injection Hi as ->.
  - intros [-> Hf]. by exists 0%nat.
Qed.

Lemma remainder_refl e : remainder e e.
Proof. split; [|done]. intros id c Hid. by exists c. Qed.

Lemma remainder_trans e1 e2 e3 :
  remainder e1 e2 → remainder e2 e3 → remainder e1 e3.
Proof.
  intros [Hc1 Hn1] [Hc2 Hn2]. split.
  - intros id c3 Hid. destruct (Hc2 id c3 Hid) as (c2 & Hid2 & Hl2 & Hr2).
    destruct (Hc1 id c2 Hid2) as (c1 & Hid1 & Hl1 & Hr1).
    exists c1. split; [done|]. split; [congruence|auto].
  - intros id l Hid. by apply Hn1, Hn2.
Qed.

Lemma outcome_refl w : outcome [] w w.
Proof.
  split; [done|]. split; [|split; [|apply remainder_refl]].
  - intros id. split; [by left|]. intros [H|H]; [done|].
    by apply succeeded_nil in H.
  - intros id. split; [by left|]. intros [H|H]; [done|].
    by apply succeeded_nil in H.
Qed.

Lemma outcome_trans l1 l2 w w1 w2 :
  outcome l1 w w1 → outcome l2 w1 w2 → outcome (l1 ++ l2) w w2.
Proof.
  intros (Hf1 & Hc1 & Hn1 & Hr1) (Hf2 & Hc2 & Hn2 & Hr2).
  split; [by rewrite Hf2, Hf1, drop_drop, length_app|].
  split; [|split; [|by eapply remainder_trans]].
  - intros id. rewrite Hc2, Hc1, succeeded_app, Hf1. tauto.
  - intros id. rewrite Hn2, Hn1, succeeded_app, Hf1. tauto.
Qed.

Lemma next_fault_fails_0 w : next_fault w = None ↔ fails (faults w) 0 = false.
Proof. by apply next_fault_fails. Qed.

(** A call that leaves the engine alone and is no removal, or fails. *)
Lemma outcome_received w call :
  (∀ id, call ≠ CallRemoveContainer id true ∨ next_fault w ≠ None) →
  (∀ id, call ≠ CallRemoveNetwork id ∨ next_fault w ≠ None) →
  outcome [call] w (received w call).
Proof.
  intros Hc Hn. unfold outcome, received. cbn [faults engine length].
  rewrite drop_one_tail. split; [done|].
  split; [|split; [|apply remainder_refl]].
  - intros id. split; [by left|]. intros [H|H]; [done|].
    apply succeeded_singleton in H as [-> Hf].
    apply next_fault_fails_0 in Hf. by destruct (Hc id).
  - intros id. split; [by left|]. intros [H|H]; [done|].
    apply succeeded_singleton in H as [-> Hf].
    apply next_fault_fails_0 in Hf. by destruct (Hn id).
Qed.

Lemma outcome_StopContainer id timeout w :
  outcome [CallStopContainer id timeout] w (StopContainer id timeout w).2.
Proof.
  rewrite StopContainer_run. cbn zeta.
  destruct (next_fault w) eqn:Hnf;
    [apply outcome_received; intros j; by left|].
  destruct (containers (engine w) !! id) as [c|] eqn:Hid;
    [|apply outcome_received; intros j; by left].
  unfold outcome, remainder, set_containers, received. cbn [snd faults engine length
    containers networks].
  rewrite drop_one_tail. split; [done|]. split; [|split; [|split]].
  - intros j. rewrite succeeded_singleton.
    destruct (decide (j = id)) as [->|Hne].
    + rewrite lookup_insert_eq, Hid. split; [done|]. by intros [?|[? _]].
    + rewrite lookup_insert_ne by done. split; [by left|].
      by intros [?|[? _]].
  - intros j. rewrite succeeded_singleton. split; [by left|].
    by intros [?|[? _]].
  - intros j c'. destruct (decide (j = id)) as [->|Hne].
    + rewrite lookup_insert_eq. intros [= <-]. exists c. by repeat split.
    + rewrite lookup_insert_ne by done. intros Hj. exists c'. by repeat split.
  - done.
Qed.

Lemma outcome_WaitContainerWithContext id ctxTimeout w :
  outcome [CallWaitContainerWithContext id ctxTimeout] w
    (WaitContainerWithContext id ctxTimeout w).2.
Proof.
  rewrite WaitContainerWithContext_run.
  apply outcome_received; intros j; by left.
Qed.

Lemma outcome_RemoveContainer id w :
  outcome [CallRemoveContainer id true] w (RemoveContainer id true w).2.
Proof.
  rewrite RemoveContainer_force_run. cbn zeta.
  destruct (next_fault w) eqn:Hnf.
  { apply outcome_received; intros j; [right; congruence|by left]. }
  apply next_fault_fails_0 in Hnf.
  destruct (containers (engine w) !! id) as [c|] eqn:Hid.
  - unfold outcome, remainder, set_containers, received. cbn [snd faults engine length
      containers networks].
    rewrite drop_one_tail. split; [done|]. split; [|split; [|split]].
    + intros j. rewrite succeeded_singleton.
      destruct (decide (j = id)) as [->|Hne].
      * rewrite lookup_delete_eq. split; [by right|done].
      * rewrite lookup_delete_ne by done. split; [by left|].
        intros [?|[[= ?] _]]; done.
    + intros j. rewrite succeeded_singleton. split; [by left|].
      by intros [?|[? _]].
    + intros j c'. rewrite lookup_delete_Some. intros [_ Hj].
      exists c'. by repeat split.
    + done.
  - unfold outcome, received. cbn [snd faults engine length].
    rewrite drop_one_tail. split; [done|].
    split; [|split; [|apply remainder_refl]].
    + intros j. rewrite succeeded_singleton. split; [by left|].
      intros [?|[[= ->] _]]; done.
    + intros j. rewrite succeeded_singleton. split; [by left|].
      by intros [?|[? _]].
Qed.

Lemma outcome_RemoveNetwork id w :
  outcome [CallRemoveNetwork id] w (RemoveNetwork id w).2.
Proof.
  rewrite RemoveNetwork_run. cbn zeta.
  destruct (next_fault w) eqn:Hnf.
  { apply outcome_received; intros j; [by left|right; congruence]. }
  apply next_fault_fails_0 in Hnf.
  destruct (networks (engine w) !! id) as [c|] eqn:Hid.
  - unfold outcome, remainder, set_networks, received. cbn [snd faults engine length
      containers networks].
    rewrite drop_one_tail. split; [done|]. split; [|split; [|split]].
    + intros j. rewrite succeeded_singleton. split; [by left|].
      by intros [?|[? _]].
    + intros j. rewrite succeeded_singleton.
      destruct (decide (j = id)) as [->|Hne].
      * rewrite lookup_delete_eq. split; [by right|done].
      * rewrite lookup_delete_ne by done. split; [by left|].
        intros [?|[[= ?] _]]; done.
    + intros j c' Hj. exists c'. by repeat split.
    + intros j l. rewrite lookup_delete_Some. by intros [_ Hj].
  - unfold outcome, received. cbn [snd faults engine length].
    rewrite drop_one_tail. split; [done|].
    split; [|split; [|apply remainder_refl]].
    + intros j. rewrite succeeded_singleton. split; [by left|].
      by intros [?|[? _]].
    + intros j. rewrite succeeded_singleton. split; [by left|].
      intros [?|[[= ->] _]]; done.
Qed.

Lemma cleanup_container_outcome testName id c w :
  outcome (spec_container_calls testName (id, c)) w
    (cleanup_container testName (mkAPIContainers id (Labels c)) w).2.
Proof.
  unfold cleanup_container, spec_container_calls.
  rewrite range_labels_map.
  cbn [APIContainers_Labels APIContainers_ID fst snd].
  case_decide as Hl; [|apply outcome_refl].
  rewrite !bind_run. cbn [mret M_ret snd].
  apply (outcome_trans [_] [_; _] _ _ _ (outcome_StopContainer _ _ _)).
  apply (outcome_trans [_] [_] _ _ _
           (outcome_WaitContainerWithContext _ _ _)).
  apply outcome_RemoveContainer.
Qed.

Lemma cleanup_network_outcome testName id labels w :
  outcome (spec_network_calls testName (id, labels)) w
    (cleanup_network testName (mkNetwork id labels) w).2.
Proof.
  unfold cleanup_network, spec_network_calls.
  rewrite range_labels_map.
  cbn [Network_Labels Network_ID fst snd].
  case_decide as Hl; [|apply outcome_refl].
  rewrite !bind_run. cbn [mret M_ret snd].
  apply outcome_RemoveNetwork.
Qed.

Lemma range_containers_outcome testName entries w :
  outcome (flat_map (spec_container_calls testName) entries) w
    (range ((λ '(id, c), mkAPIContainers id (Labels c)) <$> entries)
       (cleanup_container testName) w).2.
Proof.
  revert w. induction entries as [|[i c] rest IH]; intros w.
  - apply outcome_refl.
  - rewrite fmap_cons, range_cons_run. cbn [flat_map].
    eapply outcome_trans; [apply cleanup_container_outcome|apply IH].
Qed.

Lemma range_networks_outcome testName entries w :
  outcome (flat_map (spec_network_calls testName) entries) w
    (range ((λ '(id, labels), mkNetwork id labels) <$> entries)
       (cleanup_network testName) w).2.
Proof.
  revert w. induction entries as [|[i c] rest IH]; intros w.
  - apply outcome_refl.
  - rewrite fmap_cons, range_cons_run. cbn [flat_map].
    eapply outcome_trans; [apply cleanup_network_outcome|apply IH].
Qed.

(** The stages of a teardown. *)
Lemma dockerCleanup_stages testName w :
  let cont :=
    if fails (faults w) 0 then [] else map_to_list (containers (engine w)) in
  let ccalls := flat_map (spec_container_calls testName) cont in
  let nets :=
    if fails (faults w) (S (length ccalls)) then []
    else map_to_list (networks (engine w)) in
  let w1 := received w (CallListContainers true) in
  let w2 :=
    (range ((λ '(id, c), mkAPIContainers id (Labels c)) <$> cont)
       (cleanup_container testName) w1).2 in
  let w3 := received w2 CallListNetworks in
  (dockerCleanup testName w).2
  = (range ((λ '(id, labels), mkNetwork id labels) <$> nets)
       (cleanup_network testName) w3).2.
Proof.
  cbn zeta. rewrite dockerCleanup_unfold.
  rewrite bind_run, ListContainers_all_run. cbn [fst snd].
  set (w1 := received w (CallListContainers true)).
  set (cont := if fails (faults w) 0 then []
               else map_to_list (containers (engine w))).
  assert (Hcont :
    (match next_fault w with
     | Some err => ([], Some err)
     | None => ((λ '(id, c), mkAPIContainers id (Labels c)) <$>
                  map_to_list (containers (engine w)), None)
     end).1 = (λ '(id, c), mkAPIContainers id (Labels c)) <$> cont).
  { unfold cont. pose proof (next_fault_fails w 0 (faults w) eq_refl) as Hnf.
    destruct (next_fault w), (fails (faults w) 0); try done.
    - destruct Hnf as [_ Hnf]. by specialize (Hnf eq_refl).
    - destruct Hnf as [Hnf _]. by specialize (Hnf eq_refl). }
  destruct (match next_fault w with
            | Some err => ([], Some err)
            | None => _ end) as [cont' err']. cbn [fst] in Hcont. subst cont'.
  rewrite bind_run.
  destruct (range_containers_run testName cont w1) as [H2 _].
  set (w2 := (range _ (cleanup_container testName) w1).2) in *.
  set (ccalls := flat_map (spec_container_calls testName) cont) in *.
  rewrite bind_run, ListNetworks_run. cbn [fst snd].
  set (w3 := received w2 CallListNetworks).
  assert (Hn2 : networks (engine w2) = networks (engine w)).
  { by rewrite (footprint_networks_eq _ _ _ _ H2). }
  assert (Hnets :
    (match next_fault w2 with
     | Some err => ([], Some err)
     | None => ((λ '(id, labels), mkNetwork id labels) <$>
                  map_to_list (networks (engine w2)), None)
     end).1
    = (λ '(id, labels), mkNetwork id labels) <$>
        (if fails (faults w) (S (length ccalls)) then []
         else map_to_list (networks (engine w)))).
  { assert (Hf2 : faults w2 = drop (S (length ccalls)) (faults w)).
    { destruct H2 as (_ & -> & _). unfold w1, received. cbn [faults].
      by rewrite <- drop_one_tail, drop_drop. }
    pose proof (next_fault_fails w2 _ _ Hf2) as Hnf. rewrite Hn2.
    destruct (next_fault w2), (fails (faults w) (S (length ccalls)));
      try done.
    - destruct Hnf as [_ Hnf]. by specialize (Hnf eq_refl).
    - destruct Hnf as [Hnf _]. by specialize (Hnf eq_refl). }
  destruct (match next_fault w2 with
            | Some err => ([], Some err)
            | None => _ end) as [nets' err'']. cbn [fst] in Hnets.
  by subst nets'.
Qed.

Lemma dockerCleanup_outcome testName e fs :
  let w' := (dockerCleanup testName (mkWorld e fs [])).2 in
  outcome (calls w') (mkWorld e fs []) w'.
Proof.
  cbn zeta. rewrite dockerCleanup_calls.
  rewrite (dockerCleanup_stages testName (mkWorld e fs [])).
  unfold spec_teardown_calls. cbn zeta. cbn [faults engine].
  set (cont := if fails fs 0 then [] else map_to_list (containers e)).
  set (ccalls := flat_map (spec_container_calls testName) cont).
  set (nets := if fails fs (S (length ccalls)) then []
               else map_to_list (networks e)).
  eapply (outcome_trans [CallListContainers true]).
  { apply outcome_received; intros j; by left. }
  eapply outcome_trans; [apply range_containers_outcome|].
  eapply (outcome_trans [CallListNetworks]).
  { apply outcome_received; intros j; by left. }
  apply range_networks_outcome.
Qed.

End OutcomeFacts.

Section OutcomeTheorems.
Import docker dockerutil.

Lemma all_succeed_listing needs testName e fs :
  all_succeed needs testName e fs →
  (needs (CallListContainers true) = true → fails fs 0 = false)
  ∧ (needs CallListNetworks = true →
     ∃ n, spec_teardown_calls testName e fs !! n = Some CallListNetworks
          ∧ fails fs n = false
          ∧ n = S (length (flat_map (spec_container_calls testName)
                             (if fails fs 0 then []
                              else map_to_list (containers e))))).
Proof.
  intros Hall.
  assert (Hn : spec_teardown_calls testName e fs
               !! S (length (flat_map (spec_container_calls testName)
                               (if fails fs 0 then []
                                else map_to_list (containers e))))
               = Some CallListNetworks).
  { unfold spec_teardown_calls. cbn zeta.
    by apply (list_lookup_middle (_ :: _)). }
  split.
  - intros Hneeds. by apply (Hall 0%nat (CallListContainers true)).
  - intros Hneeds. eexists. split; [exact Hn|]. split; [|reflexivity].
    by apply (Hall _ CallListNetworks).
Qed.

(** The containers a teardown leaves when its listing of the containers
    and its removals of containers succeed. *)
Lemma dockerCleanup_containers_exact testName e fs :
  all_succeed container_removal_needs testName e fs →
  containers (engine (dockerCleanup testName (mkWorld e fs [])).2)
  = unlabelled_containers testName e.
Proof.
  intros Hall.
  destruct (all_succeed_listing _ _ _ _ Hall) as [Hlist _].
  specialize (Hlist eq_refl).
  destruct (dockerCleanup_outcome testName e fs) as (_ & Hgone & _ & _).
  destruct (dockerCleanup_frame testName e fs) as (Hkeep & _ & _ & _).
  cbn zeta in *. cbn [engine faults] in *.
  rewrite dockerCleanup_calls in Hgone.
  apply map_eq. intros id. unfold unlabelled_containers.
  destruct (containers e !! id) as [c|] eqn:Hid.
  - destruct (decide (labelled testName (Labels c))) as [Hl|Hl].
    + rewrite map_lookup_filter_None_2.
      2:{ right. intros c' Hid'. cbn [snd]. intros Hl'.
          rewrite Hid in Hid'. injection Hid' as <-. done. }
      apply Hgone. right.
      assert (Hin : CallRemoveContainer id true
                    ∈ spec_teardown_calls testName e fs).
      { unfold spec_teardown_calls. cbn zeta. rewrite Hlist.
        apply elem_of_cons. right. apply elem_of_app. left.
        apply elem_of_container_calls. exists id, c.
        split; [by apply elem_of_map_to_list|]. split; [done|].
        apply elem_of_three. by right; right. }
      apply list_elem_of_lookup in Hin as [i Hi]. exists i.
      split; [done|]. by apply (Hall i _ Hi).
    + rewrite (Hkeep id c Hid Hl). symmetry.
      by apply map_lookup_filter_Some_2.
  - rewrite map_lookup_filter_None_2 by (by left).
    apply Hgone. by left.
Qed.

(** The networks a teardown leaves when its listing of the networks and
    its removals of networks succeed. *)
Lemma dockerCleanup_networks_exact testName e fs :
  all_succeed network_removal_needs testName e fs →
  networks (engine (dockerCleanup testName (mkWorld e fs [])).2)
  = unlabelled_networks testName e.
Proof.
  intros Hall.
  destruct (all_succeed_listing _ _ _ _ Hall) as [_ Hlist].
  destruct (Hlist eq_refl) as (n & _ & Hn & ->). clear Hlist.
  destruct (dockerCleanup_outcome testName e fs) as (_ & _ & Hgone & _).
  destruct (dockerCleanup_frame testName e fs) as (_ & Hkeep & _ & _).
  cbn zeta in *. cbn [engine faults] in *.
  rewrite dockerCleanup_calls in Hgone.
  apply map_eq. intros id. unfold unlabelled_networks.
  destruct (networks e !! id) as [labels|] eqn:Hid.
  - destruct (decide (labelled testName labels)) as [Hl|Hl].
    + rewrite map_lookup_filter_None_2.
      2:{ right. intros c' Hid'. cbn [snd]. intros Hl'.
          rewrite Hid in Hid'. injection Hid' as <-. done. }
      apply Hgone. right.
      assert (Hin : CallRemoveNetwork id
                    ∈ spec_teardown_calls testName e fs).
      { unfold spec_teardown_calls. cbn zeta. rewrite Hn.
        apply elem_of_cons. right. apply elem_of_app. right.
        apply elem_of_cons. right.
        apply elem_of_network_calls. exists id, labels.
        split; [by apply elem_of_map_to_list|]. by split. }
      apply list_elem_of_lookup in Hin as [i Hi]. exists i.
      split; [done|]. by apply (Hall i _ Hi).
    + rewrite (Hkeep id labels Hid Hl). symmetry.
      by apply map_lookup_filter_Some_2.
  - rewrite map_lookup_filter_None_2 by (by left).
    apply Hgone. by left.
Qed.

Lemma fault_free_all_succeed needs testName e fs :
  Forall (λ f, f = None) fs → all_succeed needs testName e fs.
Proof.
  intros Hff i call _ _. unfold fails.
  destruct (fs !! i) as [[err|]|] eqn:Hi; try done.
  by apply (Forall_lookup_1 _ _ _ _ Hff) in Hi.
Qed.

(** The engine a teardown leaves when none of its calls fails. *)
Lemma dockerCleanup_engine_fault_free testName e fs :
  Forall (λ f, f = None) fs →
  engine (dockerCleanup testName (mkWorld e fs [])).2
  = mkEngine (unlabelled_containers testName e)
      (unlabelled_networks testName e).
Proof.
  intros Hff.
  pose proof (dockerCleanup_containers_exact testName e fs
                (fault_free_all_succeed _ _ _ _ Hff)) as Hc.
  pose proof (dockerCleanup_networks_exact testName e fs
                (fault_free_all_succeed _ _ _ _ Hff)) as Hn.
  destruct (engine _) as [cm nm]. cbn [containers networks] in *.
  by subst.
Qed.

(** X13: whatever its calls answer, a teardown leaves a remainder of the
    engine: every container that is there afterwards was there before,
    with the same labels, and is not running unless it was; every network
    that is there afterwards was there before, with the same labels. *)
Theorem teardown_leaves_a_remainder :
  ∀ (testName : string) (e : Engine) (fs : list (option error)),
    remainder e (engine (dockerCleanup testName (mkWorld e fs [])).2).
Proof.
  intros testName e fs.
  by destruct (dockerCleanup_outcome testName e fs) as (_ & _ & _ & H).
Qed.

(** X14: whatever its calls answer, a resource is gone after a teardown
    exactly when it was not there before or the teardown called for its
    removal and that call succeeded: a failed stop or wait does not keep a
    container, a failed removal does. *)
Theorem teardown_removes_iff_removal_succeeded :
  ∀ (testName : string) (e : Engine) (fs : list (option error)),
    let w' := (dockerCleanup testName (mkWorld e fs [])).2 in
    (∀ id, containers (engine w') !! id = None
           ↔ containers e !! id = None
             ∨ succeeded (CallRemoveContainer id true) (calls w') fs)
    ∧ (∀ id, networks (engine w') !! id = None
             ↔ networks e !! id = None
               ∨ succeeded (CallRemoveNetwork id) (calls w') fs).
Proof.
  intros testName e fs w'.
  by destruct (dockerCleanup_outcome testName e fs) as (_ & Hc & Hn & _).
Qed.

(** X15: when the listing of the containers and every removal of a
    container succeed, a teardown leaves exactly the containers without
    the cleanup label of the test, whatever its stops, its waits and its
    calls for networks answer; when the listing of the networks and every
    removal of a network succeed, it leaves exactly the networks without
    the label, whatever its calls for containers answer. *)
Theorem teardown_exact_when_removals_succeed :
  ∀ (testName : string) (e : Engine) (fs : list (option error)),
    let w' := (dockerCleanup testName (mkWorld e fs [])).2 in
    (all_succeed container_removal_needs testName e fs →
     containers (engine w') = unlabelled_containers testName e)
    ∧ (all_succeed network_removal_needs testName e fs →
       networks (engine w') = unlabelled_networks testName e).
Proof.
  intros testName e fs w'. split.
  - apply dockerCleanup_containers_exact.
  - apply dockerCleanup_networks_exact.
Qed.

Lemma teardown_exact_when_removals_succeed_witness :
  let fs := [None; Some (errorString "stop timed out");
             Some (errorString "wait timed out")] in
  containers (engine (dockerCleanup "TestA"
                        (mkWorld example_engine fs [])).2)
  = unlabelled_containers "TestA" example_engine.
Proof.
  intros fs.
  destruct (teardown_exact_when_removals_succeed "TestA" example_engine fs)
    as [H _].
  apply H. intros i call Hi Hneeds.
  do 9 (destruct i as [|i];
        [vm_compute in Hi; injection Hi as <-;
         first [reflexivity | discriminate Hneeds]|]).
  vm_compute in Hi. discriminate Hi.
Defined.

(** X16: teardowns for two tests commute when none of their calls fails:
    in either order they leave the engine without the resources that
    carry the cleanup label of one of the two tests. *)
Theorem teardowns_commute :
  ∀ (testA testB : string) (e : Engine)
    (fsA fsB fsA' fsB' : list (option error)),
    Forall (λ f, f = None) fsA → Forall (λ f, f = None) fsB →
    Forall (λ f, f = None) fsA' → Forall (λ f, f = None) fsB' →
    let after testName fs e :=
      engine (dockerCleanup testName (mkWorld e fs [])).2 in
    after testB fsB (after testA fsA e) = after testA fsA' (after testB fsB' e)
    ∧ ∀ id,
        containers (after testB fsB (after testA fsA e)) !! id
        = c ← containers e !! id;
          if decide (labelled testA (Labels c) ∨ labelled testB (Labels c))
          then None else Some c.
Proof.
  intros testA testB e fsA fsB fsA' fsB' HA HB HA' HB' after.
  subst after. cbn beta.
  rewrite !dockerCleanup_engine_fault_free by done.
  unfold unlabelled_containers, unlabelled_networks.
  cbn [containers networks]. split.
  - f_equal; apply map_eq; intros id; rewrite !map_lookup_filter;
      cbn [snd].
    + destruct (containers e !! id) as [c|]; [|done]. cbn.
      repeat (case_guard; cbn); done.
    + destruct (networks e !! id) as [l|]; [|done]. cbn.
      repeat (case_guard; cbn); done.
  - intros id. rewrite !map_lookup_filter. cbn [snd].
    destruct (containers e !! id) as [c|]; [|done]. cbn.
    repeat (case_guard; cbn); case_decide; tauto || done.
Qed.

Lemma teardowns_commute_witness :
  engine (dockerCleanup "TestB"
            (mkWorld
               (engine (dockerCleanup "TestA"
                          (mkWorld example_engine [] [])).2) [None] [])).2
  = engine (dockerCleanup "TestA"
              (mkWorld
                 (engine (dockerCleanup "TestB"
                            (mkWorld example_engine [] [])).2) [] [])).2.
Proof.
  apply (teardowns_commute "TestA" "TestB" example_engine [] [None] [] []);
    repeat constructor.
Defined.

End OutcomeTheorems.

(** ** The setup of the fixture *)

Section SetupFacts.
Import docker dockerutil.

Lemma dockerCleanup_faults testName e fs :
  faults (dockerCleanup testName (mkWorld e fs [])).2
  = drop (length (spec_teardown_calls testName e fs)) fs.
Proof.
  destruct (dockerCleanup_run testName (mkWorld e fs []))
    as [(_ & Hf & _) _].
  cbn zeta in Hf. cbn [faults engine] in Hf. rewrite Hf.
  by unfold spec_teardown_calls.
Qed.

(** [DockerSetup] when the pool could be made. *)
Lemma DockerSetup_run pool letters t e fs :
  let w1 := (dockerCleanup (testing.Name t) (mkWorld e fs [])).2 in
  let t1 := testing.Cleanup (dockerCleanup (testing.Name t)) t in
  let cfg :=
    dockertest.mkCreateNetworkOptions ("ibctest-" +:+ letters)
      {[ CleanupLabel := testing.Name t ]} true in
  let id := fresh (dom (networks (engine w1))) in
  DockerSetup (pool, None) letters t
    (dockertest.mkHost (mkWorld e fs []) [])
  = match next_fault w1 with
    | Some err =>
        ((testing.Stopped,
          testing.Fatalf
            (fmt.Sprintf_v "failed to create docker network: " err) t1),
         dockertest.mkHost
           (mkWorld (engine w1) (tail (faults w1)) (calls w1)) [cfg])
    | None =>
        ((testing.Returned (mkPool pool id), t1),
         dockertest.mkHost
           (mkWorld
              (mkEngine (containers (engine w1))
                 (<[id := {[ CleanupLabel := testing.Name t ]}]>
                    (networks (engine w1))))
              (tail (faults w1)) (calls w1)) [cfg])
    end.
Proof.
  cbn zeta. unfold DockerSetup, dockertest.on_world, next_fault.
  cbn [dockertest.world dockertest.requests testing.Name testing.Cleanup].
  destruct (dockerCleanup (testing.Name t) (mkWorld e fs [])) as [[] w1].
  cbn [snd]. unfold dockertest.CreateNetwork.
  cbn [dockertest.world dockertest.requests foldl dockertest.Name
       dockertest.Labels app].
  by destruct (faults w1) as [|[err|] fs'].
Qed.

(** The call for the network fails exactly when the fault behind the
    calls of the eager teardown is an error. *)
Lemma next_fault_after_cleanup testName e fs :
  next_fault (dockerCleanup testName (mkWorld e fs [])).2 = None
  ↔ fails fs (length (spec_teardown_calls testName e fs)) = false.
Proof. apply next_fault_fails, dockerCleanup_faults. Qed.

(** The resources without the label that a teardown leaves are those
    without the label that it found, whatever its calls answer. *)
Lemma unlabelled_after_cleanup testName e fs :
  let e1 := engine (dockerCleanup testName (mkWorld e fs [])).2 in
  unlabelled_containers testName e1 = unlabelled_containers testName e
  ∧ unlabelled_networks testName e1 = unlabelled_networks testName e.
Proof.
  destruct (dockerCleanup_frame testName e fs) as (Hkc & Hkn & Hac & Han).
  destruct (dockerCleanup_outcome testName e fs)
    as (_ & _ & _ & Hrc & Hrn).
  cbn zeta in *. cbn [engine] in *.
  set (e1 := engine (dockerCleanup testName (mkWorld e fs [])).2) in *.
  unfold unlabelled_containers, unlabelled_networks.
  split; apply map_eq; intros id; rewrite !map_lookup_filter; cbn [snd].
  - destruct (containers e1 !! id) as [c1|] eqn:H1.
    + destruct (Hrc id c1 H1) as (c & Hc & Hl & _). rewrite Hc. cbn.
      destruct (decide (labelled testName (Labels c))) as [Hlab|Hlab].
      * rewrite !option_guard_False; [done|tauto|rewrite Hl; tauto].
      * rewrite (Hkc id c Hc Hlab) in H1. by injection H1 as ->.
    + destruct (containers e !! id) as [c|] eqn:Hc; [|done]. cbn.
      destruct (decide (labelled testName (Labels c))) as [Hlab|Hlab].
      * rewrite option_guard_False; [done|tauto].
      * rewrite (Hkc id c Hc Hlab) in H1. done.
  - destruct (networks e1 !! id) as [l1|] eqn:H1.
    + rewrite (Hrn id l1 H1). done.
    + destruct (networks e !! id) as [l|] eqn:Hc; [|done]. cbn.
      destruct (decide (labelled testName l)) as [Hlab|Hlab].
      * rewrite option_guard_False; [done|tauto].
      * rewrite (Hkn id l Hc Hlab) in H1. done.
Qed.

Lemma labelled_singleton testName :
  labelled testName {[ CleanupLabel := testName ]}.
Proof. apply lookup_singleton_eq. Qed.

Lemma unlabelled_networks_insert testName (e : Engine) cm id :
  unlabelled_networks testName
    (mkEngine cm (<[id := {[ CleanupLabel := testName ]}]> (networks e)))
  = delete id (unlabelled_networks testName e).
Proof.
  unfold unlabelled_networks. cbn [networks].
  rewrite map_filter_insert_False by (cbn; pose proof (labelled_singleton testName); tauto).
  by rewrite map_filter_delete.
Qed.

End SetupFacts.

Section SetupTheorems.
Import docker dockerutil.

(** X17: [DockerSetup] is stopped exactly when the pool cannot be made or
    the call for the network fails; no answer to a call of the eager
    teardown stops it or marks the test as failed.  When the pool cannot
    be made nothing is registered and the engine receives no call; else
    the teardown is registered before anything can stop the setup, the
    eager teardown makes the calls of a teardown, and one network is
    requested, named [ibctest-] and the letters, labelled with the name
    of the test, with the check for duplicates. *)
Theorem DockerSetup_stops_iff_pool_or_network_fails :
  ∀ (pool : dockertest.Pool) (err : option error) (letters : string)
    (t : testing.T) (e : Engine) (fs : list (option error)),
    let h := dockertest.mkHost (mkWorld e fs []) [] in
    let result := DockerSetup (pool, err) letters t h in
    let t' := result.1.2 in
    let n := length (spec_teardown_calls (testing.Name t) e fs) in
    (result.1.1 = testing.Stopped ↔ err ≠ None ∨ fails fs n = true)
    ∧ (testing.Failed t' = true
       ↔ testing.Failed t = true ∨ result.1.1 = testing.Stopped)
    ∧ testing.Name t' = testing.Name t
    ∧ (err ≠ None →
       result.2 = h ∧ testing.cleanups t' = testing.cleanups t)
    ∧ (err = None →
       testing.cleanups t'
       = dockerCleanup (testing.Name t) :: testing.cleanups t
       ∧ calls (dockertest.world result.2)
         = spec_teardown_calls (testing.Name t) e fs
       ∧ dockertest.requests result.2
         = [dockertest.mkCreateNetworkOptions ("ibctest-" +:+ letters)
              {[ CleanupLabel := testing.Name t ]} true]).
Proof.
  intros pool [err|] letters t e fs h result t' n; subst h result t' n.
  { cbn. repeat split; try done; try tauto. intros _. by left. }
  rewrite DockerSetup_run. cbn zeta.
  pose proof (next_fault_after_cleanup (testing.Name t) e fs) as Hnf.
  pose proof (dockerCleanup_calls (testing.Name t) e fs) as Hcalls.
  set (b := fails fs (length (spec_teardown_calls (testing.Name t) e fs)))
    in *.
  destruct (next_fault _) as [err|]; destruct b;
    cbn [fst snd testing.Fatalf testing.Cleanup testing.Failed testing.Name
         testing.cleanups dockertest.world dockertest.requests calls];
    try (destruct Hnf as [Hnf Hnf']; first [by specialize (Hnf eq_refl)
                                           | by specialize (Hnf' eq_refl)]).
  - split; [split; [intros _; by right|done]|].
    split; [split; [intros _; by right|done]|]. by repeat split.
  - split; [split; [done|intros [?|?]; done]|].
    split; [split; [intros ?; by left|intros [?|?]; done]|].
    by repeat split.
Qed.

(** X18: the network of the pool that [DockerSetup] returns is a network
    of the engine that the eager teardown did not leave there and that
    carries the cleanup label with the name of the test, so that the
    teardown of the test finds it; the setup leaves the other networks
    and the containers as the eager teardown left them, and every
    resource without the label of the test as it found it. *)
Theorem DockerSetup_network_is_new_and_labelled :
  ∀ (pool : dockertest.Pool) (err : option error) (letters : string)
    (t : testing.T) (e : Engine) (fs : list (option error)) (p : Pool),
    let result :=
      DockerSetup (pool, err) letters t
        (dockertest.mkHost (mkWorld e fs []) []) in
    let e1 := engine (dockerCleanup (testing.Name t) (mkWorld e fs [])).2 in
    let e' := engine (dockertest.world result.2) in
    result.1.1 = testing.Returned p →
    Pool_Pool p = pool
    ∧ (∃ labels, networks e' !! NetworkID p = Some labels
                 ∧ labelled (testing.Name t) labels)
    ∧ networks e1 !! NetworkID p = None
    ∧ (∀ id, id ≠ NetworkID p → networks e' !! id = networks e1 !! id)
    ∧ containers e' = containers e1
    ∧ (∀ id c, containers e !! id = Some c →
               ¬ labelled (testing.Name t) (Labels c) →
               containers e' !! id = Some c)
    ∧ (∀ id labels, networks e !! id = Some labels →
                    ¬ labelled (testing.Name t) labels →
                    networks e' !! id = Some labels
                    ∧ id ≠ NetworkID p).
Proof.
  intros pool [err|] letters t e fs p result e1 e'; subst result e1 e';
    [done|].
  rewrite DockerSetup_run. cbn zeta.
  destruct (dockerCleanup_frame (testing.Name t) e fs)
    as (Hkc & Hkn & _ & _).
  cbn zeta in *. cbn [engine] in *.
  set (e1 := engine (dockerCleanup (testing.Name t) (mkWorld e fs [])).2)
    in *.
  assert (Hfresh : networks e1 !! fresh (dom (networks e1)) = None).
  { apply not_elem_of_dom, is_fresh. }
  destruct (next_fault _) as [err|]; [done|].
  cbn [fst snd dockertest.world engine networks containers].
  intros [= <-]. cbn [NetworkID networkID Pool_Pool dockerutil.pool].
  split; [done|]. split.
  { eexists. rewrite lookup_insert_eq. split; [done|].
    apply labelled_singleton. }
  split; [done|]. split.
  { intros id Hne. by rewrite lookup_insert_ne. }
  split; [done|]. split; [done|].
  intros id labels Hid Hl.
  assert (Hne : id ≠ fresh (dom (networks e1))).
  { intros ->. rewrite (Hkn _ _ Hid Hl) in Hfresh. done. }
  split; [|done]. rewrite lookup_insert_ne by done. by apply Hkn.
Qed.

Lemma DockerSetup_network_is_new_and_labelled_witness :
  let result :=
    DockerSetup (tt, None) "abcdefgh" (testing.mkT "TestA" [] [] false)
      (dockertest.mkHost (mkWorld example_engine example_faults []) []) in
  ∃ labels,
    networks (engine (dockertest.world result.2)) !! "0" = Some labels
    ∧ labelled "TestA" labels.
Proof.
  intros result.
  apply (DockerSetup_network_is_new_and_labelled tt None "abcdefgh"
           (testing.mkT "TestA" [] [] false) example_engine example_faults
           (mkPool tt "0")).
  vm_compute. reflexivity.
Defined.

(** X19: once the pool could be made, the functions that the setup has
    registered leave, when the test ends and none of their calls fails,
    exactly the resources that the setup found without the cleanup label
    of the test: whatever the eager teardown and the call for the
    network answered, nothing that the setup made is left, and nothing
    labelled that it found. *)
Theorem DockerSetup_then_cleanups :
  ∀ (pool : dockertest.Pool) (letters : string) (t : testing.T)
    (e : Engine) (fs fs' : list (option error)),
    testing.cleanups t = [] →
    Forall (λ f, f = None) fs' →
    let result :=
      DockerSetup (pool, None) letters t
        (dockertest.mkHost (mkWorld e fs []) []) in
    let after := engine (dockertest.world result.2) in
    let w' := (testing.runCleanups result.1.2 (mkWorld after fs' [])).2 in
    engine w'
    = mkEngine (unlabelled_containers (testing.Name t) e)
        (unlabelled_networks (testing.Name t) e).
Proof.
  intros pool letters t e fs fs' Ht Hff result after w'.
  subst result after w'. rewrite DockerSetup_run. cbn zeta.
  destruct (unlabelled_after_cleanup (testing.Name t) e fs) as [Hc Hn].
  cbn zeta in *.
  set (e1 := engine (dockerCleanup (testing.Name t) (mkWorld e fs [])).2)
    in *.
  assert (Hfresh : networks e1 !! fresh (dom (networks e1)) = None).
  { apply not_elem_of_dom, is_fresh. }
  assert (Hrun : ∀ t1 w, testing.cleanups t1
                         = [dockerCleanup (testing.Name t)] →
                 (testing.runCleanups t1 w).2
                 = (dockerCleanup (testing.Name t) w).2).
  { intros t1 w Ht1. unfold testing.runCleanups. rewrite Ht1.
    cbn [testing.run]. rewrite bind_run. done. }
  destruct (next_fault _) as [err|];
    cbn [fst snd dockertest.world engine];
    (rewrite Hrun by (cbn; by rewrite Ht));
    rewrite dockerCleanup_engine_fault_free by done.
  - by rewrite Hc, Hn.
  - rewrite unlabelled_networks_insert.
    unfold unlabelled_containers at 1. cbn [containers].
    fold (unlabelled_containers (testing.Name t) e1).
    rewrite Hc, Hn. f_equal. apply delete_id.
    rewrite <- Hn. unfold unlabelled_networks.
    by rewrite map_lookup_filter, Hfresh.
Qed.

Lemma DockerSetup_then_cleanups_witness :
  let result :=
    DockerSetup (tt, None) "abcdefgh" (testing.mkT "TestA" [] [] false)
      (dockertest.mkHost (mkWorld example_engine example_faults []) []) in
  engine (testing.runCleanups result.1.2
            (mkWorld (engine (dockertest.world result.2)) [] [])).2
  = mkEngine (unlabelled_containers "TestA" example_engine)
      (unlabelled_networks "TestA" example_engine).
Proof.
  apply (DockerSetup_then_cleanups tt "abcdefgh"
           (testing.mkT "TestA" [] [] false) example_engine example_faults
           []); [reflexivity|constructor].
Defined.

(** X20: when no call fails and the pool can be made, [DockerSetup]
    returns, and the network of the pool is the only resource of the
    engine that carries the cleanup label of the test: the containers are
    those without the label that the setup found, the networks are those
    without the label and the new one. *)
Theorem DockerSetup_fault_free :
  ∀ (pool : dockertest.Pool) (letters : string) (t : testing.T)
    (e : Engine) (fs : list (option error)),
    Forall (λ f, f = None) fs →
    let result :=
      DockerSetup (pool, None) letters t
        (dockertest.mkHost (mkWorld e fs []) []) in
    ∃ p, result.1.1 = testing.Returned p
         ∧ unlabelled_networks (testing.Name t) e !! NetworkID p = None
         ∧ engine (dockertest.world result.2)
           = mkEngine (unlabelled_containers (testing.Name t) e)
               (<[NetworkID p := {[ CleanupLabel := testing.Name t ]}]>
                  (unlabelled_networks (testing.Name t) e))
         ∧ testing.Failed result.1.2 = testing.Failed t.
Proof.
  intros pool letters t e fs Hff result. subst result.
  rewrite DockerSetup_run. cbn zeta.
  pose proof (dockerCleanup_engine_fault_free (testing.Name t) e fs Hff)
    as He1.
  pose proof (next_fault_after_cleanup (testing.Name t) e fs) as [_ Hnf].
  rewrite Hnf.
  2:{ unfold fails. destruct (fs !! _) as [[err|]|] eqn:Hi; try done.
      by apply (Forall_lookup_1 _ _ _ _ Hff) in Hi. }
  cbn [fst snd dockertest.world engine]. eexists. split; [reflexivity|].
  cbn [NetworkID networkID]. rewrite He1. cbn [networks containers].
  split; [|done]. apply not_elem_of_dom, is_fresh.
Qed.

Lemma DockerSetup_fault_free_witness :
  ∃ p,
    (DockerSetup (tt, None) "abcdefgh" (testing.mkT "TestA" [] [] false)
       (dockertest.mkHost (mkWorld example_engine [] []) [])).1.1
    = testing.Returned p.
Proof.
  destruct (DockerSetup_fault_free tt "abcdefgh"
              (testing.mkT "TestA" [] [] false) example_engine []
              (Forall_nil_2 _)) as (p & Hp & _).
  by exists p.
Defined.

End SetupTheorems.
